(** * The Analog/Digital LED installation

    A shallow embedding of the two sketches of the installation. The
    main part is [analog_digital/digital.cpp]: the pool of animated
    eyes, the ripple rings spawned by their blinks, and the per-frame
    driver [drawDigital]. Around it: the wave pool of the analog scene
    ([analog.cpp], without the curves themselves, which are computed
    in floating point and only decide which pixel of a row is lit),
    the main loop that alternates the two scenes, and the firmware of
    the Teensy that turns sensor inputs into MIDI notes
    ([Sensor.cpp]).

    Conventions of the embedding.
    - An [int] of the sketch (32 bits on the ESP32-S3) is a [Z]; the
      additions and subtractions on the fields of eyes and ripples go
      through [wrap32], so the theorems that need a value to stay in
      range say so. The narrower fields ([uint8_t], [int8_t],
      [int16_t]) are reduced when they are assigned.
    - The fixed arrays [eyes[MAX_EYES]] and [ripples[MAX_RIPPLES]] are
      lists; the loops over them are recursions over the list, in index
      order.
    - The global state is the record [World]; code that reads or writes
      it lives in the state monad [M].
    - Calls on the [matrix] that only paint (drawLine, fillCircle,
      show, ...) leave the state alone and are left out of the state
      transformers; what [drawAlmondEye] and [drawRipples] paint is
      given apart, as the list of calls they make. [width()] and
      [height()] are the record [Display]. *)

From Stdlib Require Import ZArith List Bool Lia.
Import ListNotations.
Local Open Scope Z_scope.

(* ------------------------------------------------------------------ *)
(** ** Machine integers *)
(* ------------------------------------------------------------------ *)

Module Int.

Definition min_int : Z := -2147483648.
Definition max_int : Z := 2147483647.

(** Two's complement reduction of a mathematical integer to [int]. *)
Definition wrap32 (z : Z) : Z := (z + 2147483648) mod 4294967296 - 2147483648.

Definition add (a b : Z) : Z := wrap32 (a + b).
Definition sub (a b : Z) : Z := wrap32 (a - b).
Definition abs (a : Z) : Z := wrap32 (Z.abs a).

(** Conversions on assignment to the narrower fields of the sketch. *)
Definition to_uint8 (z : Z) : Z := z mod 256.
Definition to_uint16 (z : Z) : Z := z mod 65536.
Definition to_int8 (z : Z) : Z := (z + 128) mod 256 - 128.
Definition to_int16 (z : Z) : Z := (z + 32768) mod 65536 - 32768.

Definition in_range (z : Z) : Prop := min_int <= z <= max_int.
Definition in_int16 (z : Z) : Prop := -32768 <= z <= 32767.

End Int.

(* ------------------------------------------------------------------ *)
(** ** Data model *)
(* ------------------------------------------------------------------ *)

Definition MAX_EYES : nat := 8.
Definition EYE_HALF_HEIGHT : Z := 25.
Definition EYE_MIN_SPACING : Z := 55.
Definition EYE_OPEN_SPEED : Z := 2.
Definition MAX_RIPPLES : nat := 12.

Inductive EyeState : Type :=
| EYE_INACTIVE
| EYE_OPENING
| EYE_OPEN
| EYE_BLINKING_CLOSE
| EYE_BLINKING_OPEN
| EYE_CLOSING.

Definition EyeState_eqb (a b : EyeState) : bool :=
  match a, b with
  | EYE_INACTIVE, EYE_INACTIVE
  | EYE_OPENING, EYE_OPENING
  | EYE_OPEN, EYE_OPEN
  | EYE_BLINKING_CLOSE, EYE_BLINKING_CLOSE
  | EYE_BLINKING_OPEN, EYE_BLINKING_OPEN
  | EYE_CLOSING, EYE_CLOSING => true
  | _, _ => false
  end.

Record Eye : Type := mkEye {
  x : Z;
  y : Z;
  state : EyeState;
  openAmount : Z;
  maxOpen : Z;
  halfHeight : Z;
  timer : Z;
  blinksLeft : Z;
  irisX : Z;
  irisY : Z;
  irisTargetX : Z;
  irisTargetY : Z;
  lookTimer : Z
}.

Record Ripple : Type := mkRipple {
  cx : Z;
  cy : Z;
  radius : Z;
  speed : Z;
  active : bool
}.

Record DigitChar : Type := mkDigitChar {
  character : Z;
  color : Z;
  yOffset : Z
}.

(** [matrix.width()] and [matrix.height()] (both [int16_t] in the
    graphics library). *)
Record Display : Type := mkDisplay {
  width : Z;
  height : Z
}.

Definition display_ok (d : Display) : Prop :=
  Int.in_int16 (width d) /\ Int.in_int16 (height d).

(** The generator behind [random()]: the raw number each successive
    call will be computed from. *)
Definition Rng : Type := nat -> Z.

Record World : Type := mkWorld {
  bgRedVal : Z;
  charOffset : Z;
  digitChars : list DigitChar;
  eyes : list Eye;
  ripples : list Ripple;
  rng : Rng
}.

(** Field assignments. *)

Definition set_state (v : EyeState) (e : Eye) : Eye :=
  mkEye (x e) (y e) v (openAmount e) (maxOpen e) (halfHeight e) (timer e)
        (blinksLeft e) (irisX e) (irisY e) (irisTargetX e) (irisTargetY e)
        (lookTimer e).

Definition set_openAmount (v : Z) (e : Eye) : Eye :=
  mkEye (x e) (y e) (state e) v (maxOpen e) (halfHeight e) (timer e)
        (blinksLeft e) (irisX e) (irisY e) (irisTargetX e) (irisTargetY e)
        (lookTimer e).

Definition set_timer (v : Z) (e : Eye) : Eye :=
  mkEye (x e) (y e) (state e) (openAmount e) (maxOpen e) (halfHeight e) v
        (blinksLeft e) (irisX e) (irisY e) (irisTargetX e) (irisTargetY e)
        (lookTimer e).

Definition set_blinksLeft (v : Z) (e : Eye) : Eye :=
  mkEye (x e) (y e) (state e) (openAmount e) (maxOpen e) (halfHeight e)
        (timer e) v (irisX e) (irisY e) (irisTargetX e) (irisTargetY e)
        (lookTimer e).

Definition set_irisX (v : Z) (e : Eye) : Eye :=
  mkEye (x e) (y e) (state e) (openAmount e) (maxOpen e) (halfHeight e)
        (timer e) (blinksLeft e) v (irisY e) (irisTargetX e) (irisTargetY e)
        (lookTimer e).

Definition set_irisY (v : Z) (e : Eye) : Eye :=
  mkEye (x e) (y e) (state e) (openAmount e) (maxOpen e) (halfHeight e)
        (timer e) (blinksLeft e) (irisX e) v (irisTargetX e) (irisTargetY e)
        (lookTimer e).

Definition set_irisTargetX (v : Z) (e : Eye) : Eye :=
  mkEye (x e) (y e) (state e) (openAmount e) (maxOpen e) (halfHeight e)
        (timer e) (blinksLeft e) (irisX e) (irisY e) v (irisTargetY e)
        (lookTimer e).

Definition set_irisTargetY (v : Z) (e : Eye) : Eye :=
  mkEye (x e) (y e) (state e) (openAmount e) (maxOpen e) (halfHeight e)
        (timer e) (blinksLeft e) (irisX e) (irisY e) (irisTargetX e) v
        (lookTimer e).

Definition set_lookTimer (v : Z) (e : Eye) : Eye :=
  mkEye (x e) (y e) (state e) (openAmount e) (maxOpen e) (halfHeight e)
        (timer e) (blinksLeft e) (irisX e) (irisY e) (irisTargetX e)
        (irisTargetY e) v.

Definition set_radius (v : Z) (r : Ripple) : Ripple :=
  mkRipple (cx r) (cy r) v (speed r) (active r).

Definition set_active (v : bool) (r : Ripple) : Ripple :=
  mkRipple (cx r) (cy r) (radius r) (speed r) v.

Definition set_bgRedVal (v : Z) (w : World) : World :=
  mkWorld v (charOffset w) (digitChars w) (eyes w) (ripples w) (rng w).

Definition set_charOffset (v : Z) (w : World) : World :=
  mkWorld (bgRedVal w) v (digitChars w) (eyes w) (ripples w) (rng w).

Definition set_digitChars (v : list DigitChar) (w : World) : World :=
  mkWorld (bgRedVal w) (charOffset w) v (eyes w) (ripples w) (rng w).

Definition set_eyes (v : list Eye) (w : World) : World :=
  mkWorld (bgRedVal w) (charOffset w) (digitChars w) v (ripples w) (rng w).

Definition set_ripples (v : list Ripple) (w : World) : World :=
  mkWorld (bgRedVal w) (charOffset w) (digitChars w) (eyes w) v (rng w).

Definition set_rng (v : Rng) (w : World) : World :=
  mkWorld (bgRedVal w) (charOffset w) (digitChars w) (eyes w) (ripples w) v.

(** [a[i] = v] on an array held as a list. *)
Fixpoint store {A : Type} (i : nat) (v : A) (l : list A) : list A :=
  match l, i with
  | [], _ => []
  | _ :: t, O => v :: t
  | h :: t, S k => h :: store k v t
  end.

(* ------------------------------------------------------------------ *)
(** ** The state monad of the sketch *)
(* ------------------------------------------------------------------ *)

Definition M (A : Type) : Type := World -> A * World.

Definition ret {A : Type} (a : A) : M A := fun w => (a, w).

Definition bind {A B : Type} (m : M A) (k : A -> M B) : M B :=
  fun w => let (a, w') := m w in k a w'.

Declare Scope m_scope.
Delimit Scope m_scope with M.
Notation "v <- m ;; k" := (bind m (fun v => k))
  (at level 61, m at next level, right associativity) : m_scope.
Notation "m ;;; k" := (bind m (fun _ => k))
  (at level 61, right associativity) : m_scope.
Local Open Scope m_scope.

Definition modify (f : World -> World) : M unit := fun w => (tt, f w).
Definition gets {A : Type} (f : World -> A) : M A := fun w => (f w, w).

(** [n] runs of a loop body, in order. *)
Fixpoint repeatM (n : nat) (body : M unit) : M unit :=
  match n with
  | O => ret tt
  | S k => body ;;; repeatM k body
  end.

(** [random(howsmall, howbig)] of the Arduino core: [howsmall] itself
    when the range is empty, otherwise [howsmall] plus the next raw
    number reduced modulo the width of the range, so the result lies
    in [howsmall, howbig). One raw number is used up per draw. *)
Definition random_range (howsmall howbig : Z) : M Z := fun w =>
  if howbig <=? howsmall then (howsmall, w)
  else (howsmall + rng w O mod (howbig - howsmall),
        set_rng (fun n => rng w (S n)) w).

(** [random(howbig)]. *)
Definition random (howbig : Z) : M Z := random_range 0 howbig.

(* ------------------------------------------------------------------ *)
(** ** Ripple system *)
(* ------------------------------------------------------------------ *)

(** The inner scan of [spawnRipples]: index of the first slot with
    [!ripples[i].active]. *)
Fixpoint firstFreeRipple (rs : list Ripple) : option nat :=
  match rs with
  | [] => None
  | r :: rest =>
      if active r then option_map S (firstFreeRipple rest) else Some O
  end.

(** One pass of the outer loop of [spawnRipples]: one spawn attempt. *)
Definition spawnRippleAttempt (eye : Eye) : M unit := fun w =>
  match firstFreeRipple (ripples w) with
  | Some i =>
      let (s, w1) := random_range 1 4 w in
      (tt, set_ripples
             (store i (mkRipple (x eye) (y eye) (halfHeight eye) s true)
                    (ripples w1)) w1)
  | None => (tt, w)
  end.

Definition spawnRipples (eye : Eye) : M unit :=
  count <- random_range 1 4 ;;
  repeatM (Z.to_nat count) (spawnRippleAttempt eye).

(** The body of the loop of [updateRipples] on one slot. *)
Definition updateRipple (maxDim : Z) (r : Ripple) : Ripple :=
  if active r then
    let r1 := set_radius (Int.add (radius r) (speed r)) r in
    if maxDim <? radius r1 then set_active false r1 else r1
  else r.

Definition updateRipples (d : Display) : M unit :=
  let maxDim := Z.max (width d) (height d) in
  modify (fun w => set_ripples (map (updateRipple maxDim) (ripples w)) w).

(* ------------------------------------------------------------------ *)
(** ** Eyes *)
(* ------------------------------------------------------------------ *)

Definition updateIris (eye : Eye) : M Eye :=
  if openAmount eye <=? 3 then ret eye
  else
    let eye := set_lookTimer (Int.sub (lookTimer eye) 1) eye in
    eye <- (if lookTimer eye <=? 0 then
              let maxH := Z.quot (openAmount eye) 3 in
              let maxV := Z.quot (halfHeight eye) 5 in
              tx <- random_range (Int.sub 0 maxH) (Int.add maxH 1) ;;
              ty <- random_range (Int.sub 0 maxV) (Int.add maxV 1) ;;
              lt <- random_range 30 120 ;;
              ret (set_lookTimer lt
                     (set_irisTargetY ty (set_irisTargetX tx eye)))
            else ret eye) ;;
    let eye :=
      if irisX eye <? irisTargetX eye
      then set_irisX (Int.add (irisX eye) 1) eye
      else if irisTargetX eye <? irisX eye
           then set_irisX (Int.sub (irisX eye) 1) eye
           else eye in
    let eye :=
      if irisY eye <? irisTargetY eye
      then set_irisY (Int.add (irisY eye) 1) eye
      else if irisTargetY eye <? irisY eye
           then set_irisY (Int.sub (irisY eye) 1) eye
           else eye in
    ret eye.

Definition updateEye (eye : Eye) : M Eye :=
  match state eye with
  | EYE_OPENING =>
      let eye :=
        set_openAmount (Int.add (openAmount eye) EYE_OPEN_SPEED) eye in
      eye <- (if maxOpen eye <=? openAmount eye then
                let eye := set_openAmount (maxOpen eye) eye in
                let eye := set_state EYE_OPEN eye in
                t <- random_range 60 180 ;;
                ret (set_timer t eye)
              else ret eye) ;;
      updateIris eye
  | EYE_OPEN =>
      let eye := set_timer (Int.sub (timer eye) 1) eye in
      eye <- (if timer eye <=? 0 then
                if 0 <? blinksLeft eye then
                  let eye := set_state EYE_BLINKING_CLOSE eye in
                  let eye :=
                    set_blinksLeft (Int.sub (blinksLeft eye) 1) eye in
                  spawnRipples eye ;;;
                  ret eye
                else ret (set_state EYE_CLOSING eye)
              else ret eye) ;;
      updateIris eye
  | EYE_BLINKING_CLOSE =>
      let eye :=
        set_openAmount (Int.sub (openAmount eye) EYE_OPEN_SPEED) eye in
      if openAmount eye <=? 0
      then ret (set_state EYE_BLINKING_OPEN (set_openAmount 0 eye))
      else ret eye
  | EYE_BLINKING_OPEN =>
      let eye :=
        set_openAmount (Int.add (openAmount eye) EYE_OPEN_SPEED) eye in
      eye <- (if maxOpen eye <=? openAmount eye then
                let eye := set_openAmount (maxOpen eye) eye in
                let eye := set_state EYE_OPEN eye in
                t <- random_range 60 180 ;;
                ret (set_timer t eye)
              else ret eye) ;;
      updateIris eye
  | EYE_CLOSING =>
      let eye :=
        set_openAmount (Int.sub (openAmount eye) EYE_OPEN_SPEED) eye in
      if openAmount eye <=? 0
      then ret (set_state EYE_INACTIVE (set_openAmount 0 eye))
      else ret eye
  | EYE_INACTIVE => ret eye
  end.

Definition is_active (e : Eye) : bool := negb (EyeState_eqb (state e) EYE_INACTIVE).

(** The outer scan of [spawnEye]: index of the first slot whose state
    is [EYE_INACTIVE]. *)
Fixpoint firstInactiveEye (es : list Eye) : option nat :=
  match es with
  | [] => None
  | e :: rest =>
      if is_active e then option_map S (firstInactiveEye rest) else Some O
  end.

(** The loop over [j] inside one sampling attempt, started at index
    [j]: [false] as soon as an active eye other than slot [i] is closer
    than [EYE_MIN_SPACING] to [newY]. *)
Fixpoint spacingValid (i j : nat) (newY : Z) (es : list Eye) : bool :=
  match es with
  | [] => true
  | e :: rest =>
      if negb (Nat.eqb j i) && is_active e
         && (Int.abs (Int.sub newY (y e)) <? EYE_MIN_SPACING)
      then false
      else spacingValid i (S j) newY rest
  end.

(** The rejection-sampling loop of [spawnEye] with [attempts] passes
    left; the result is the final [(newY, valid)]. *)
Fixpoint sampleY (attempts : nat) (d : Display) (i : nat)
         (newY : Z) (valid : bool) : M (Z * bool) :=
  match attempts with
  | O => ret (newY, valid)
  | S k =>
      newY <- random_range (Int.add EYE_HALF_HEIGHT 2)
                (Int.sub (Int.sub (height d) EYE_HALF_HEIGHT) 2) ;;
      es <- gets eyes ;;
      if spacingValid i O newY es then ret (newY, true)
      else sampleY k d i newY false
  end.

Definition spawnEye (d : Display) : M unit :=
  es <- gets eyes ;;
  match firstInactiveEye es with
  | None => ret tt
  | Some i =>
      r <- sampleY 20 d i 0 false ;;
      let (newY, valid) := r : Z * bool in
      if negb valid then ret tt
      else
        bl <- random_range 1 5 ;;
        lt <- random_range 20 60 ;;
        modify (fun w =>
          set_eyes
            (store i
               (mkEye (Z.quot (width d) 2) newY EYE_OPENING 0
                      (Int.sub (Z.quot (width d) 2) 2) EYE_HALF_HEIGHT
                      0 bl 0 0 0 0 lt)
               (eyes w)) w)
  end.

(* ------------------------------------------------------------------ *)
(** ** Scrolling digits and background *)
(* ------------------------------------------------------------------ *)

Definition charXPos : Z := 6.
Definition charScale : Z := 4.
Definition digitCharCount : nat := 12.

(** [matrix.color565(255, 255, 255)]. *)
Definition WHITE : Z := 65535.

Definition oneOrZero : M Z :=
  num <- random 2 ;;
  ret (48 + Int.to_uint8 num).

Definition initDigit (yOff : Z) (col : Z) : M DigitChar :=
  c <- oneOrZero ;;
  ret (mkDigitChar c (Int.to_uint16 col) (Int.to_int16 yOff)).

Fixpoint initDigits (idx : list nat) (off : Z) : M (list DigitChar) :=
  match idx with
  | [] => ret []
  | i :: rest =>
      dg <- initDigit (off * Z.of_nat i) WHITE ;;
      dgs <- initDigits rest off ;;
      ret (dg :: dgs)
  end.

Definition initDigital (d : Display) : M unit :=
  let charHeight := 8 * charScale in
  let n1 := Z.of_nat digitCharCount - 1 in
  let off :=
    Int.to_int8
      ((Z.quot (height d - charHeight * n1) n1 + charHeight) * -1) in
  modify (set_charOffset off) ;;;
  dgs <- initDigits (seq 0 digitCharCount) off ;;
  modify (set_digitChars dgs).

(** The loop over the digit column in [drawDigital]. *)
Fixpoint scrollDigits (d : Display) (off : Z) (dgs : list DigitChar)
  : M (list DigitChar) :=
  match dgs with
  | [] => ret []
  | dg :: rest =>
      let dg1 :=
        mkDigitChar (character dg) (color dg)
                    (Int.to_int16 (yOffset dg + 2)) in
      dg2 <- (if height d <? yOffset dg1 then initDigit off WHITE
              else ret dg1) ;;
      rest' <- scrollDigits d off rest ;;
      ret (dg2 :: rest')
  end.

Definition driftBackground : M unit :=
  r <- random 2 ;;
  bg <- gets bgRedVal ;;
  let addOrSub := negb (r =? 0) in
  let addOrSub := if 50 <? bg then false else addOrSub in
  let addOrSub := if bg <? 15 then true else addOrSub in
  if addOrSub
  then k <- random 2 ;; modify (set_bgRedVal (Int.to_uint8 (bg + k)))
  else k <- random 2 ;; modify (set_bgRedVal (Int.to_uint8 (bg - k))).

(* ------------------------------------------------------------------ *)
(** ** One frame *)
(* ------------------------------------------------------------------ *)

(** The loop over [eyes] in [drawDigital]: every active eye is updated
    (and drawn), and counted in [activeEyes]. *)
Fixpoint updateEyesLoop (es : list Eye) (activeEyes : Z)
  : M (list Eye * Z) :=
  match es with
  | [] => ret ([], activeEyes)
  | e :: rest =>
      if is_active e then
        e' <- updateEye e ;;
        r <- updateEyesLoop rest (Int.add activeEyes 1) ;;
        ret (e' :: fst r, snd r)
      else
        r <- updateEyesLoop rest activeEyes ;;
        ret (e :: fst r, snd r)
  end.

Definition updateEyes : M Z :=
  es <- gets eyes ;;
  r <- updateEyesLoop es 0 ;;
  modify (set_eyes (fst r)) ;;;
  ret (snd r).

(** [while (activeEyes < 2) { spawnEye(matrix); activeEyes++; }] with
    [fuel] passes allowed. *)
Fixpoint ensureTwoLoop (fuel : nat) (d : Display) (activeEyes : Z) : M Z :=
  match fuel with
  | O => ret activeEyes
  | S k =>
      if activeEyes <? 2 then
        spawnEye d ;;;
        ensureTwoLoop k d (Int.add activeEyes 1)
      else ret activeEyes
  end.

(** The loop makes [2 - activeEyes] passes when it runs at all. *)
Definition ensureTwo (d : Display) (activeEyes : Z) : M Z :=
  ensureTwoLoop (Z.to_nat (2 - activeEyes)) d activeEyes.

Definition maybeSpawn (d : Display) (activeEyes : Z) : M unit :=
  if activeEyes <? 5 then
    r <- random 90 ;;
    if r =? 0 then spawnEye d else ret tt
  else ret tt.

(** The population-replenishment step: the while-loop and the
    probabilistic spawn. *)
Definition replenish (d : Display) (activeEyes : Z) : M unit :=
  n <- ensureTwo d activeEyes ;;
  maybeSpawn d n.

(** The section of [drawDigital] that scrolls the digit column. *)
Definition scrollColumn (d : Display) : M unit :=
  off <- gets charOffset ;;
  dgs0 <- gets digitChars ;;
  dgs <- scrollDigits d off dgs0 ;;
  modify (set_digitChars dgs).

Definition drawDigital (d : Display) : M unit :=
  driftBackground ;;;
  scrollColumn d ;;;
  activeEyes <- updateEyes ;;
  replenish d activeEyes ;;;
  updateRipples d.

(** The globals as the C++ runtime zero-initialises them
    ([EYE_INACTIVE] is 0, [bgRedVal] starts at 15). *)
Definition zeroEye : Eye := mkEye 0 0 EYE_INACTIVE 0 0 0 0 0 0 0 0 0 0.
Definition zeroRipple : Ripple := mkRipple 0 0 0 0 false.
Definition zeroDigit : DigitChar := mkDigitChar 0 0 0.

Definition powerOn (r : Rng) : World :=
  mkWorld 15 0 (repeat zeroDigit digitCharCount)
          (repeat zeroEye MAX_EYES) (repeat zeroRipple MAX_RIPPLES) r.

(** The state [setup()] leaves behind. *)
Definition boot (d : Display) (r : Rng) : World :=
  snd (initDigital d (powerOn r)).

Definition frame (d : Display) (w : World) : World := snd (drawDigital d w).

Fixpoint frames (n : nat) (d : Display) (w : World) : World :=
  match n with
  | O => w
  | S k => frames k d (frame d w)
  end.

(** The worlds the sketch can be in between two frames of the digital
    scene. The analog scene draws from the same generator while it is
    on screen, so the generator may have moved between two frames. *)
Inductive reachable (d : Display) : World -> Prop :=
| reach_boot : forall r, reachable d (boot d r)
| reach_frame : forall w, reachable d w -> reachable d (frame d w)
| reach_rng : forall w r, reachable d w -> reachable d (set_rng r w).

Definition activeCount (es : list Eye) : Z :=
  Z.of_nat (length (filter is_active es)).

(** The installation: nine 64-pixel panels, rotated so that the chain
    runs vertically. *)
Definition installation : Display := mkDisplay 32 576.

(* ------------------------------------------------------------------ *)
(** ** Runs *)
(* ------------------------------------------------------------------ *)

(** [n] successive calls of [updateEye] on the same eye. *)
Fixpoint updateEyeN (n : nat) (e : Eye) : M Eye :=
  match n with
  | O => ret e
  | S k => e' <- updateEye e ;; updateEyeN k e'
  end.

(** [n] successive calls of [updateRipples]. *)
Fixpoint updateRipplesN (n : nat) (d : Display) (w : World) : World :=
  match n with
  | O => w
  | S k => snd (updateRipples d (updateRipplesN k d w))
  end.

(** The states an eye goes through: the one it starts in, then the one
    after each of [n] successive calls of [updateEye]. *)
Fixpoint stateTrace (n : nat) (e : Eye) (w : World) : list EyeState :=
  state e ::
  match n with
  | O => []
  | S k => stateTrace k (fst (updateEye e w)) (snd (updateEye e w))
  end.

(** A run of equal states counted once. *)
Fixpoint destutter (l : list EyeState) : list EyeState :=
  match l with
  | [] => []
  | a :: rest =>
      match destutter rest with
      | [] => [a]
      | b :: t => if EyeState_eqb a b then b :: t else a :: b :: t
      end
  end.

(** The life of an eye that blinks [k] times. *)
Fixpoint blinkCycles (k : nat) : list EyeState :=
  match k with
  | O => []
  | S j =>
      EYE_BLINKING_CLOSE :: EYE_BLINKING_OPEN :: EYE_OPEN :: blinkCycles j
  end.

Definition lifecycle (k : nat) : list EyeState :=
  EYE_OPENING :: EYE_OPEN :: blinkCycles k ++ [EYE_CLOSING; EYE_INACTIVE].

(** What is left of that life from state [s] on, with [k] whole blinks
    still to come after the current one. *)
Definition lifecycleFrom (s : EyeState) (k : nat) : list EyeState :=
  match s with
  | EYE_OPENING => lifecycle k
  | EYE_OPEN => EYE_OPEN :: blinkCycles k ++ [EYE_CLOSING; EYE_INACTIVE]
  | EYE_BLINKING_CLOSE =>
      EYE_BLINKING_CLOSE :: EYE_BLINKING_OPEN :: EYE_OPEN ::
      blinkCycles k ++ [EYE_CLOSING; EYE_INACTIVE]
  | EYE_BLINKING_OPEN =>
      EYE_BLINKING_OPEN :: EYE_OPEN ::
      blinkCycles k ++ [EYE_CLOSING; EYE_INACTIVE]
  | EYE_CLOSING => [EYE_CLOSING; EYE_INACTIVE]
  | EYE_INACTIVE => [EYE_INACTIVE]
  end.

(** The world at the start of the eye section of a frame, and right
    after its population-replenishment step. *)
Definition backdrop (d : Display) (w : World) : World :=
  snd ((driftBackground ;;; scrollColumn d) w).

Definition afterReplenish (d : Display) (w : World) : World :=
  let w0 := backdrop d w in
  snd (replenish d (fst (updateEyes w0)) (snd (updateEyes w0))).

(* ------------------------------------------------------------------ *)
(** ** What a piece of code leaves alone *)
(* ------------------------------------------------------------------ *)

(** The fields of an eye that [updateIris] never writes. *)
Definition same_body (e e' : Eye) : Prop :=
  x e' = x e /\ y e' = y e /\ state e' = state e /\
  openAmount e' = openAmount e /\ maxOpen e' = maxOpen e /\
  halfHeight e' = halfHeight e /\ timer e' = timer e /\
  blinksLeft e' = blinksLeft e.

(** The iris fields. *)
Definition same_iris (e e' : Eye) : Prop :=
  irisX e' = irisX e /\ irisY e' = irisY e /\
  irisTargetX e' = irisTargetX e /\ irisTargetY e' = irisTargetY e /\
  lookTimer e' = lookTimer e.

(** Everything of the world but the generator. *)
Definition same_scene (w w' : World) : Prop :=
  bgRedVal w' = bgRedVal w /\ charOffset w' = charOffset w /\
  digitChars w' = digitChars w /\ eyes w' = eyes w /\
  ripples w' = ripples w.

(** Everything but the generator and the ripples: what the ripple
    system leaves alone. *)
Definition same_eyes (w w' : World) : Prop :=
  bgRedVal w' = bgRedVal w /\ charOffset w' = charOffset w /\
  digitChars w' = digitChars w /\ eyes w' = eyes w.

(** Everything but the generator and the eyes: what [spawnEye] leaves
    alone. *)
Definition same_but_eyes (w w' : World) : Prop :=
  bgRedVal w' = bgRedVal w /\ charOffset w' = charOffset w /\
  digitChars w' = digitChars w /\ ripples w' = ripples w.

(** The fields no eye code ever writes. *)
Definition same_but_eyes_or_ripples (w w' : World) : Prop :=
  bgRedVal w' = bgRedVal w /\ charOffset w' = charOffset w /\
  digitChars w' = digitChars w.

(** The two pools: what the background and the digit column leave
    alone. *)
Definition same_pools (w w' : World) : Prop :=
  eyes w' = eyes w /\ ripples w' = ripples w.

(* ------------------------------------------------------------------ *)
(** ** Spawning *)
(* ------------------------------------------------------------------ *)

(** The eye as [updateEye] hands it to [spawnRipples] when a blink
    starts: timer decremented, state and blink count already written. *)
Definition blinking (e : Eye) : Eye :=
  set_blinksLeft (Int.sub (blinksLeft e) 1)
    (set_state EYE_BLINKING_CLOSE (set_timer (Int.sub (timer e) 1) e)).

(** The values [random(lo, hi)] can return. *)
Definition drawn (lo hi v : Z) : Prop :=
  (lo < hi /\ lo <= v < hi) \/ (hi <= lo /\ v = lo).

(** The record [spawnEye] writes into the slot it fills. *)
Definition spawned (d : Display) (newY bl lt : Z) : Eye :=
  mkEye (Z.quot (width d) 2) newY EYE_OPENING 0
        (Int.sub (Z.quot (width d) 2) 2) EYE_HALF_HEIGHT
        0 bl 0 0 0 0 lt.

(** The bounds of the vertical positions [spawnEye] samples. *)
Definition safeLow : Z := Int.add EYE_HALF_HEIGHT 2.
Definition safeHigh (d : Display) : Z :=
  Int.sub (Int.sub (height d) EYE_HALF_HEIGHT) 2.

(** The world after [k] draws of the sampling loop, and the candidate
    position the next pass will draw. *)
Fixpoint afterDraws (k : nat) (d : Display) (w : World) : World :=
  match k with
  | O => w
  | S j => afterDraws j d (snd (random_range safeLow (safeHigh d) w))
  end.

Definition candidate (d : Display) (w : World) (k : nat) : Z :=
  fst (random_range safeLow (safeHigh d) (afterDraws k d w)).

(** A candidate is rejected when some active eye is closer than
    [EYE_MIN_SPACING] to it. *)
Definition too_close (newY : Z) (es : list Eye) : Prop :=
  exists e, In e es /\ is_active e = true /\
            Int.abs (Int.sub newY (y e)) < EYE_MIN_SPACING.

Definition too_closeb (newY : Z) (es : list Eye) : bool :=
  existsb (fun e => is_active e &&
                    (Int.abs (Int.sub newY (y e)) <? EYE_MIN_SPACING)) es.




(* ------------------------------------------------------------------ *)
(** ** Invariants *)
(* ------------------------------------------------------------------ *)

(** One eye across the update loop of a frame: either left alone, or
    an active eye after one [updateEye]. *)
Definition eye_step (e e' : Eye) : Prop :=
  e' = e \/ (is_active e = true /\ exists w, e' = fst (updateEye e w)).

Definition open_within (e : Eye) : Prop :=
  is_active e = true -> 0 <= openAmount e <= maxOpen e.

(** [open_within], with the bound on [maxOpen] that a 16-bit display
    width gives. *)
Definition open_within_display (e : Eye) : Prop :=
  is_active e = true ->
  0 <= openAmount e <= maxOpen e /\ maxOpen e <= 16381.

Definition spaced (es : list Eye) : Prop :=
  forall (i j : nat) (a b : Eye),
    i <> j -> nth_error es i = Some a -> nth_error es j = Some b ->
    is_active a = true -> is_active b = true ->
    EYE_MIN_SPACING <= Z.abs (y a - y b).

(** Where an active eye can be on a display with 16-bit dimensions. *)
Definition placed (e : Eye) : Prop :=
  is_active e = true -> 27 <= y e <= 32740.

(** An active eye sits where [spawnEye] samples. *)
Definition in_safe_range (d : Display) (e : Eye) : Prop :=
  is_active e = true -> drawn safeLow (safeHigh d) (y e).

Definition standard_height (e : Eye) : Prop :=
  is_active e = true -> halfHeight e = EYE_HALF_HEIGHT.

(** The fields of an eye as the sketch keeps them: the width within
    its bounds, a blink count that is not negative, and a positive
    hold time while the eye is open. *)
Definition eye_sound (e : Eye) : Prop :=
  0 <= openAmount e <= maxOpen e /\ maxOpen e <= Int.max_int - 2 /\
  0 <= blinksLeft e <= Int.max_int /\
  (state e = EYE_OPEN -> 1 <= timer e <= 179).

(** An upper bound on the number of ticks an eye has left to live. *)
Definition lifeBudget (e : Eye) : Z :=
  let cycle := 2 * maxOpen e + 184 in
  let rest := blinksLeft e * cycle + maxOpen e + 2 in
  match state e with
  | EYE_INACTIVE => 0
  | EYE_OPENING | EYE_BLINKING_OPEN =>
      (maxOpen e - openAmount e + 1) + 181 + rest
  | EYE_OPEN => timer e + 1 + rest
  | EYE_BLINKING_CLOSE => (openAmount e + 1) + (maxOpen e + 1) + 181 + rest
  | EYE_CLOSING => openAmount e + 1
  end.

(** What holds of every ring the sketch has in flight: the speed it
    was given at spawn, and a radius from the eye's half height up to
    the edge of the screen. *)
Definition ripple_ok (d : Display) (r : Ripple) : Prop :=
  active r = true ->
  1 <= speed r <= 3 /\
  EYE_HALF_HEIGHT <= radius r <=
    Z.max EYE_HALF_HEIGHT (Z.max (width d) (height d)).

(** The ripple pool of [w'] is sound if that of [w] was. *)
Definition keeps (d : Display) (w w' : World) : Prop :=
  Forall (ripple_ok d) (ripples w) -> Forall (ripple_ok d) (ripples w').

(* ------------------------------------------------------------------ *)
(** ** Sample inputs *)
(* ------------------------------------------------------------------ *)

Definition demoDisplay64 : Display := mkDisplay 64 576.

Definition demoRng : Rng := fun n => Z.of_nat n * 7919 + 13.
Definition demoWorld : World := boot installation demoRng.

Definition demoFreshEye : Eye :=
  mkEye 16 300 EYE_OPENING 0 14 25 0 2 0 0 0 0 30.
Definition demoOpenEye (t bl : Z) : Eye :=
  mkEye 16 300 EYE_OPEN 14 14 25 t bl 0 0 0 0 30.

Definition demoRipple : Ripple := mkRipple 16 300 25 3 true.
Definition demoRippleWorld : World :=
  set_ripples (store 2 demoRipple (ripples demoWorld)) demoWorld.

(** A generator stuck on one number, and the world in which the first
    eye has just been placed with it. *)
Definition stuckRng : Rng := fun _ => 0.
Definition oneEyeWorld : World :=
  snd (spawnEye installation (boot installation stuckRng)).

(** A generator that places the first two eyes apart and gives them
    the same life span. *)
Definition twinRng : Rng := fun n => if Nat.eqb n 17 then 100 else 1.

(* ------------------------------------------------------------------ *)
(** ** Backdrop, gaze and rings *)
(* ------------------------------------------------------------------ *)

(** The offset [initDigital] computes, before it is stored in the
    [int8_t] global. *)
Definition columnOffset (d : Display) : Z :=
  (Z.quot (height d - 8 * charScale * (Z.of_nat digitCharCount - 1))
          (Z.of_nat digitCharCount - 1) + 8 * charScale) * -1.

(** What holds of every digit of the column. *)
Definition digit_ok (d : Display) (off : Z) (dg : DigitChar) : Prop :=
  (character dg = 48 \/ character dg = 49) /\ color dg = WHITE /\
  Z.of_nat (digitCharCount - 1) * off <= yOffset dg <= height d.

(** One step of the pursuit on one axis. *)
Definition pursue (pos target : Z) : Z :=
  if pos <? target then pos + 1
  else if target <? pos then pos - 1 else pos.

(** The iris of an active eye and its target stay in the middle third
    of the fully open eye, and the look timer in its range. *)
Definition gaze_within (e : Eye) : Prop :=
  is_active e = true ->
  Z.abs (irisX e) <= Z.quot (maxOpen e) 3 /\
  Z.abs (irisTargetX e) <= Z.quot (maxOpen e) 3 /\
  Z.abs (irisY e) <= 5 /\ Z.abs (irisTargetY e) <= 5 /\
  1 <= lookTimer e <= 119.

Definition steady_eye (e : Eye) : Prop :=
  open_within_display e /\ standard_height e /\ gaze_within e.

(** One slot of the eye pool across the update loop of a frame: an
    active eye takes exactly one [updateEye], an inactive slot is
    skipped. *)
Definition eye_tick (e e' : Eye) : Prop :=
  if is_active e then exists w, e' = fst (updateEye e w) else e' = e.

(** An active eye sits on the vertical centre line of the display and
    opens to two pixels short of the edges. *)
Definition centred (d : Display) (e : Eye) : Prop :=
  is_active e = true ->
  x e = Z.quot (width d) 2 /\ maxOpen e = Int.sub (Z.quot (width d) 2) 2.

(** The number of rings in flight. *)
Definition activeRings (rs : list Ripple) : Z :=
  Z.of_nat (length (filter active rs)).

(** The ring [spawnRipples] writes for an eye. *)
Definition fresh_ring (e : Eye) (r : Ripple) : Prop :=
  cx r = x e /\ cy r = y e /\ radius r = halfHeight e /\
  1 <= speed r <= 3 /\ active r = true.

(** A pool after some spawning: same size, and every ring in flight
    where it was. *)
Definition rings_kept (rs rs' : list Ripple) : Prop :=
  length rs' = length rs /\
  forall (j : nat) (r : Ripple),
    nth_error rs j = Some r -> active r = true -> nth_error rs' j = Some r.

(** [rings_kept], and every other ring is one spawned for [e]. *)
Definition rings_added (e : Eye) (rs rs' : list Ripple) : Prop :=
  rings_kept rs rs' /\
  forall (j : nat) (r' : Ripple),
    nth_error rs' j = Some r' ->
    nth_error rs j = Some r' \/ fresh_ring e r'.

(* ------------------------------------------------------------------ *)
(** ** Painting *)
(* ------------------------------------------------------------------ *)

(** The calls on the [matrix] that [drawAlmondEye] and [drawRipples]
    make, in the order they make them. The GFX methods take [int16_t]
    coordinates and a [uint16_t] colour, so the [int] arguments of the
    sketch are narrowed at the call. *)
Inductive DrawCmd : Type :=
| DrawFastVLine (x0 y0 h color : Z)
| DrawFastHLine (x0 y0 w color : Z)
| DrawLine (x0 y0 x1 y1 color : Z)
| DrawCircle (x0 y0 r color : Z)
| FillCircle (x0 y0 r color : Z).

Definition drawFastVLine (x0 y0 h color : Z) : DrawCmd :=
  DrawFastVLine (Int.to_int16 x0) (Int.to_int16 y0) (Int.to_int16 h)
                (Int.to_uint16 color).
Definition drawFastHLine (x0 y0 w color : Z) : DrawCmd :=
  DrawFastHLine (Int.to_int16 x0) (Int.to_int16 y0) (Int.to_int16 w)
                (Int.to_uint16 color).
Definition drawLine (x0 y0 x1 y1 color : Z) : DrawCmd :=
  DrawLine (Int.to_int16 x0) (Int.to_int16 y0) (Int.to_int16 x1)
           (Int.to_int16 y1) (Int.to_uint16 color).
Definition drawCircle (x0 y0 r color : Z) : DrawCmd :=
  DrawCircle (Int.to_int16 x0) (Int.to_int16 y0) (Int.to_int16 r)
             (Int.to_uint16 color).
Definition fillCircle (x0 y0 r color : Z) : DrawCmd :=
  FillCircle (Int.to_int16 x0) (Int.to_int16 y0) (Int.to_int16 r)
             (Int.to_uint16 color).

(** [matrix.color565(r, g, b)]: the 5, 6 and 5 top bits of the
    channels. *)
Definition color565 (r g b : Z) : Z :=
  Z.lor (Z.lor (Z.shiftl (Z.land r 248) 8) (Z.shiftl (Z.land g 252) 3))
        (Z.shiftr b 3).

Definition LASH_COUNT : Z := 5.
Definition LASH_LENGTH : Z := 5.

(** Multiplication in [int], and in [long], which has 32 bits on the
    ESP32-S3 the sketch is built for. *)
Definition int_mul (a b : Z) : Z := Int.wrap32 (a * b).

(** [(int)((long)open * (hh - abs(dy)) / hh)]. *)
Definition halfWidthAt (open hh dy : Z) : Z :=
  Int.wrap32 (Z.quot (int_mul open (Int.sub hh (Int.abs dy))) hh).

(** [for (int dy = -hh; dy <= hh; dy++)], the scanline fill, from row
    [dy] on with [fuel] passes allowed. *)
Fixpoint fillRows (fuel : nat) (cx cy hh open dy : Z) : list DrawCmd :=
  match fuel with
  | O => []
  | S k =>
      if dy <=? hh then
        let halfWidth := halfWidthAt open hh dy in
        (if 0 <? halfWidth
         then [drawFastHLine (Int.sub cx halfWidth) (Int.add cy dy)
                             (Int.add (int_mul halfWidth 2) 1) 0]
         else [])
        ++ fillRows k cx cy hh open (Int.add dy 1)
      else []
  end.

Definition lidColor : Z := color565 180 180 140.

Definition eyeSlit (eye : Eye) : list DrawCmd :=
  [drawFastVLine (x eye) (Int.sub (y eye) (halfHeight eye))
                 (Int.add (int_mul (halfHeight eye) 2) 1) lidColor].

(** The loop makes [2 * hh + 1] passes. *)
Definition eyeFill (eye : Eye) : list DrawCmd :=
  fillRows (Z.to_nat (2 * halfHeight eye + 1))
           (x eye) (y eye) (halfHeight eye) (openAmount eye)
           (Int.sub 0 (halfHeight eye)).

Definition eyeLids (eye : Eye) : list DrawCmd :=
  let cx := x eye in
  let cy := y eye in
  let hh := halfHeight eye in
  let open := openAmount eye in
  [drawLine cx (Int.sub cy hh) (Int.sub cx open) cy lidColor;
   drawLine (Int.sub cx open) cy cx (Int.add cy hh) lidColor;
   drawLine cx (Int.sub cy hh) (Int.add cx open) cy lidColor;
   drawLine (Int.add cx open) cy cx (Int.add cy hh) lidColor].

(** The body of the lash loop for one [i]. *)
Definition lashPair (eye : Eye) (i : Z) : list DrawCmd :=
  let cx := x eye in
  let cy := y eye in
  let hh := halfHeight eye in
  let open := openAmount eye in
  let dy := Int.add (Int.sub 0 (Int.sub hh 4))
              (Z.quot (int_mul i (int_mul 2 (Int.sub hh 4)))
                      (Int.sub LASH_COUNT 1)) in
  let halfWidth := halfWidthAt open hh dy in
  let fan := Z.quot (int_mul dy LASH_LENGTH) hh in
  [drawLine (Int.sub cx halfWidth) (Int.add cy dy)
            (Int.sub (Int.sub cx halfWidth) LASH_LENGTH)
            (Int.add (Int.add cy dy) fan) lidColor;
   drawLine (Int.add cx halfWidth) (Int.add cy dy)
            (Int.add (Int.add cx halfWidth) LASH_LENGTH)
            (Int.add (Int.add cy dy) fan) lidColor].

Definition eyeLashes (eye : Eye) : list DrawCmd :=
  flat_map (lashPair eye) (map Z.of_nat (seq 0 (Z.to_nat LASH_COUNT))).

Definition eyeIris (eye : Eye) : list DrawCmd :=
  let irisR := Z.quot (openAmount eye) 3 in
  let pupilR := Z.quot (openAmount eye) 6 in
  let ix := Int.add (x eye) (irisX eye) in
  let iy := Int.add (y eye) (irisY eye) in
  [fillCircle ix iy irisR (color565 180 60 60);
   fillCircle ix iy pupilR (color565 60 10 10)].

Definition drawAlmondEye (eye : Eye) : list DrawCmd :=
  if openAmount eye <=? 0 then eyeSlit eye
  else
    eyeFill eye ++ eyeLids eye
    ++ (if 3 <? openAmount eye then eyeLashes eye else [])
    ++ (if 3 <? openAmount eye then eyeIris eye else []).

Definition drawRipple (r : Ripple) : list DrawCmd :=
  if active r then
    drawCircle (cx r) (cy r) (radius r) 0
    :: (if 0 <? radius r
        then [drawCircle (cx r) (cy r) (Int.sub (radius r) 1) 0]
        else [])
  else [].

Definition drawRipples (rs : list Ripple) : list DrawCmd :=
  flat_map drawRipple rs.

(** The half width of the diamond at row [dy], as a number. *)
Definition diamond (open hh dy : Z) : Z :=
  Z.quot (open * (hh - Z.abs dy)) hh.

(** Coordinates with which nothing [drawAlmondEye] computes wraps. *)
Definition eye_fits (e : Eye) : Prop :=
  0 < halfHeight e <= 1000 /\ 0 < openAmount e <= 16000 /\
  -16000 <= x e <= 16000 /\
  -32768 <= y e - halfHeight e /\ y e + halfHeight e <= 32767.

(** A call paints inside the display: the whole line, both end points
    of a slanted line, the bounding box of a circle. *)
Definition on_screen (d : Display) (c : DrawCmd) : Prop :=
  match c with
  | DrawFastVLine x0 y0 h _ =>
      0 <= x0 < width d /\ 0 <= y0 /\ 0 < h /\ y0 + h <= height d
  | DrawFastHLine x0 y0 w _ =>
      0 <= x0 /\ 0 < w /\ x0 + w <= width d /\ 0 <= y0 < height d
  | DrawLine x0 y0 x1 y1 _ =>
      0 <= x0 < width d /\ 0 <= y0 < height d /\
      0 <= x1 < width d /\ 0 <= y1 < height d
  | DrawCircle x0 y0 r _ | FillCircle x0 y0 r _ =>
      0 <= r /\ 0 <= x0 - r /\ x0 + r < width d /\
      0 <= y0 - r /\ y0 + r < height d
  end.

(** A ring in flight is centred where an eye was when it blinked: on
    the centre column of the display, in the range [spawnEye] samples. *)
Definition ring_centred (d : Display) (r : Ripple) : Prop :=
  active r = true ->
  cx r = Z.quot (width d) 2 /\ drawn safeLow (safeHigh d) (cy r).

(** The two circles [drawRipples] paints for a ring in flight. *)
Definition doubleRing (r : Ripple) : list DrawCmd :=
  if active r
  then [DrawCircle (cx r) (cy r) (radius r) 0;
        DrawCircle (cx r) (cy r) (radius r - 1) 0]
  else [].

(* ------------------------------------------------------------------ *)
(** ** The analog scene: the pool of waves *)
(* ------------------------------------------------------------------ *)

(** C++ leaves open in which order the arguments of a call are
    evaluated; compilers go through them from the left or from the
    right. [spawnWave] and [initWaveform] draw random numbers in
    argument position, so which raw number ends up in which field
    depends on it. *)
Inductive ArgOrder : Type := LeftToRight | RightToLeft.

Module Analog.

Inductive Waveforms : Type :=
| SIN_WAVE | TRI_WAVE | SAW_WAVE | SHARK_WAVE | SQR_WAVE | NOISE_WAVE.

Definition numWaveforms : Z := 6.
Definition numWaves : nat := 5.

Definition waveformArray : list Waveforms :=
  [SIN_WAVE; TRI_WAVE; SAW_WAVE; SHARK_WAVE; SQR_WAVE; NOISE_WAVE].

(** [struct Wave]. [radianOffset] is kept as the integer that
    [initWaveform] multiplies by PI; only the generator functions,
    which compute the pixel column of a row, read it. [curClearY] is
    never written nor read and is left out. *)
Record Wave : Type := mkWave {
  curY : Z;
  color : Z;
  length : Z;
  speed : Z;
  radianOffset : Z;
  waveform : Waveforms;
  active : bool
}.

Definition set_curY (v : Z) (w : Wave) : Wave :=
  mkWave v (color w) (length w) (speed w) (radianOffset w) (waveform w)
         (active w).
Definition set_active (v : bool) (w : Wave) : Wave :=
  mkWave (curY w) (color w) (length w) (speed w) (radianOffset w)
         (waveform w) v.

(** The three channels of the random colour, in the order the
    compiler evaluates the arguments of [color565]. *)
Definition colorArgs (ord : ArgOrder) : M (Z * Z * Z) :=
  match ord with
  | LeftToRight =>
      r <- random 255 ;; g <- random 255 ;; b <- random 255 ;;
      ret (r, g, b)
  | RightToLeft =>
      b <- random 255 ;; g <- random 255 ;; r <- random 255 ;;
      ret (r, g, b)
  end.

Definition initWaveform (ord : ArgOrder)
           (radianOffset length speed : Z) (waveform : Waveforms) : M Wave :=
  c <- colorArgs ord ;;
  let '(r, g, b) := c in
  ret (mkWave 0 (color565 (Int.to_uint8 r) (Int.to_uint8 g) (Int.to_uint8 b))
              length speed radianOffset waveform true).

(** The state change of [drawWaveform]: the leading edge advances.
    The rest of the function paints. *)
Definition drawWaveform (wave : Wave) : Wave :=
  set_curY (Int.add (curY wave) (speed wave)) wave.

Fixpoint firstInactiveWave (ws : list Wave) : option nat :=
  match ws with
  | [] => None
  | w :: rest =>
      if active w then option_map S (firstInactiveWave rest) else Some O
  end.

(** The four random arguments of the call of [initWaveform] in
    [spawnWave]. *)
Definition spawnArgs (d : Display) (ord : ArgOrder) : M (Z * Z * Z * Z) :=
  match ord with
  | LeftToRight =>
      a <- random_range 2 40 ;;
      l <- random_range 40 (height d) ;;
      s <- random_range 1 6 ;;
      k <- random numWaveforms ;;
      ret (a, l, s, k)
  | RightToLeft =>
      k <- random numWaveforms ;;
      s <- random_range 1 6 ;;
      l <- random_range 40 (height d) ;;
      a <- random_range 2 40 ;;
      ret (a, l, s, k)
  end.

Definition spawnWave (d : Display) (ord : ArgOrder) (ws : list Wave)
  : M (list Wave) :=
  match firstInactiveWave ws with
  | None => ret ws
  | Some i =>
      args <- spawnArgs d ord ;;
      let '(a, l, s, k) := args in
      w <- initWaveform ord a l s (nth (Z.to_nat k) waveformArray SIN_WAVE) ;;
      ret (store i w ws)
  end.

(** The loop of [drawAnalog] over the pool: every active wave is
    drawn and advanced, retired when its trailing edge has passed the
    bottom of the display, and counted otherwise. *)
Fixpoint drawWaves (d : Display) (ws : list Wave) (activeCount : Z)
  : list Wave * Z :=
  match ws with
  | [] => ([], activeCount)
  | w :: rest =>
      if negb (active w) then
        let r := drawWaves d rest activeCount in (w :: fst r, snd r)
      else
        let w1 := drawWaveform w in
        let startingY := Int.sub (curY w1) (length w1) in
        if height d <? startingY then
          let r := drawWaves d rest activeCount in
          (set_active false w1 :: fst r, snd r)
        else
          let r := drawWaves d rest (Int.add activeCount 1) in
          (w1 :: fst r, snd r)
  end.

Definition drawAnalog (d : Display) (ord : ArgOrder) (ws : list Wave)
  : M (list Wave) :=
  let r := drawWaves d ws 0 in
  let activeCount := snd r in
  ws1 <- (if activeCount <? 1 then spawnWave d ord (fst r) else ret (fst r)) ;;
  if activeCount <? 4 then
    n <- random 120 ;;
    if n =? 0 then spawnWave d ord ws1 else ret ws1
  else ret ws1.

(** [n] successive frames of the analog scene. *)
Fixpoint analogFrames (n : nat) (d : Display) (ord : ArgOrder)
         (ws : list Wave) : M (list Wave) :=
  match n with
  | O => ret ws
  | S k => ws1 <- drawAnalog d ord ws ;; analogFrames k d ord ws1
  end.

(** What the loop of [drawAnalog] does to one slot. *)
Definition waveTick (d : Display) (w : Wave) : Wave :=
  if negb (active w) then w
  else
    let w1 := drawWaveform w in
    if height d <? Int.sub (curY w1) (length w1)
    then set_active false w1 else w1.

(** The pool as static initialisation leaves it. *)
Definition zeroWave : Wave := mkWave 0 0 0 0 0 SIN_WAVE false.
Definition emptyPool : list Wave := repeat zeroWave numWaves.

(** The number of waves on screen. *)
Definition activeWaves (ws : list Wave) : Z :=
  Z.of_nat (List.length (filter active ws)).

(** What holds of a wave on screen that [spawnWave] made. *)
Definition wave_ok (d : Display) (w : Wave) : Prop :=
  active w = true ->
  1 <= speed w <= 5 /\ 40 <= length w <= Z.max 40 (height d - 1) /\
  2 <= radianOffset w <= 39 /\
  0 <= curY w <= height d + length w.

End Analog.

(* ------------------------------------------------------------------ *)
(** ** The main loop *)
(* ------------------------------------------------------------------ *)

(** [unsigned long] has 32 bits on the ESP32-S3. *)
Definition to_uint32 (z : Z) : Z := z mod 4294967296.

(** What [elapsedMillis] and [elapsedMicros] do: the object keeps the
    clock reading at which it stood at 0; reading it subtracts that
    from the clock, assigning [val] to it stores the clock minus
    [val]. *)
Definition elapsed (now stamp : Z) : Z := to_uint32 (now - stamp).
Definition restart (now val : Z) : Z := to_uint32 (now - val).

Definition maxFPS : Z := 60.
Definition microsPerFrame : Z := Z.quot 1000000 maxFPS.
Definition switchInterval : Z := 30000.

(** The state of the sketch between two calls of [loop()]: the two
    scenes, which share the generator of [World], the mode, the two
    timers, and the readings [millis()] and [micros()] will give from
    now on, one per call. *)
Record Sketch : Type := mkSketch {
  digital : World;
  waves : list Analog.Wave;
  analogMode : bool;
  timeSinceFrame : Z;
  timeSinceSwitch : Z;
  millisClock : nat -> Z;
  microsClock : nat -> Z
}.

Definition loop (d : Display) (ord : ArgOrder) (s : Sketch) : Sketch :=
  (* if (timeSinceSwitch >= switchInterval) *)
  let ms0 := millisClock s 0%nat in
  let mc1 := fun n => millisClock s (S n) in
  let '(mode, sinceSwitch, mc) :=
    if switchInterval <=? elapsed ms0 (timeSinceSwitch s)
    then (negb (analogMode s), restart (mc1 0%nat) 0, fun n => mc1 (S n))
    else (analogMode s, timeSinceSwitch s, mc1) in
  (* if (timeSinceFrame < microsPerFrame) return; *)
  let us0 := microsClock s 0%nat in
  let uc1 := fun n => microsClock s (S n) in
  if elapsed us0 (timeSinceFrame s) <? microsPerFrame
  then mkSketch (digital s) (waves s) mode (timeSinceFrame s) sinceSwitch
                mc uc1
  else
    let sinceFrame := restart (uc1 0%nat) 0 in
    let uc := fun n => uc1 (S n) in
    if mode then
      let r := Analog.drawAnalog d ord (waves s) (digital s) in
      mkSketch (snd r) (fst r) mode sinceFrame sinceSwitch mc uc
    else
      mkSketch (snd (drawDigital d (digital s))) (waves s) mode
               sinceFrame sinceSwitch mc uc.

(** [n] successive calls of [loop()]. *)
Fixpoint loops (n : nat) (d : Display) (ord : ArgOrder) (s : Sketch)
  : Sketch :=
  match n with
  | O => s
  | S k => loops k d ord (loop d ord s)
  end.

(** A sketch as [setup()] could leave it on the installation: the
    digital scene booted, an empty pool of waves, both clocks at 0, 0.7 s
    and 17 ms apart from one reading to the next. *)
Definition demoSketch : Sketch :=
  mkSketch demoWorld Analog.emptyPool true 0 0
           (fun n => Z.of_nat n * 700) (fun n => Z.of_nat n * 17000).

(** What the sketch relies on between two calls of [loop()]: the
    digital scene in a state its own frames lead to, and a pool of
    five sound waves with at most four on screen. *)
Definition sketch_ok (d : Display) (s : Sketch) : Prop :=
  reachable d (digital s) /\
  length (waves s) = Analog.numWaves /\
  Forall (Analog.wave_ok d) (waves s) /\
  Analog.activeWaves (waves s) <= 4.

(* ------------------------------------------------------------------ *)
(** ** The sensor firmware *)
(* ------------------------------------------------------------------ *)

(** The Teensy sketch is a program of its own: it polls five digital
    inputs and answers a rising edge with a MIDI note of fixed
    length. What it does to the outside is a sequence of calls. *)
Inductive Event : Type :=
| SerialPlaying (channel : Z)
    (* Serial.print("Playing note on "); Serial.println(_midiChannel) *)
| DigitalWrite (pin val : Z)
| SendNoteOn (note velocity channel : Z)
| SendNoteOff (note velocity channel : Z)
| SendControlChange (control value channel : Z).

(** The outside: the readings [millis()] will give, one per call, the
    levels [digitalRead] will find on each pin, one per call, and the
    calls made so far. *)
Record Env : Type := mkEnv {
  millisT : nat -> Z;
  pinLevel : Z -> nat -> Z;
  emitted : list Event
}.

Definition HIGH : Z := 1.
Definition LOW : Z := 0.

Definition millis (env : Env) : Z * Env :=
  (millisT env O,
   mkEnv (fun n => millisT env (S n)) (pinLevel env) (emitted env)).

(** [digitalRead(uint8_t pin)]. *)
Definition digitalRead (pin : Z) (env : Env) : Z * Env :=
  let pin := Int.to_uint8 pin in
  (pinLevel env pin O,
   mkEnv (millisT env)
         (fun p n => if p =? pin then pinLevel env p (S n)
                     else pinLevel env p n)
         (emitted env)).

Definition emit (evs : list Event) (env : Env) : Env :=
  mkEnv (millisT env) (pinLevel env) (emitted env ++ evs).

(** The calls with their [uint8_t] parameters. *)
Definition digitalWrite (pin val : Z) : Event :=
  DigitalWrite (Int.to_uint8 pin) (Int.to_uint8 val).
Definition sendNoteOn (note velocity channel : Z) : Event :=
  SendNoteOn (Int.to_uint8 note) (Int.to_uint8 velocity)
             (Int.to_uint8 channel).
Definition sendNoteOff (note velocity channel : Z) : Event :=
  SendNoteOff (Int.to_uint8 note) (Int.to_uint8 velocity)
              (Int.to_uint8 channel).
Definition sendControlChange (control value channel : Z) : Event :=
  SendControlChange (Int.to_uint8 control) (Int.to_uint8 value)
                    (Int.to_uint8 channel).

(** [class Sensor]. [_noteTimer] holds the clock reading at which the
    timer stood at 0. The three debounce members are never used and
    are left out. *)
Record Sensor : Type := mkSensor {
  _inPin : Z;
  _outPin : Z;
  _midiNote : Z;
  _midiVelocity : Z;
  _midiChannel : Z;
  _midiCCOn : Z;
  _midiCCOff : Z;
  _midiCCChannel : Z;
  _state : Z;
  _noteDuration : Z;
  _noteOn : bool;
  _noteTimer : Z
}.

Definition set_state_noteOn_timer (st : Z) (on : bool) (t : Z) (s : Sensor)
  : Sensor :=
  mkSensor (_inPin s) (_outPin s) (_midiNote s) (_midiVelocity s)
           (_midiChannel s) (_midiCCOn s) (_midiCCOff s) (_midiCCChannel s)
           st (_noteDuration s) on t.

(** Reading and restarting an [elapsedMillis], in [unsigned long]. *)
Definition sinceT (now stamp : Z) : Z := (now - stamp) mod 4294967296.

(** [Sensor::Sensor]. The two [elapsedMillis] members read the clock
    when they are constructed, and [_noteTimer = 0] reads it again. *)
Definition newSensor (inPin outPin midiChannel : Z) (env : Env)
  : Sensor * Env :=
  let (_, env) := millis env in
  let (_, env) := millis env in
  let midiCCOn := Int.wrap32 (midiChannel * 2) in
  let (now, env) := millis env in
  (mkSensor inPin outPin 60 100 midiChannel midiCCOn (Int.add midiCCOn 1)
            16 LOW 5000 false (sinceT now 0),
   env).

Definition playNote (s : Sensor) (env : Env) : Sensor * Env :=
  let env := emit [SerialPlaying (_midiChannel s)] env in
  if _noteOn s then (s, env)
  else
    let env :=
      emit [digitalWrite (_outPin s) HIGH;
            sendNoteOn (_midiNote s) (_midiVelocity s) (_midiChannel s);
            sendControlChange (_midiCCOn s) 1 (_midiCCChannel s)] env in
    let (now, env) := millis env in
    (set_state_noteOn_timer (_state s) true (sinceT now 0) s, env).

Definition _checkNote (s : Sensor) (env : Env) : Sensor * Env :=
  if negb (_noteOn s) then (s, env)
  else
    let (now, env) := millis env in
    if _noteDuration s <=? sinceT now (_noteTimer s) then
      let env :=
        emit [digitalWrite (_outPin s) LOW;
              sendNoteOff (_midiNote s) (_midiVelocity s) (_midiChannel s);
              sendControlChange (_midiCCOff s) 1 (_midiCCChannel s)] env in
      let (now', env) := millis env in
      (set_state_noteOn_timer (_state s) false (sinceT now' 0) s, env)
    else (s, env).

Definition check (s : Sensor) (env : Env) : Sensor * Env :=
  let (s, env) := _checkNote s env in
  if _noteOn s then (s, env)
  else
    let (curState, env) := digitalRead (_inPin s) env in
    if curState =? _state s then (s, env)
    else
      let (s, env) :=
        if curState =? HIGH then playNote s env else (s, env) in
      (set_state_noteOn_timer curState (_noteOn s) (_noteTimer s) s, env).

(** [n] polls of one sensor. *)
Fixpoint checks (n : nat) (s : Sensor) (env : Env) : Sensor * Env :=
  match n with
  | O => (s, env)
  | S k => let (s1, env1) := check s env in checks k s1 env1
  end.

(** What a note-on and a note-off emit. *)
Definition noteOnCalls (s : Sensor) : list Event :=
  [SerialPlaying (_midiChannel s);
   DigitalWrite (_outPin s) 1;
   SendNoteOn 60 100 (_midiChannel s);
   SendControlChange (2 * _midiChannel s) 1 16].
Definition noteOffCalls (s : Sensor) : list Event :=
  [DigitalWrite (_outPin s) 0;
   SendNoteOff 60 100 (_midiChannel s);
   SendControlChange (2 * _midiChannel s + 1) 1 16].

(** [k] notes' worth of calls in turn, beginning with the end of the
    note that is playing, if one is. *)
Fixpoint script (s : Sensor) (playing : bool) (k : nat) : list Event :=
  match k with
  | O => []
  | S j =>
      (if playing then noteOffCalls s else noteOnCalls s)
      ++ script s (negb playing) j
  end.

(** The fields the constructor sets and nothing changes, for a sensor
    on pins and a channel that fit the calls; a note that is playing
    was started by a HIGH reading. *)
Definition sensor_ok (s : Sensor) : Prop :=
  0 <= _inPin s <= 255 /\ 0 <= _outPin s <= 255 /\
  0 <= _midiChannel s <= 127 /\
  _midiNote s = 60 /\ _midiVelocity s = 100 /\
  _midiCCOn s = 2 * _midiChannel s /\
  _midiCCOff s = 2 * _midiChannel s + 1 /\
  _midiCCChannel s = 16 /\ _noteDuration s = 5000 /\
  (_noteOn s = true -> _state s = HIGH).

(** The same sensor, but for the three fields [check] writes. *)
Definition same_wiring (s s' : Sensor) : Prop :=
  _inPin s' = _inPin s /\ _outPin s' = _outPin s /\
  _midiNote s' = _midiNote s /\ _midiVelocity s' = _midiVelocity s /\
  _midiChannel s' = _midiChannel s /\ _midiCCOn s' = _midiCCOn s /\
  _midiCCOff s' = _midiCCOff s /\ _midiCCChannel s' = _midiCCChannel s /\
  _noteDuration s' = _noteDuration s.

(** The outside after [k] readings of the clock. *)
Definition afterMillis (k : nat) (env : Env) : Env :=
  Nat.iter k (fun e => snd (millis e)) env.

(** The input of a sensor is held HIGH from now on. *)
Definition held_high (s : Sensor) (env : Env) : Prop :=
  forall n : nat, pinLevel env (Int.to_uint8 (_inPin s)) n = HIGH.

(** The first sensor of the sketch, at power-on, with a clock that
    advances 400 ms per reading and an input that is HIGH on every
    third poll. *)
Definition demoEnv : Env :=
  mkEnv (fun n => Z.of_nat n * 400)
        (fun _ n => if (n mod 3 =? 0)%nat then 1 else 0) [].
Definition demoSensor : Sensor := fst (newSensor 0 6 1 demoEnv).
Definition demoEnv1 : Env := snd (newSensor 0 6 1 demoEnv).

(** The same with the input held HIGH. *)
Definition heldEnv : Env :=
  mkEnv (fun n => Z.of_nat n * 400) (fun _ _ => 1) [].

(** [checkSensors()]: one poll of every sensor, in order. *)
Fixpoint checkSensors (ss : list Sensor) (env : Env) : list Sensor * Env :=
  match ss with
  | [] => ([], env)
  | s :: rest =>
      let (s', env1) := check s env in
      let (rest', env2) := checkSensors rest env1 in
      (s' :: rest', env2)
  end.

(** [n] passes of the Teensy's [loop()], which is [checkSensors()]. *)
Fixpoint teensyLoops (n : nat) (ss : list Sensor) (env : Env)
  : list Sensor * Env :=
  match n with
  | O => (ss, env)
  | S k => let (ss1, env1) := checkSensors ss env in teensyLoops k ss1 env1
  end.

(** The five sensors of the sketch, constructed in the order of the
    array. *)
Definition sensors (env : Env) : list Sensor * Env :=
  let (s0, env) := newSensor 0 6 1 env in
  let (s1, env) := newSensor 1 7 2 env in
  let (s2, env) := newSensor 2 8 3 env in
  let (s3, env) := newSensor 3 9 4 env in
  let (s4, env) := newSensor 4 10 5 env in
  ([s0; s1; s2; s3; s4], env).

(** The calls that can be told to be a sensor's: by the channel, the
    output pin, or the number of the control change. *)
Definition belongs (s : Sensor) (ev : Event) : bool :=
  match ev with
  | SerialPlaying c => c =? _midiChannel s
  | DigitalWrite p _ => p =? _outPin s
  | SendNoteOn _ _ c => c =? _midiChannel s
  | SendNoteOff _ _ c => c =? _midiChannel s
  | SendControlChange cc _ _ =>
      (cc =? 2 * _midiChannel s) || (cc =? 2 * _midiChannel s + 1)
  end.

(** Two sensors on different channels and output pins. *)
Definition apart (a b : Sensor) : Prop :=
  _midiChannel a <> _midiChannel b /\ _outPin a <> _outPin b.

Definition wired_apart (ss : list Sensor) : Prop :=
  forall (i j : nat) (a b : Sensor),
    i <> j -> nth_error ss i = Some a -> nth_error ss j = Some b ->
    apart a b.

(** The number of calls an eye with [maxOpen = m] takes to close, and
    as many to open: [m / 2], rounded up. *)
Definition lidTicks (m : Z) : nat := Z.to_nat (Z.quot (m + 1) 2).

(* ------------------------------------------------------------------ *)
(** ** Basic facts *)
(* ------------------------------------------------------------------ *)

Ltac break_if :=
  match goal with
  | |- context [if ?c then _ else _] =>
      let E := fresh "E" in destruct c eqn:E
  end.

Ltac zbool :=
  repeat match goal with
    | H : (_ <=? _) = true |- _ => apply Z.leb_le in H
    | H : (_ <=? _) = false |- _ => apply Z.leb_gt in H
    | H : (_ <? _) = true |- _ => apply Z.ltb_lt in H
    | H : (_ <? _) = false |- _ => apply Z.ltb_ge in H
    | H : (_ =? _) = true |- _ => apply Z.eqb_eq in H
    | H : (_ =? _) = false |- _ => apply Z.eqb_neq in H
    end.

Ltac run_M := unfold bind, ret, gets, modify in *; simpl in *.

Lemma wrap32_id (z : Z) : Int.in_range z -> Int.wrap32 z = z.
Proof.
  unfold Int.in_range, Int.min_int, Int.max_int, Int.wrap32. intros H.
  rewrite Z.mod_small by lia. lia.
Qed.

Lemma wrap32_range (z : Z) : Int.in_range (Int.wrap32 z).
Proof.
  unfold Int.in_range, Int.min_int, Int.max_int, Int.wrap32.
  pose proof (Z.mod_pos_bound (z + 2147483648) 4294967296 ltac:(lia)). lia.
Qed.

Lemma wrap32_le (z : Z) : Int.min_int <= z -> Int.wrap32 z <= z.
Proof.
  unfold Int.min_int, Int.wrap32. intros H.
  pose proof (Z.mod_le (z + 2147483648) 4294967296 ltac:(lia) ltac:(lia)).
  lia.
Qed.

Lemma add_exact (a b : Z) : Int.in_range (a + b) -> Int.add a b = a + b.
Proof. apply wrap32_id. Qed.

Lemma sub_exact (a b : Z) : Int.in_range (a - b) -> Int.sub a b = a - b.
Proof. apply wrap32_id. Qed.

Lemma abs_exact (a : Z) : Int.in_range (Z.abs a) -> Int.abs a = Z.abs a.
Proof. apply wrap32_id. Qed.

Global Opaque Int.wrap32.

Lemma random_range_bounds (lo hi : Z) (w : World) :
  lo < hi -> lo <= fst (random_range lo hi w) < hi.
Proof.
  intros H. unfold random_range.
  destruct (hi <=? lo) eqn:E; [lia|]. simpl.
  pose proof (Z.mod_pos_bound (rng w O) (hi - lo) ltac:(lia)). lia.
Qed.

Lemma random_range_value (lo hi : Z) (w : World) :
  lo < hi -> fst (random_range lo hi w) = lo + rng w O mod (hi - lo).
Proof.
  intros H. unfold random_range. destruct (hi <=? lo) eqn:E; [lia|reflexivity].
Qed.

Lemma random_range_empty (lo hi : Z) (w : World) :
  hi <= lo -> random_range lo hi w = (lo, w).
Proof.
  intros H. unfold random_range. destruct (hi <=? lo) eqn:E; [reflexivity|lia].
Qed.

Lemma random_range_scene (lo hi : Z) (w : World) :
  same_scene w (snd (random_range lo hi w)).
Proof.
  unfold random_range, same_scene. break_if; simpl; repeat split; reflexivity.
Qed.

Lemma updateIris_body (e : Eye) (w : World) :
  same_body e (fst (updateIris e w)).
Proof.
  unfold updateIris, same_body, random_range. run_M.
  repeat (break_if; simpl); repeat split; reflexivity.
Qed.

Lemma updateIris_scene (e : Eye) (w : World) :
  same_scene w (snd (updateIris e w)).
Proof.
  unfold updateIris, same_scene, random_range. run_M.
  repeat (break_if; simpl); repeat split; reflexivity.
Qed.

Lemma updateIris_closed (e : Eye) (w : World) :
  openAmount e <= 3 -> updateIris e w = (e, w).
Proof.
  intros H. unfold updateIris. destruct (openAmount e <=? 3) eqn:E; [reflexivity|lia].
Qed.

Lemma sub_le (a b : Z) : Int.min_int <= a - b -> Int.sub a b <= a - b.
Proof. apply wrap32_le. Qed.

Global Opaque Int.add Int.sub Int.abs random_range.

(** The opening animation, shared by [EYE_OPENING] and
    [EYE_BLINKING_OPEN]: one call adds [EYE_OPEN_SPEED], and the eye
    becomes [EYE_OPEN] at [maxOpen] as soon as the sum reaches it. *)
Lemma updateEye_opening_step (e : Eye) (w : World) :
  state e = EYE_OPENING \/ state e = EYE_BLINKING_OPEN ->
  let e' := fst (updateEye e w) in
  x e' = x e /\ y e' = y e /\ maxOpen e' = maxOpen e /\
  halfHeight e' = halfHeight e /\ blinksLeft e' = blinksLeft e /\
  (if maxOpen e <=? Int.add (openAmount e) EYE_OPEN_SPEED
   then state e' = EYE_OPEN /\ openAmount e' = maxOpen e /\
        60 <= timer e' < 180
   else state e' = state e /\
        openAmount e' = Int.add (openAmount e) EYE_OPEN_SPEED /\
        timer e' = timer e).
Proof.
  intros H e'. subst e'. unfold updateEye.
  destruct H as [H | H]; rewrite H; run_M.
  all: destruct (maxOpen e <=? Int.add (openAmount e) EYE_OPEN_SPEED) eqn:E.
  all: match goal with
       | |- context [random_range 60 180 ?w0] =>
           pose proof (random_range_bounds 60 180 w0 ltac:(lia)) as Hr;
           destruct (random_range 60 180 w0) as [t w1]; simpl in Hr
       | _ => idtac
       end.
  all: match goal with
       | |- context [updateIris ?a ?b] =>
           pose proof (updateIris_body a b) as Hb;
           destruct (updateIris a b) as [e2 w2]
       end.
  all: unfold same_body in Hb; simpl in *.
  all: repeat split; try lia; try tauto; intuition congruence.
Qed.

(** The closing animation, shared by [EYE_BLINKING_CLOSE] and
    [EYE_CLOSING]: no draw from the generator, no call of [updateIris],
    nothing but [openAmount] and [state] written. *)
Lemma updateEye_closing_step (e : Eye) (w : World) (next : EyeState) :
  (state e = EYE_BLINKING_CLOSE /\ next = EYE_BLINKING_OPEN) \/
  (state e = EYE_CLOSING /\ next = EYE_INACTIVE) ->
  updateEye e w =
  (if Int.sub (openAmount e) EYE_OPEN_SPEED <=? 0
   then set_state next
          (set_openAmount 0
             (set_openAmount (Int.sub (openAmount e) EYE_OPEN_SPEED) e))
   else set_openAmount (Int.sub (openAmount e) EYE_OPEN_SPEED) e, w).
Proof.
  intros [[H ->] | [H ->]]; unfold updateEye; rewrite H; run_M;
    break_if; reflexivity.
Qed.

(** C10. In [EYE_BLINKING_CLOSE] and in [EYE_CLOSING], [updateEye]
    leaves [irisX], [irisY], [irisTargetX], [irisTargetY] and
    [lookTimer] as they were; and [updateIris] changes nothing at all,
    eye or generator, when [openAmount <= 3]. *)
Theorem iris_frozen_while_closing (e : Eye) (w : World) :
  (state e = EYE_BLINKING_CLOSE \/ state e = EYE_CLOSING ->
   same_iris e (fst (updateEye e w))) /\
  (openAmount e <= 3 -> updateIris e w = (e, w)).
Proof.
  split.
  - intros H.
    assert (Hs : exists next,
               (state e = EYE_BLINKING_CLOSE /\ next = EYE_BLINKING_OPEN) \/
               (state e = EYE_CLOSING /\ next = EYE_INACTIVE)).
    { destruct H; [exists EYE_BLINKING_OPEN | exists EYE_INACTIVE]; tauto. }
    destruct Hs as [next Hs].
    rewrite (updateEye_closing_step e w next Hs).
    unfold same_iris. simpl. break_if; simpl; repeat split; reflexivity.
  - apply updateIris_closed.
Qed.

Lemma iris_frozen_while_closing_witness :
  same_iris (mkEye 16 100 EYE_CLOSING 9 14 25 0 0 2 (-1) 3 4 17)
            (fst (updateEye (mkEye 16 100 EYE_CLOSING 9 14 25 0 0 2 (-1) 3 4 17)
                            (powerOn (fun _ => 5)))) /\
  updateIris (mkEye 16 100 EYE_OPENING 2 14 25 0 1 0 0 0 0 20)
             (powerOn (fun _ => 5)) =
  (mkEye 16 100 EYE_OPENING 2 14 25 0 1 0 0 0 0 20, powerOn (fun _ => 5)).
Proof.
  split.
  - apply (proj1 (iris_frozen_while_closing
                    (mkEye 16 100 EYE_CLOSING 9 14 25 0 0 2 (-1) 3 4 17)
                    (powerOn (fun _ => 5)))).
    right. reflexivity.
  - apply (proj2 (iris_frozen_while_closing
                    (mkEye 16 100 EYE_OPENING 2 14 25 0 1 0 0 0 0 20)
                    (powerOn (fun _ => 5)))).
    simpl. lia.
Defined.

Lemma updateEyeN_S (k : nat) (e : Eye) (w : World) :
  updateEyeN (S k) e w =
  updateEyeN k (fst (updateEye e w)) (snd (updateEye e w)).
Proof. simpl. unfold bind. destruct (updateEye e w); reflexivity. Qed.

Ltac int_lia :=
  unfold Int.in_range, Int.in_int16, Int.min_int, Int.max_int,
    EYE_OPEN_SPEED, EYE_HALF_HEIGHT, EYE_MIN_SPACING in *; lia.

(** While the lids are still short of [maxOpen], [k] calls widen the
    eye by [2 * k] and leave it in its opening state. *)
Lemma opening_run (k : nat) :
  forall (e : Eye) (w : World),
    state e = EYE_OPENING \/ state e = EYE_BLINKING_OPEN ->
    0 <= openAmount e ->
    maxOpen e <= Int.max_int ->
    openAmount e + 2 * Z.of_nat k < maxOpen e ->
    let e' := fst (updateEyeN k e w) in
    state e' = state e /\
    openAmount e' = openAmount e + 2 * Z.of_nat k /\
    maxOpen e' = maxOpen e /\ halfHeight e' = halfHeight e /\
    blinksLeft e' = blinksLeft e /\ x e' = x e /\ y e' = y e.
Proof.
  induction k as [|k IH]; intros e w Hs H0 Hm Hk e'; subst e'.
  - simpl. repeat split; lia.
  - rewrite updateEyeN_S.
    pose proof (updateEye_opening_step e w Hs) as St. cbv zeta in St.
    destruct St as (Hx & Hy & Hmax & Hhh & Hbl & St).
    assert (Ha : Int.add (openAmount e) EYE_OPEN_SPEED = openAmount e + 2).
    { unfold EYE_OPEN_SPEED. apply add_exact. int_lia. }
    rewrite Ha in St.
    destruct (maxOpen e <=? openAmount e + 2) eqn:E; zbool; [lia|].
    destruct St as (Hst & Hoa & _).
    specialize (IH (fst (updateEye e w)) (snd (updateEye e w))).
    cbv zeta in IH. rewrite Hst, Hoa, Hmax, Hhh, Hbl, Hx, Hy in IH.
    destruct IH as (I1 & I2 & I3 & I4 & I5 & I6 & I7); try lia; try assumption.
    repeat split; try assumption; lia.
Qed.

(** The call on which the sum reaches [maxOpen] clamps it there and
    opens the eye. *)
Lemma opening_done (k : nat) (e : Eye) (w : World) :
  state e = EYE_OPENING \/ state e = EYE_BLINKING_OPEN ->
  0 <= openAmount e ->
  maxOpen e <= Int.max_int - 2 ->
  openAmount e + 2 * Z.of_nat k < maxOpen e <=
    openAmount e + 2 * Z.of_nat (S k) ->
  let e' := fst (updateEyeN (S k) e w) in
  state e' = EYE_OPEN /\ openAmount e' = maxOpen e /\
  maxOpen e' = maxOpen e /\ 60 <= timer e' < 180.
Proof.
  intros Hs H0 Hm Hk e'; subst e'.
  replace (S k) with (k + 1)%nat by lia.
  assert (App : forall n m e0 w0,
             updateEyeN (n + m) e0 w0 =
             updateEyeN m (fst (updateEyeN n e0 w0)) (snd (updateEyeN n e0 w0))).
  { induction n as [|n IHn]; intros m e0 w0.
    - reflexivity.
    - change (S n + m)%nat with (S (n + m)).
      rewrite !updateEyeN_S. apply IHn. }
  rewrite App.
  pose proof (opening_run k e w Hs H0 ltac:(int_lia) ltac:(lia)) as R.
  cbv zeta in R. destruct R as (R1 & R2 & R3 & R4 & R5 & R6 & R7).
  set (e1 := fst (updateEyeN k e w)) in *.
  set (w1 := snd (updateEyeN k e w)) in *.
  rewrite updateEyeN_S.
  assert (Hs1 : state e1 = EYE_OPENING \/ state e1 = EYE_BLINKING_OPEN)
    by (rewrite R1; exact Hs).
  pose proof (updateEye_opening_step e1 w1 Hs1) as St. cbv zeta in St.
  destruct St as (_ & _ & Hmax & _ & _ & St).
  assert (Ha : Int.add (openAmount e1) EYE_OPEN_SPEED = openAmount e1 + 2).
  { unfold EYE_OPEN_SPEED. apply add_exact. int_lia. }
  rewrite Ha in St.
  destruct (maxOpen e1 <=? openAmount e1 + 2) eqn:E; zbool; [|lia].
  destruct St as (S1 & S2 & S3).
  cbn [updateEyeN ret fst snd].
  repeat split; try lia; congruence.
Qed.

(** C9. An eye freshly spawned with [maxOpen = 30] and
    [halfHeight = 25] (so [EYE_OPENING], [openAmount = 0]) is
    [EYE_OPEN] with [openAmount = 30] after exactly 15 calls of
    [updateEye]; after [k < 15] calls it is still [EYE_OPENING] with
    [openAmount = 2 * k < 30]. *)
Theorem opening_takes_fifteen_ticks (e : Eye) (w : World) :
  state e = EYE_OPENING -> openAmount e = 0 ->
  maxOpen e = 30 -> halfHeight e = 25 ->
  (forall k : nat, (k < 15)%nat ->
     state (fst (updateEyeN k e w)) = EYE_OPENING /\
     openAmount (fst (updateEyeN k e w)) = 2 * Z.of_nat k /\
     openAmount (fst (updateEyeN k e w)) < 30) /\
  state (fst (updateEyeN 15 e w)) = EYE_OPEN /\
  openAmount (fst (updateEyeN 15 e w)) = 30.
Proof.
  intros Hs Ho Hm Hh. split.
  - intros k Hk.
    pose proof (opening_run k e w (or_introl Hs) ltac:(lia) ltac:(int_lia)
                  ltac:(lia)) as R.
    cbv zeta in R. destruct R as (R1 & R2 & _). rewrite R1, R2, Ho.
    repeat split; try assumption; lia.
  - pose proof (opening_done 14 e w (or_introl Hs) ltac:(lia)
                  ltac:(int_lia) ltac:(lia)) as D.
    cbv zeta in D. destruct D as (D1 & D2 & _). split; [exact D1 | lia].
Qed.

Lemma opening_takes_fifteen_ticks_witness :
  (forall k : nat, (k < 15)%nat ->
     state (fst (updateEyeN k (mkEye 32 100 EYE_OPENING 0 30 25 0 3 0 0 0 0 40)
                            (powerOn (fun n => Z.of_nat n)))) = EYE_OPENING /\
     openAmount (fst (updateEyeN k (mkEye 32 100 EYE_OPENING 0 30 25 0 3 0 0 0 0 40)
                            (powerOn (fun n => Z.of_nat n)))) = 2 * Z.of_nat k /\
     openAmount (fst (updateEyeN k (mkEye 32 100 EYE_OPENING 0 30 25 0 3 0 0 0 0 40)
                            (powerOn (fun n => Z.of_nat n)))) < 30) /\
  state (fst (updateEyeN 15 (mkEye 32 100 EYE_OPENING 0 30 25 0 3 0 0 0 0 40)
                         (powerOn (fun n => Z.of_nat n)))) = EYE_OPEN /\
  openAmount (fst (updateEyeN 15 (mkEye 32 100 EYE_OPENING 0 30 25 0 3 0 0 0 0 40)
                              (powerOn (fun n => Z.of_nat n)))) = 30.
Proof.
  apply (opening_takes_fifteen_ticks
           (mkEye 32 100 EYE_OPENING 0 30 25 0 3 0 0 0 0 40)
           (powerOn (fun n => Z.of_nat n))); reflexivity.
Defined.

(** What one call does to an eye that is [EYE_OPEN]. *)
Lemma updateEye_open_step (e : Eye) (w : World) :
  state e = EYE_OPEN ->
  let e1 := set_timer (Int.sub (timer e) 1) e in
  updateEye e w =
  if timer e1 <=? 0 then
    if 0 <? blinksLeft e then
      let e2 :=
        set_blinksLeft (Int.sub (blinksLeft e) 1)
                       (set_state EYE_BLINKING_CLOSE e1) in
      (spawnRipples e2 ;;; updateIris e2) w
    else updateIris (set_state EYE_CLOSING e1) w
  else updateIris e1 w.
Proof.
  intros H e1. subst e1. unfold updateEye. rewrite H. run_M.
  repeat break_if; try reflexivity.
  destruct (spawnRipples _ w); reflexivity.
Qed.

Lemma repeatM_scene (n : nat) (body : M unit) (P : World -> World -> Prop) :
  (forall w, P w w) ->
  (forall w1 w2 w3, P w1 w2 -> P w2 w3 -> P w1 w3) ->
  (forall w, P w (snd (body w))) ->
  forall w, P w (snd (repeatM n body w)).
Proof.
  intros Hr Ht Hb. induction n as [|n IH]; intros w.
  - apply Hr.
  - simpl. unfold bind. specialize (Hb w). destruct (body w) as [u w1].
    eapply Ht; [exact Hb | apply IH].
Qed.

Lemma firstFreeRipple_Some (rs : list Ripple) (i : nat) :
  firstFreeRipple rs = Some i ->
  exists r, nth_error rs i = Some r /\ active r = false.
Proof.
  revert i. induction rs as [|r rs IH]; intros i H; simpl in H.
  - discriminate.
  - destruct (active r) eqn:A.
    + destruct (firstFreeRipple rs) as [k|]; simpl in H; [|discriminate].
      injection H as <-. simpl. apply IH. reflexivity.
    + injection H as <-. exists r. split; [reflexivity | exact A].
Qed.

Lemma firstFreeRipple_None (rs : list Ripple) :
  firstFreeRipple rs = None -> Forall (fun r => active r = true) rs.
Proof.
  induction rs as [|r rs IH]; intros H; simpl in H.
  - constructor.
  - destruct (active r) eqn:A; [|discriminate].
    destruct (firstFreeRipple rs); [discriminate|].
    constructor; [exact A | apply IH; reflexivity].
Qed.

(** One spawn attempt: the first free slot receives the new ring, and
    nothing happens at all when no slot is free. *)
Lemma spawnRippleAttempt_spec (e : Eye) (w : World) :
  match firstFreeRipple (ripples w) with
  | None =>
      Forall (fun r => active r = true) (ripples w) /\
      spawnRippleAttempt e w = (tt, w)
  | Some i =>
      (exists r, nth_error (ripples w) i = Some r /\ active r = false) /\
      exists s, 1 <= s <= 3 /\
        ripples (snd (spawnRippleAttempt e w)) =
        store i (mkRipple (x e) (y e) (halfHeight e) s true) (ripples w) /\
        same_eyes w (snd (spawnRippleAttempt e w))
  end.
Proof.
  unfold spawnRippleAttempt.
  destruct (firstFreeRipple (ripples w)) as [i|] eqn:F.
  - split; [apply firstFreeRipple_Some; exact F|].
    pose proof (random_range_bounds 1 4 w ltac:(lia)) as B.
    pose proof (random_range_scene 1 4 w) as Sc.
    destruct (random_range 1 4 w) as [s w1]. simpl in B, Sc.
    destruct Sc as (S1 & S2 & S3 & S4 & S5).
    exists s. split; [lia|]. simpl. rewrite S5.
    split; [reflexivity|]. unfold same_eyes. simpl. tauto.
  - split; [apply firstFreeRipple_None; exact F | reflexivity].
Qed.


(** Every move [updateEye] can make, state by state, with what it does
    to [blinksLeft]. *)
Lemma updateEye_transition (e : Eye) (w : World) :
  let e' := fst (updateEye e w) in
  match state e with
  | EYE_INACTIVE => updateEye e w = (e, w)
  | EYE_OPENING =>
      (state e' = EYE_OPENING \/ state e' = EYE_OPEN) /\
      blinksLeft e' = blinksLeft e
  | EYE_OPEN =>
      (state e' = EYE_OPEN /\ 0 < Int.sub (timer e) 1 /\
       blinksLeft e' = blinksLeft e) \/
      (state e' = EYE_BLINKING_CLOSE /\ Int.sub (timer e) 1 <= 0 /\
       0 < blinksLeft e /\ blinksLeft e' = Int.sub (blinksLeft e) 1) \/
      (state e' = EYE_CLOSING /\ Int.sub (timer e) 1 <= 0 /\
       blinksLeft e <= 0 /\ blinksLeft e' = blinksLeft e)
  | EYE_BLINKING_CLOSE =>
      (state e' = EYE_BLINKING_CLOSE \/ state e' = EYE_BLINKING_OPEN) /\
      blinksLeft e' = blinksLeft e
  | EYE_BLINKING_OPEN =>
      (state e' = EYE_BLINKING_OPEN \/ state e' = EYE_OPEN) /\
      blinksLeft e' = blinksLeft e
  | EYE_CLOSING =>
      (state e' = EYE_CLOSING \/ state e' = EYE_INACTIVE) /\
      blinksLeft e' = blinksLeft e
  end.
Proof.
  intros e'. subst e'. destruct (state e) eqn:Hs.
  - unfold updateEye. rewrite Hs. reflexivity.
  - pose proof (updateEye_opening_step e w (or_introl Hs)) as St.
    cbv zeta in St. destruct St as (_ & _ & _ & _ & Hb & St).
    destruct (maxOpen e <=? Int.add (openAmount e) EYE_OPEN_SPEED);
      intuition congruence.
  - pose proof (updateEye_open_step e w Hs) as St. cbv zeta in St.
    change (timer (set_timer (Int.sub (timer e) 1) e))
      with (Int.sub (timer e) 1) in St.
    rewrite St.
    destruct (Int.sub (timer e) 1 <=? 0) eqn:E1; zbool.
    + destruct (0 <? blinksLeft e) eqn:E2; zbool.
      * right; left. unfold bind.
        destruct (spawnRipples _ w) as [u w1].
        match goal with
        | |- context [updateIris ?a ?b] =>
            destruct (updateIris_body a b) as (_ & _ & B1 & _ & _ & _ & _ & B2)
        end.
        rewrite B1, B2. simpl. repeat split; assumption.
      * right; right.
        match goal with
        | |- context [updateIris ?a ?b] =>
            destruct (updateIris_body a b) as (_ & _ & B1 & _ & _ & _ & _ & B2)
        end.
        rewrite B1, B2. simpl. repeat split; assumption.
    + left.
      match goal with
      | |- context [updateIris ?a ?b] =>
          destruct (updateIris_body a b) as (_ & _ & B1 & _ & _ & _ & _ & B2)
      end.
      rewrite B1, B2. simpl. repeat split; try assumption; lia.
  - rewrite (updateEye_closing_step e w EYE_BLINKING_OPEN) by tauto.
    simpl. break_if; simpl; tauto.
  - pose proof (updateEye_opening_step e w (or_intror Hs)) as St.
    cbv zeta in St. destruct St as (_ & _ & _ & _ & Hb & St).
    destruct (maxOpen e <=? Int.add (openAmount e) EYE_OPEN_SPEED);
      intuition congruence.
  - rewrite (updateEye_closing_step e w EYE_INACTIVE) by tauto.
    simpl. break_if; simpl; tauto.
Qed.

(* ------------------------------------------------------------------ *)
(** ** Ripples *)
(* ------------------------------------------------------------------ *)

Lemma updateRipplesN_nth (n : nat) (d : Display) (w : World) (i : nat) :
  nth_error (ripples (updateRipplesN n d w)) i =
  option_map
    (fun r => Nat.iter n (updateRipple (Z.max (width d) (height d))) r)
    (nth_error (ripples w) i).
Proof.
  induction n as [|n IH].
  - simpl. destruct (nth_error (ripples w) i); reflexivity.
  - cbn [updateRipplesN]. unfold updateRipples, modify. cbn [snd ripples set_ripples].
    rewrite nth_error_map, IH.
    destruct (nth_error (ripples w) i); reflexivity.
Qed.

(** One call on an active ring: radius plus speed, and the ring is
    switched off exactly when the new radius is beyond [maxDim]. *)
Lemma updateRipple_active (maxDim : Z) (r : Ripple) :
  active r = true -> Int.in_range (radius r + speed r) ->
  let r' := updateRipple maxDim r in
  radius r' = radius r + speed r /\ speed r' = speed r /\
  cx r' = cx r /\ cy r' = cy r /\
  active r' = negb (maxDim <? radius r + speed r).
Proof.
  intros Ha Hr r'. subst r'. unfold updateRipple. rewrite Ha.
  cbn [radius set_radius]. rewrite (add_exact _ _ Hr).
  destruct (maxDim <? radius r + speed r); simpl; rewrite ?Ha; tauto.
Qed.

(** As long as every radius reached so far fits the screen, the ring
    is still active and has grown by its speed on every call. *)
Lemma ripple_run (maxDim : Z) (r : Ripple) (n : nat) :
  active r = true -> 1 <= speed r ->
  Int.min_int <= radius r ->
  radius r + Z.of_nat n * speed r <= Int.max_int ->
  (forall k : nat, (1 <= k <= n)%nat ->
     radius r + Z.of_nat k * speed r <= maxDim) ->
  let rn := Nat.iter n (updateRipple maxDim) r in
  active rn = true /\ radius rn = radius r + Z.of_nat n * speed r /\
  speed rn = speed r /\ cx rn = cx r /\ cy rn = cy r.
Proof.
  intros Ha Hs Hlo. induction n as [|n IH]; intros Hhi Hfit rn; subst rn.
  - simpl. repeat split; try assumption; lia.
  - change (Nat.iter (S n) (updateRipple maxDim) r)
      with (updateRipple maxDim (Nat.iter n (updateRipple maxDim) r)).
    destruct IH as (I1 & I2 & I3 & I4 & I5); [nia | intros k Hk; apply Hfit; lia |].
    set (rn := Nat.iter n (updateRipple maxDim) r) in *.
    assert (Hr : Int.in_range (radius rn + speed rn)).
    { rewrite I2, I3. unfold Int.in_range. split; [nia | nia]. }
    destruct (updateRipple_active maxDim rn I1 Hr) as (U1 & U2 & U3 & U4 & U5).
    specialize (Hfit (S n) ltac:(lia)).
    rewrite U1, U2, U3, U4, U5, I2, I3, I4, I5.
    repeat split; try reflexivity; nia.
Qed.


(* ------------------------------------------------------------------ *)
(** ** The life of one eye *)
(* ------------------------------------------------------------------ *)

Lemma EyeState_eqb_eq (a b : EyeState) : EyeState_eqb a b = true <-> a = b.
Proof. destruct a, b; simpl; split; intros H; try reflexivity; discriminate. Qed.

Lemma stateTrace_S (n : nat) (e : Eye) (w : World) :
  stateTrace (S n) e w =
  state e :: stateTrace n (fst (updateEye e w)) (snd (updateEye e w)).
Proof. reflexivity. Qed.

Lemma stateTrace_head (n : nat) (e : Eye) (w : World) :
  exists t, stateTrace n e w = state e :: t.
Proof. destruct n; eexists; reflexivity. Qed.

Lemma destutter_head (a : EyeState) (l : list EyeState) :
  exists t, destutter (a :: l) = a :: t.
Proof.
  revert a. induction l as [|b l IH]; intros a.
  - exists []. reflexivity.
  - destruct (IH b) as [t Ht].
    change (destutter (a :: b :: l))
      with (match destutter (b :: l) with
            | [] => [a]
            | c :: u => if EyeState_eqb a c then c :: u else a :: c :: u
            end).
    rewrite Ht. destruct (EyeState_eqb a b) eqn:E.
    + apply EyeState_eqb_eq in E. subst b. exists t. reflexivity.
    + eexists. reflexivity.
Qed.

Lemma destutter_cons (a b : EyeState) (l : list EyeState) :
  destutter (a :: b :: l) =
  if EyeState_eqb a b then destutter (b :: l) else a :: destutter (b :: l).
Proof.
  destruct (destutter_head b l) as [t Ht].
  change (destutter (a :: b :: l))
    with (match destutter (b :: l) with
          | [] => [a]
          | c :: u => if EyeState_eqb a c then c :: u else a :: c :: u
          end).
  rewrite Ht. reflexivity.
Qed.

(** The moves of [updateEye], as edges of the life cycle: a call
    either keeps the state or takes the next step of some life. *)
Lemma updateEye_edge (e : Eye) (w : World) (k' : nat) :
  state (fst (updateEye e w)) = state e \/
  exists k, lifecycleFrom (state e) k =
            state e :: lifecycleFrom (state (fst (updateEye e w))) k'.
Proof.
  pose proof (updateEye_transition e w) as T. cbv zeta in T.
  destruct (state e) eqn:Hs.
  - left. rewrite T. exact Hs.
  - destruct T as [[T | T] _]; [left; exact T | right]. rewrite T.
    exists k'. reflexivity.
  - destruct T as [(T & _) | [(T & _) | (T & _)]];
      [left; exact T | right | right]; rewrite T.
    + exists (S k'). reflexivity.
    + exists O. reflexivity.
  - destruct T as [[T | T] _]; [left; exact T | right]. rewrite T.
    exists k'. reflexivity.
  - destruct T as [[T | T] _]; [left; exact T | right]. rewrite T.
    exists k'. reflexivity.
  - destruct T as [[T | T] _]; [left; exact T | right]. rewrite T.
    exists k'. reflexivity.
Qed.

Lemma trace_follows_lifecycle (n : nat) :
  forall (e : Eye) (w : World),
  exists (k : nat) (rest : list EyeState),
    lifecycleFrom (state e) k = destutter (stateTrace n e w) ++ rest /\
    (last (stateTrace n e w) EYE_OPENING = EYE_INACTIVE -> rest = []).
Proof.
  induction n as [|n IH]; intros e w.
  - exists O. cbn [stateTrace destutter last].
    destruct (state e); eexists; (split; [reflexivity|]);
      intros H; try discriminate H; reflexivity.
  - rewrite stateTrace_S.
    set (e1 := fst (updateEye e w)). set (w1 := snd (updateEye e w)).
    destruct (IH e1 w1) as (k1 & rest & Hp & Hl).
    destruct (stateTrace_head n e1 w1) as [t Ht].
    assert (Hlast : last (state e :: stateTrace n e1 w1) EYE_OPENING =
                    last (stateTrace n e1 w1) EYE_OPENING).
    { rewrite Ht. reflexivity. }
    rewrite Hlast. rewrite Ht, destutter_cons, <- Ht.
    destruct (updateEye_edge e w k1) as [Same | [k Hk]]; fold e1 in Same || fold e1 in Hk.
    + assert (E : EyeState_eqb (state e) (state e1) = true)
        by (apply EyeState_eqb_eq; symmetry; exact Same).
      rewrite E. exists k1, rest. rewrite <- Same. split; assumption.
    + destruct (EyeState_eqb (state e) (state e1)) eqn:E.
      * apply EyeState_eqb_eq in E. exists k1, rest.
        rewrite E. split; assumption.
      * exists k, rest. rewrite Hk, Hp. split; [reflexivity | assumption].
Qed.


(* ------------------------------------------------------------------ *)
(** ** The eye pool *)
(* ------------------------------------------------------------------ *)

Lemma store_length {A : Type} (i : nat) (v : A) (l : list A) :
  length (store i v l) = length l.
Proof.
  revert i. induction l as [|h t IH]; intros [|i]; simpl; try reflexivity.
  rewrite IH. reflexivity.
Qed.

Lemma store_nth_eq {A : Type} (i : nat) (v : A) (l : list A) :
  (i < length l)%nat -> nth_error (store i v l) i = Some v.
Proof.
  revert i. induction l as [|h t IH]; intros [|i] H; simpl in *; try lia.
  - reflexivity.
  - apply IH. lia.
Qed.

Lemma store_nth_ne {A : Type} (i j : nat) (v : A) (l : list A) :
  i <> j -> nth_error (store i v l) j = nth_error l j.
Proof.
  revert i j. induction l as [|h t IH]; intros [|i] [|j] H; simpl;
    try reflexivity; try congruence.
  apply IH. congruence.
Qed.

Lemma firstInactiveEye_Some (es : list Eye) (i : nat) :
  firstInactiveEye es = Some i ->
  exists e, nth_error es i = Some e /\ is_active e = false.
Proof.
  revert i. induction es as [|e es IH]; intros i H; simpl in H.
  - discriminate.
  - destruct (is_active e) eqn:A.
    + destruct (firstInactiveEye es) as [k|]; simpl in H; [|discriminate].
      injection H as <-. simpl. apply IH. reflexivity.
    + injection H as <-. exists e. split; [reflexivity | exact A].
Qed.


(** The check of one candidate: it passes exactly when every active
    eye in another slot is at least [EYE_MIN_SPACING] away. *)
Lemma spacingValid_true (i j : nat) (newY : Z) (es : list Eye) :
  spacingValid i j newY es = true <->
  forall (k : nat) (e : Eye),
    nth_error es k = Some e -> (j + k)%nat <> i -> is_active e = true ->
    EYE_MIN_SPACING <= Int.abs (Int.sub newY (y e)).
Proof.
  revert j. induction es as [|e0 es IH]; intros j; simpl.
  - split; [|reflexivity]. intros _ [|k] e H; discriminate H.
  - destruct (negb (Nat.eqb j i) && is_active e0 &&
              (Int.abs (Int.sub newY (y e0)) <? EYE_MIN_SPACING)) eqn:Hc.
    + split; [discriminate|]. intros H. exfalso.
      apply andb_prop in Hc. destruct Hc as [Hc Hc3].
      apply andb_prop in Hc. destruct Hc as [Hc1 Hc2].
      apply negb_true_iff, Nat.eqb_neq in Hc1. zbool.
      specialize (H O e0 eq_refl ltac:(lia) Hc2). lia.
    + rewrite IH. split.
      * intros H [|k] e Hn Hne Ha.
        -- simpl in Hn. injection Hn as <-.
           assert (Hc1 : Nat.eqb j i = false) by (apply Nat.eqb_neq; lia).
           rewrite Hc1, Ha in Hc. simpl in Hc. zbool. lia.
        -- apply (H k e Hn); [lia | exact Ha].
      * intros H k e Hn Hne Ha. apply (H (S k) e Hn); [lia | exact Ha].
Qed.

Lemma random_range_drawn (lo hi : Z) (w : World) :
  drawn lo hi (fst (random_range lo hi w)).
Proof.
  unfold drawn. destruct (Z.lt_ge_cases lo hi) as [H | H].
  - left. split; [exact H | apply random_range_bounds; exact H].
  - right. split; [exact H|]. rewrite random_range_empty by exact H. reflexivity.
Qed.

(** The sampling loop leaves the scene alone, and a candidate it
    accepts is a draw from the safe range that passed the check. *)
Lemma sampleY_spec (n : nat) (d : Display) (i : nat) :
  forall (y0 : Z) (w : World),
    let r := sampleY n d i y0 false w in
    same_scene w (snd r) /\
    (snd (fst r) = true ->
     drawn safeLow (safeHigh d) (fst (fst r)) /\
     spacingValid i O (fst (fst r)) (eyes w) = true).
Proof.
  induction n as [|n IH]; intros y0 w r; subst r.
  - simpl. unfold same_scene. split; [tauto | discriminate].
  - cbn [sampleY]. unfold bind, gets, ret.
    fold safeLow. fold (safeHigh d).
    pose proof (random_range_drawn safeLow (safeHigh d) w) as Dr.
    pose proof (random_range_scene safeLow (safeHigh d) w) as Sc.
    destruct (random_range safeLow (safeHigh d) w) as [newY w1].
    cbn [fst snd] in Dr, Sc.
    assert (He : eyes w1 = eyes w) by (unfold same_scene in Sc; tauto).
    rewrite He.
    destruct (spacingValid i 0 newY (eyes w)) eqn:V.
    + cbn [fst snd]. split; [exact Sc | intros _; split; assumption].
    + specialize (IH newY w1). cbv zeta in IH. destruct IH as [I1 I2].
      split.
      * unfold same_scene in *. intuition congruence.
      * rewrite He in I2. exact I2.
Qed.

(** What a call of [spawnEye] can do: nothing to the eyes, or one
    inactive slot filled with a fresh eye whose position passed the
    spacing check. Nothing but the eyes and the generator changes. *)
Lemma spawnEye_cases (d : Display) (w : World) :
  let w' := snd (spawnEye d w) in
  same_but_eyes w w' /\
  (eyes w' = eyes w \/
   exists (i : nat) (newY bl lt : Z),
     firstInactiveEye (eyes w) = Some i /\
     drawn safeLow (safeHigh d) newY /\
     spacingValid i O newY (eyes w) = true /\
     1 <= bl < 5 /\ 20 <= lt < 60 /\
     eyes w' = store i (spawned d newY bl lt) (eyes w)).
Proof.
  intros w'. subst w'. unfold spawnEye, bind, gets.
  destruct (firstInactiveEye (eyes w)) as [i|] eqn:F.
  - pose proof (sampleY_spec 20 d i 0 w) as Sp. cbv zeta in Sp.
    destruct (sampleY 20 d i 0 false w) as [[newY valid] w1].
    cbn [fst snd] in Sp. destruct Sp as [Sc Sv].
    destruct valid; cbn [negb].
    + destruct (Sv eq_refl) as [Dr V].
      pose proof (random_range_bounds 1 5 w1 ltac:(lia)) as Bb.
      pose proof (random_range_scene 1 5 w1) as Sb.
      destruct (random_range 1 5 w1) as [bl w2]. cbn [fst snd] in Bb, Sb.
      pose proof (random_range_bounds 20 60 w2 ltac:(lia)) as Bl.
      pose proof (random_range_scene 20 60 w2) as Sl.
      destruct (random_range 20 60 w2) as [lt w3]. cbn [fst snd] in Bl, Sl.
      unfold modify. cbn [snd eyes set_eyes].
      unfold same_scene in *.
      split.
      * unfold same_but_eyes. simpl. intuition congruence.
      * right. exists i, newY, bl, lt.
        assert (He : eyes w3 = eyes w) by intuition congruence.
        rewrite He. unfold spawned. tauto.
    + unfold ret. cbn [snd]. unfold same_scene in Sc.
      split; [unfold same_but_eyes; tauto | left; tauto].
  - unfold ret. cbn [snd]. split; [unfold same_but_eyes; tauto | left; reflexivity].
Qed.

Lemma afterDraws_eyes (k : nat) (d : Display) :
  forall w, eyes (afterDraws k d w) = eyes w.
Proof.
  induction k as [|k IH]; intros w; [reflexivity|].
  cbn [afterDraws]. rewrite IH.
  pose proof (random_range_scene safeLow (safeHigh d) w) as Sc.
  unfold same_scene in Sc. tauto.
Qed.

(** When every pass draws a rejected candidate, the loop ends with
    [valid = false]. *)
Lemma sampleY_all_fail (n : nat) (d : Display) (i : nat) :
  forall (y0 : Z) (w : World),
    (forall k : nat, (k < n)%nat ->
       spacingValid i O (candidate d w k) (eyes w) = false) ->
    snd (fst (sampleY n d i y0 false w)) = false.
Proof.
  induction n as [|n IH]; intros y0 w Hf.
  - reflexivity.
  - cbn [sampleY]. unfold bind, gets, ret.
    fold safeLow. fold (safeHigh d).
    pose proof (Hf O ltac:(lia)) as H0. unfold candidate in H0.
    cbn [afterDraws] in H0.
    pose proof (random_range_scene safeLow (safeHigh d) w) as Sc.
    assert (Hshift : forall k, candidate d (snd (random_range safeLow (safeHigh d) w)) k
                               = candidate d w (S k)) by reflexivity.
    destruct (random_range safeLow (safeHigh d) w) as [newY w1].
    cbn [fst snd] in H0, Sc, Hshift.
    assert (He : eyes w1 = eyes w) by (unfold same_scene in Sc; tauto).
    rewrite He, H0.
    apply IH. intros k Hk. rewrite He, Hshift. apply Hf. lia.
Qed.

Lemma too_close_rejected (i : nat) (newY : Z) (es : list Eye) (e0 : Eye) :
  nth_error es i = Some e0 -> is_active e0 = false ->
  too_close newY es -> spacingValid i O newY es = false.
Proof.
  intros Hi Hin (e & Hin' & Ha & Hc).
  destruct (spacingValid i 0 newY es) eqn:V; [|reflexivity].
  exfalso. rewrite spacingValid_true in V.
  apply In_nth_error in Hin'. destruct Hin' as [k Hk].
  assert (k <> i) by (intros ->; congruence).
  specialize (V k e Hk ltac:(lia) Ha). lia.
Qed.

Lemma too_closeb_true (newY : Z) (es : list Eye) :
  too_closeb newY es = true -> too_close newY es.
Proof.
  unfold too_closeb, too_close. rewrite existsb_exists.
  intros (e & Hin & H). apply andb_prop in H. destruct H as [Ha Hc].
  zbool. exists e. tauto.
Qed.

Lemma all_too_close (n : nat) (d : Display) (w : World) :
  forallb (fun k => too_closeb (candidate d w k) (eyes w)) (seq 0 n) = true ->
  forall k : nat, (k < n)%nat -> too_close (candidate d w k) (eyes w).
Proof.
  rewrite forallb_forall. intros H k Hk.
  apply too_closeb_true, H, in_seq. lia.
Qed.

(** When all 20 candidates are rejected, [spawnEye] returns with the
    eye pool as it found it. *)
Lemma spawnEye_rejects_all (d : Display) (w : World) :
  (forall k : nat, (k < 20)%nat -> too_close (candidate d w k) (eyes w)) ->
  eyes (snd (spawnEye d w)) = eyes w.
Proof.
  intros Hfail. unfold spawnEye, bind, gets.
  destruct (firstInactiveEye (eyes w)) as [i|] eqn:F; [|reflexivity].
  destruct (firstInactiveEye_Some _ _ F) as (e0 & Hi & Hin).
  pose proof (sampleY_all_fail 20 d i 0 w) as Hv.
  pose proof (sampleY_spec 20 d i 0 w) as Sp. cbv zeta in Sp.
  destruct (sampleY 20 d i 0 false w) as [[newY valid] w1].
  cbn [fst snd] in Hv, Sp.
  rewrite Hv.
  - cbn [negb]. unfold ret. cbn [snd]. unfold same_scene in Sp. tauto.
  - intros k Hk. apply (too_close_rejected i _ _ e0 Hi Hin), Hfail, Hk.
Qed.

(** C8. Called with exactly one active eye, when each of the 20
    candidates it draws is closer than the minimum spacing to an
    active eye, [spawnEye] returns with the eye pool exactly as it
    was: no slot taken, no eye changed, still one active eye. *)
Theorem spawn_gives_up_after_twenty (d : Display) (w : World) :
  activeCount (eyes w) = 1 ->
  (forall k : nat, (k < 20)%nat -> too_close (candidate d w k) (eyes w)) ->
  eyes (snd (spawnEye d w)) = eyes w /\
  activeCount (eyes (snd (spawnEye d w))) = 1 /\
  same_but_eyes w (snd (spawnEye d w)).
Proof.
  intros Hone Hfail.
  pose proof (spawnEye_rejects_all d w Hfail) as He.
  split; [exact He|]. split; [rewrite He; exact Hone|].
  apply spawnEye_cases.
Qed.

Lemma spawn_gives_up_after_twenty_witness :
  eyes (snd (spawnEye installation oneEyeWorld)) = eyes oneEyeWorld /\
  activeCount (eyes (snd (spawnEye installation oneEyeWorld))) = 1 /\
  same_but_eyes oneEyeWorld (snd (spawnEye installation oneEyeWorld)).
Proof.
  apply (spawn_gives_up_after_twenty installation oneEyeWorld).
  - vm_compute. reflexivity.
  - apply all_too_close. vm_compute. reflexivity.
Defined.

(* ------------------------------------------------------------------ *)
(** ** What each stage of a frame leaves alone *)
(* ------------------------------------------------------------------ *)

Lemma same_eyes_refl (w : World) : same_eyes w w.
Proof. unfold same_eyes. tauto. Qed.

Lemma same_eyes_trans (w1 w2 w3 : World) :
  same_eyes w1 w2 -> same_eyes w2 w3 -> same_eyes w1 w3.
Proof. unfold same_eyes. intuition congruence. Qed.

Lemma same_scene_eyes (w w' : World) : same_scene w w' -> same_eyes w w'.
Proof. unfold same_scene, same_eyes. tauto. Qed.

Lemma spawnRippleAttempt_same_eyes (e : Eye) (w : World) :
  same_eyes w (snd (spawnRippleAttempt e w)).
Proof.
  pose proof (spawnRippleAttempt_spec e w) as Sp.
  destruct (firstFreeRipple (ripples w)).
  - destruct Sp as (_ & s & _ & _ & Sp). exact Sp.
  - destruct Sp as [_ ->]. apply same_eyes_refl.
Qed.

Lemma spawnRipples_same_eyes (e : Eye) (w : World) :
  same_eyes w (snd (spawnRipples e w)).
Proof.
  unfold spawnRipples, bind.
  pose proof (random_range_scene 1 4 w) as Sc.
  destruct (random_range 1 4 w) as [c w1]. cbn [snd] in Sc.
  eapply same_eyes_trans; [apply same_scene_eyes; exact Sc|].
  apply repeatM_scene.
  - apply same_eyes_refl.
  - apply same_eyes_trans.
  - apply spawnRippleAttempt_same_eyes.
Qed.

Ltac step_world :=
  match goal with
  | |- context [random_range ?a ?b ?w] =>
      let Sc := fresh "Sc" in
      pose proof (same_scene_eyes _ _ (random_range_scene a b w)) as Sc;
      destruct (random_range a b w); cbn [fst snd] in Sc
  | |- context [updateIris ?a ?w] =>
      let Sc := fresh "Sc" in
      pose proof (same_scene_eyes _ _ (updateIris_scene a w)) as Sc;
      destruct (updateIris a w); cbn [fst snd] in Sc
  | |- context [spawnRipples ?a ?w] =>
      let Sc := fresh "Sc" in
      pose proof (spawnRipples_same_eyes a w) as Sc;
      destruct (spawnRipples a w); cbn [fst snd] in Sc
  end.

Lemma updateEye_same_eyes (e : Eye) (w : World) :
  same_eyes w (snd (updateEye e w)).
Proof.
  unfold updateEye.
  destruct (state e); unfold bind, ret; repeat break_if;
    repeat step_world; cbn [snd];
    unfold same_eyes in *; intuition congruence.
Qed.

Lemma activeCount_cons (e : Eye) (es : list Eye) :
  activeCount (e :: es) =
  (if is_active e then 1 else 0) + activeCount es.
Proof.
  unfold activeCount. simpl. destruct (is_active e); simpl length; lia.
Qed.

Lemma activeCount_bounds (es : list Eye) :
  0 <= activeCount es <= Z.of_nat (length es).
Proof.
  unfold activeCount. pose proof (filter_length_le is_active es). lia.
Qed.

(** The update loop of a frame: every slot takes an [eye_step], the
    rest of the scene but the ripples is untouched, and the counter
    ends at the number of eyes that were active when the loop began. *)
Lemma updateEyesLoop_spec (es : list Eye) :
  forall (n : Z) (w : World),
    let r := updateEyesLoop es n w in
    Forall2 eye_step es (fst (fst r)) /\
    same_eyes w (snd r) /\
    (0 <= n -> n + Z.of_nat (length es) <= Int.max_int ->
     snd (fst r) = n + activeCount es).
Proof.
  induction es as [|e es IH]; intros n w r; subst r.
  - simpl. split; [constructor|]. split; [apply same_eyes_refl|].
    intros _ _. unfold activeCount. simpl. lia.
  - cbn [updateEyesLoop]. rewrite activeCount_cons.
    destruct (is_active e) eqn:A; unfold bind, ret.
    + pose proof (updateEye_same_eyes e w) as Sw.
      assert (St : eye_step e (fst (updateEye e w))).
      { right. split; [exact A|]. exists w. reflexivity. }
      destruct (updateEye e w) as [e' w1]. cbn [fst snd] in Sw, St.
      specialize (IH (Int.add n 1) w1). cbv zeta in IH.
      destruct (updateEyesLoop es (Int.add n 1) w1) as [[es' n'] w2].
      cbn [fst snd] in *. destruct IH as (I1 & I2 & I3).
      split; [constructor; assumption|].
      split; [eapply same_eyes_trans; eassumption|].
      intros Hn Hlen.
      assert (Ha : Int.add n 1 = n + 1).
      { apply add_exact. cbn [length] in Hlen. int_lia. }
      rewrite Ha in I3. cbn [length] in Hlen. rewrite I3; lia.
    + specialize (IH n w). cbv zeta in IH.
      destruct (updateEyesLoop es n w) as [[es' n'] w2].
      cbn [fst snd] in *. destruct IH as (I1 & I2 & I3).
      split; [constructor; [left; reflexivity | assumption]|].
      split; [assumption|].
      intros Hn Hlen. cbn [length] in Hlen. rewrite I3; lia.
Qed.

Lemma updateEyes_spec (w : World) :
  Forall2 eye_step (eyes w) (eyes (snd (updateEyes w))) /\
  same_but_eyes_or_ripples w (snd (updateEyes w)) /\
  (Z.of_nat (length (eyes w)) <= Int.max_int ->
   fst (updateEyes w) = activeCount (eyes w)).
Proof.
  unfold updateEyes, bind, gets, modify, ret.
  pose proof (updateEyesLoop_spec (eyes w) 0 w) as L. cbv zeta in L.
  destruct (updateEyesLoop (eyes w) 0 w) as [[es' n'] w1].
  cbn [fst snd eyes set_eyes] in *. destruct L as (L1 & L2 & L3).
  split; [exact L1|]. split.
  - unfold same_but_eyes_or_ripples, same_eyes in *. simpl. tauto.
  - intros Hlen. rewrite L3; lia.
Qed.

Lemma same_pools_refl (w : World) : same_pools w w.
Proof. unfold same_pools. tauto. Qed.

Lemma same_pools_trans (w1 w2 w3 : World) :
  same_pools w1 w2 -> same_pools w2 w3 -> same_pools w1 w3.
Proof. unfold same_pools. intuition congruence. Qed.

Lemma random_range_pools (lo hi : Z) (w : World) :
  same_pools w (snd (random_range lo hi w)).
Proof.
  pose proof (random_range_scene lo hi w) as Sc.
  unfold same_scene, same_pools in *. tauto.
Qed.

Lemma initDigit_pools (yOff col : Z) (w : World) :
  same_pools w (snd (initDigit yOff col w)).
Proof.
  unfold initDigit, oneOrZero, random, bind, ret.
  pose proof (random_range_pools 0 2 w) as Sc.
  destruct (random_range 0 2 w). exact Sc.
Qed.

Lemma initDigits_pools (idx : list nat) (off : Z) :
  forall w, same_pools w (snd (initDigits idx off w)).
Proof.
  induction idx as [|i idx IH]; intros w.
  - apply same_pools_refl.
  - cbn [initDigits]. unfold bind, ret.
    pose proof (initDigit_pools (off * Z.of_nat i) WHITE w) as S1.
    destruct (initDigit (off * Z.of_nat i) WHITE w) as [dg w1].
    specialize (IH w1). destruct (initDigits idx off w1) as [dgs w2].
    eapply same_pools_trans; eassumption.
Qed.

Lemma scrollDigits_pools (d : Display) (off : Z) (dgs : list DigitChar) :
  forall w, same_pools w (snd (scrollDigits d off dgs w)).
Proof.
  induction dgs as [|dg dgs IH]; intros w.
  - apply same_pools_refl.
  - cbn [scrollDigits]. unfold bind, ret. cbn [yOffset].
    destruct (height d <? Int.to_int16 (yOffset dg + 2)).
    + pose proof (initDigit_pools off WHITE w) as S1.
      destruct (initDigit off WHITE w) as [dg2 w1].
      specialize (IH w1). destruct (scrollDigits d off dgs w1) as [r w2].
      eapply same_pools_trans; eassumption.
    + specialize (IH w). destruct (scrollDigits d off dgs w) as [r w2].
      exact IH.
Qed.

Lemma backdrop_pools (d : Display) (w : World) : same_pools w (backdrop d w).
Proof.
  unfold backdrop, driftBackground, scrollColumn, random, bind, gets, modify.
  pose proof (random_range_pools 0 2 w) as S1.
  destruct (random_range 0 2 w) as [r w1]. cbn [snd] in S1.
  assert (S2 : forall k : Z -> Z,
             same_pools w1
               (snd (let (a, w') := random_range 0 2 w1 in
                     (tt, set_bgRedVal (Int.to_uint8 (k a)) w')))).
  { intros k. pose proof (random_range_pools 0 2 w1) as S.
    destruct (random_range 0 2 w1) as [a w2]. exact S. }
  assert (S3 : forall w2, same_pools w1 w2 ->
             same_pools w
               (snd (let (a, w') := scrollDigits d (charOffset w2) (digitChars w2) w2 in
                     (tt, set_digitChars a w')))).
  { intros w2 S. pose proof (scrollDigits_pools d (charOffset w2) (digitChars w2) w2) as S'.
    destruct (scrollDigits d (charOffset w2) (digitChars w2) w2) as [a w3].
    cbn [snd] in *. unfold same_pools in *. simpl. intuition congruence. }
  repeat break_if.
  all: match goal with
       | |- context [Int.to_uint8 (bgRedVal ?v + _)] =>
           specialize (S2 (fun a => bgRedVal v + a))
       | |- context [Int.to_uint8 (bgRedVal ?v - _)] =>
           specialize (S2 (fun a => bgRedVal v - a))
       end.
  all: cbv beta in S2.
  all: match goal with
       | S2 : same_pools _ (snd ?m) |- context [let (_, _) := ?m' in _] =>
           change m' with m; destruct m as [u w2]
       end.
  all: apply S3; exact S2.
Qed.

Lemma boot_eyes (d : Display) (r : Rng) :
  eyes (boot d r) = repeat zeroEye MAX_EYES.
Proof.
  unfold boot, initDigital, bind, modify. cbn [snd].
  match goal with
  | |- context [initDigits ?i ?o ?v] =>
      pose proof (initDigits_pools i o v) as Sc;
      destruct (initDigits i o v) as [dgs w1]
  end.
  cbn [snd eyes set_digitChars] in *. destruct Sc as [-> _]. reflexivity.
Qed.

Lemma frame_unfold (d : Display) (w : World) :
  frame d w =
  snd (updateRipples d
         (snd (replenish d (fst (updateEyes (backdrop d w)))
                         (snd (updateEyes (backdrop d w)))))).
Proof.
  unfold frame, backdrop, drawDigital, bind.
  destruct (driftBackground w) as [u1 w1].
  destruct (scrollColumn d w1) as [u2 w2]. cbn [snd].
  destruct (updateEyes w2) as [a w3]. cbn [fst snd].
  destruct (replenish d a w3) as [u3 w4]. reflexivity.
Qed.

Lemma updateRipples_eyes (d : Display) (w : World) :
  eyes (snd (updateRipples d w)) = eyes w.
Proof. reflexivity. Qed.

Section PoolInvariant.

Variable d : Display.
Variable P : list Eye -> Prop.

Hypothesis P_spawn :
  forall w, P (eyes w) -> P (eyes (snd (spawnEye d w))).

Lemma ensureTwoLoop_inv (fuel : nat) :
  forall (a : Z) (w : World),
    P (eyes w) -> P (eyes (snd (ensureTwoLoop fuel d a w))).
Proof.
  induction fuel as [|fuel IH]; intros a w H.
  - exact H.
  - cbn [ensureTwoLoop]. destruct (a <? 2); [|exact H].
    unfold bind. specialize (P_spawn w H).
    destruct (spawnEye d w) as [u w1]. apply IH. exact P_spawn.
Qed.

Lemma maybeSpawn_inv (a : Z) (w : World) :
  P (eyes w) -> P (eyes (snd (maybeSpawn d a w))).
Proof.
  intros H. unfold maybeSpawn, random, bind, ret.
  destruct (a <? 5); [|exact H].
  pose proof (random_range_pools 0 90 w) as Sc.
  destruct (random_range 0 90 w) as [r w1]. cbn [snd] in Sc.
  destruct Sc as [Se _]. rewrite <- Se in H.
  destruct (r =? 0); [apply P_spawn; exact H | exact H].
Qed.

Lemma replenish_inv (a : Z) (w : World) :
  P (eyes w) -> P (eyes (snd (replenish d a w))).
Proof.
  intros H. unfold replenish, ensureTwo, bind.
  pose proof (ensureTwoLoop_inv (Z.to_nat (2 - a)) a w H) as H1.
  destruct (ensureTwoLoop (Z.to_nat (2 - a)) d a w) as [n w1].
  apply maybeSpawn_inv. exact H1.
Qed.

Hypothesis P_boot : P (repeat zeroEye MAX_EYES).

Hypothesis P_update :
  forall es es', P es -> Forall2 eye_step es es' -> P es'.

(** A property of the eye pool that holds of the empty pool and
    survives the update loop and [spawnEye] holds between any two
    frames. *)
Lemma reachable_pool_inv (w : World) : reachable d w -> P (eyes w).
Proof.
  induction 1 as [r | w Hr IH | w r Hr IH].
  - rewrite boot_eyes. exact P_boot.
  - rewrite frame_unfold, updateRipples_eyes.
    apply replenish_inv.
    destruct (updateEyes_spec (backdrop d w)) as (St & _).
    destruct (backdrop_pools d w) as [Se _]. rewrite Se in St.
    exact (P_update _ _ IH St).
  - exact IH.
Qed.

End PoolInvariant.

(* ------------------------------------------------------------------ *)
(** ** Invariants of the eye pool *)
(* ------------------------------------------------------------------ *)

Ltac step_eye :=
  match goal with
  | |- context [updateIris ?a ?w] =>
      let B := fresh "B" in
      pose proof (updateIris_body a w) as B;
      destruct (updateIris a w); cbn [fst snd] in B
  | |- context [random_range ?a ?b ?w] => destruct (random_range a b w)
  | |- context [spawnRipples ?a ?w] => destruct (spawnRipples a w)
  end.

(** [updateEye] never moves an eye nor changes its size, and an eye
    that is [EYE_OPEN] keeps its width. *)
Lemma updateEye_geometry (e : Eye) (w : World) :
  x (fst (updateEye e w)) = x e /\ y (fst (updateEye e w)) = y e /\
  maxOpen (fst (updateEye e w)) = maxOpen e /\
  halfHeight (fst (updateEye e w)) = halfHeight e /\
  (state e = EYE_OPEN -> openAmount (fst (updateEye e w)) = openAmount e).
Proof.
  unfold updateEye.
  destruct (state e); unfold bind, ret; repeat break_if;
    repeat step_eye; cbn [fst];
    try unfold same_body in *; simpl in *;
    repeat split; try discriminate; intuition congruence.
Qed.

(** An eye that [updateEye] leaves active was active. *)
Lemma updateEye_stays_inactive (e : Eye) (w : World) :
  is_active e = false -> updateEye e w = (e, w).
Proof.
  unfold is_active. intros H. unfold updateEye.
  destruct (state e); try discriminate H. reflexivity.
Qed.

Lemma eye_step_active (e e' : Eye) :
  eye_step e e' -> is_active e' = true -> is_active e = true.
Proof.
  intros [-> | [H _]] H'; assumption.
Qed.

Lemma eye_step_position (e e' : Eye) : eye_step e e' -> y e' = y e.
Proof.
  intros [-> | [_ [w ->]]]; [reflexivity|].
  apply updateEye_geometry.
Qed.

(** One call keeps the width of an eye between 0 and [maxOpen]. *)
Lemma updateEye_open_within (e : Eye) (w : World) :
  0 <= openAmount e <= maxOpen e -> maxOpen e <= Int.max_int - 2 ->
  0 <= openAmount (fst (updateEye e w)) <= maxOpen (fst (updateEye e w)).
Proof.
  intros Hb Hm.
  destruct (updateEye_geometry e w) as (_ & _ & Gm & _ & Go).
  rewrite Gm.
  destruct (state e) eqn:Hs.
  - unfold updateEye. rewrite Hs. exact Hb.
  - pose proof (updateEye_opening_step e w (or_introl Hs)) as St.
    cbv zeta in St. destruct St as (_ & _ & _ & _ & _ & St).
    rewrite add_exact in St by int_lia.
    destruct (maxOpen e <=? openAmount e + EYE_OPEN_SPEED) eqn:E; zbool;
      destruct St as (_ & -> & _); int_lia.
  - rewrite (Go eq_refl). exact Hb.
  - rewrite (updateEye_closing_step e w EYE_BLINKING_OPEN) by tauto.
    cbn [fst]. rewrite sub_exact by int_lia.
    destruct (openAmount e - EYE_OPEN_SPEED <=? 0) eqn:E; zbool; simpl;
      int_lia.
  - pose proof (updateEye_opening_step e w (or_intror Hs)) as St.
    cbv zeta in St. destruct St as (_ & _ & _ & _ & _ & St).
    rewrite add_exact in St by int_lia.
    destruct (maxOpen e <=? openAmount e + EYE_OPEN_SPEED) eqn:E; zbool;
      destruct St as (_ & -> & _); int_lia.
  - rewrite (updateEye_closing_step e w EYE_INACTIVE) by tauto.
    cbn [fst]. rewrite sub_exact by int_lia.
    destruct (openAmount e - EYE_OPEN_SPEED <=? 0) eqn:E; zbool; simpl;
      int_lia.
Qed.

Lemma Forall_store {A : Type} (Q : A -> Prop) (i : nat) (v : A) (l : list A) :
  Forall Q l -> Q v -> Forall Q (store i v l).
Proof.
  intros Hl Hv. revert i. induction Hl as [|h t Hh Ht IH]; intros [|i]; simpl;
    constructor; auto.
Qed.

Lemma frames_reachable (n : nat) (d : Display) :
  forall w, reachable d w -> reachable d (frames n d w).
Proof.
  induction n as [|n IH]; intros w Hr; [exact Hr|].
  apply IH, reach_frame, Hr.
Qed.

Lemma spawned_maxOpen (d : Display) :
  display_ok d ->
  Int.sub (Z.quot (width d) 2) 2 = Z.quot (width d) 2 - 2 /\
  Z.quot (width d) 2 - 2 <= 16381.
Proof.
  intros [[Hlo Hhi] _].
  assert (Hq : -16384 <= Z.quot (width d) 2 <= 16383).
  { pose proof (Z.quot_rem' (width d) 2) as Q.
    destruct (Z.le_ge_cases 0 (width d)) as [Hp | Hn].
    - pose proof (Z.rem_bound_pos_pos (width d) 2 ltac:(lia) Hp). lia.
    - pose proof (Z.rem_bound_pos_neg (width d) 2 ltac:(lia) Hn). lia. }
  split; [apply sub_exact; int_lia | lia].
Qed.

Lemma eye_steps_open_within (es es' : list Eye) :
  Forall open_within_display es -> Forall2 eye_step es es' ->
  Forall open_within_display es'.
Proof.
  intros Hf Hs. induction Hs as [|e e' es es' St Hs IH].
  - constructor.
  - inversion Hf as [|? ? Qe Qes]; subst. constructor; [|apply IH; exact Qes].
    destruct St as [-> | [Ha [w ->]]]; [exact Qe|].
    intros _. destruct (Qe Ha) as [Hb Hm].
    destruct (updateEye_geometry e w) as (_ & _ & Gm & _).
    split; [apply updateEye_open_within; [exact Hb | int_lia] | rewrite Gm; exact Hm].
Qed.

Lemma spawnEye_open_within (d : Display) (w : World) :
  display_ok d -> 0 <= Int.sub (Z.quot (width d) 2) 2 ->
  Forall open_within_display (eyes w) ->
  Forall open_within_display (eyes (snd (spawnEye d w))).
Proof.
  intros Hd Hm Hf.
  destruct (spawnEye_cases d w) as [_ [-> | (i & newY & bl & lt & _ & _ & _ & _ & _ & ->)]];
    [exact Hf|].
  apply Forall_store; [exact Hf|].
  intros _. unfold spawned. cbn [openAmount maxOpen].
  destruct (spawned_maxOpen d Hd) as [E Hb]. rewrite E in *. lia.
Qed.

(** C3. On a display wide enough that [maxOpen >= 0] at spawn, every
    active eye has [0 <= openAmount <= maxOpen]: [spawnEye] writes an
    eye that satisfies it, every [updateEye] call keeps it, and so it
    holds of every eye between any two frames. *)
Theorem open_amount_within_bounds (d : Display) :
  display_ok d -> 0 <= Int.sub (Z.quot (width d) 2) 2 ->
  (forall newY bl lt : Z, open_within (spawned d newY bl lt)) /\
  (forall w : World,
     Forall open_within (eyes w) ->
     Forall open_within (eyes (snd (spawnEye d w)))) /\
  (forall (e : Eye) (w : World),
     maxOpen e <= Int.max_int - 2 ->
     open_within e -> open_within (fst (updateEye e w))) /\
  (forall w : World, reachable d w -> Forall open_within (eyes w)).
Proof.
  intros Hd Hm.
  assert (Hsp : forall newY bl lt : Z, open_within (spawned d newY bl lt)).
  { intros newY bl lt _. unfold spawned. cbn [openAmount maxOpen]. lia. }
  split; [exact Hsp|]. split; [|split].
  - intros w Hf.
    destruct (spawnEye_cases d w)
      as [_ [-> | (i & newY & bl & lt & _ & _ & _ & _ & _ & ->)]];
      [exact Hf|].
    apply Forall_store; [exact Hf | apply Hsp].
  - intros e w Hmax Ho Ha.
    destruct (is_active e) eqn:A.
    + apply updateEye_open_within; [apply Ho; exact A | exact Hmax].
    + rewrite (updateEye_stays_inactive e w A) in Ha. cbn [fst] in Ha.
      congruence.
  - intros w Hr.
    assert (Hf : Forall open_within_display (eyes w)).
    { apply (reachable_pool_inv d (Forall open_within_display)).
      - intros w0. apply spawnEye_open_within; assumption.
      - apply Forall_forall. intros e He. apply repeat_spec in He. subst e.
        intros Ha. discriminate Ha.
      - apply eye_steps_open_within.
      - exact Hr. }
    eapply Forall_impl; [|exact Hf].
    intros e Q Ha. apply Q. exact Ha.
Qed.

Lemma open_amount_within_bounds_witness :
  Forall open_within (eyes (frames 300 demoDisplay64 (boot demoDisplay64 demoRng))).
Proof.
  refine (proj2 (proj2 (proj2 (open_amount_within_bounds demoDisplay64 _ _)))
            _ _).
  - unfold display_ok, Int.in_int16, demoDisplay64. simpl. lia.
  - vm_compute. discriminate.
  - apply frames_reachable, reach_boot.
Defined.

Lemma safe_range (d : Display) (v : Z) :
  display_ok d -> drawn safeLow (safeHigh d) v ->
  safeLow = 27 /\ safeHigh d = height d - 27 /\ 27 <= v <= 32740 /\
  (v < height d - 27 \/ v = 27).
Proof.
  intros [_ Hh] Dr.
  assert (E1 : safeLow = 27).
  { unfold safeLow, EYE_HALF_HEIGHT. rewrite add_exact; [reflexivity | int_lia]. }
  assert (E2 : safeHigh d = height d - 27).
  { unfold safeHigh, EYE_HALF_HEIGHT.
    rewrite (sub_exact (height d) 25) by int_lia.
    rewrite sub_exact by int_lia. lia. }
  rewrite E1, E2 in Dr. unfold drawn in Dr. unfold Int.in_int16 in Hh.
  repeat split; lia.
Qed.

Lemma Forall2_nth_error {A B : Type} (R : A -> B -> Prop)
      (l : list A) (l' : list B) (i : nat) (b : B) :
  Forall2 R l l' -> nth_error l' i = Some b ->
  exists a, nth_error l i = Some a /\ R a b.
Proof.
  intros H. revert i. induction H as [|a0 b0 l l' Hr H IH]; intros [|i] Hn;
    simpl in Hn; try discriminate.
  - injection Hn as <-. exists a0. split; [reflexivity | exact Hr].
  - apply IH, Hn.
Qed.

Lemma eye_steps_spaced (es es' : list Eye) :
  spaced es -> Forall2 eye_step es es' -> spaced es'.
Proof.
  intros Hs Hf i j a' b' Hij Ha' Hb' Aa Ab.
  destruct (Forall2_nth_error _ _ _ i a' Hf Ha') as (a & Ha & Sa).
  destruct (Forall2_nth_error _ _ _ j b' Hf Hb') as (b & Hb & Sb).
  rewrite (eye_step_position _ _ Sa), (eye_step_position _ _ Sb).
  apply (Hs i j a b Hij Ha Hb);
    eapply eye_step_active; eassumption.
Qed.

Lemma eye_steps_placed (es es' : list Eye) :
  Forall placed es -> Forall2 eye_step es es' -> Forall placed es'.
Proof.
  intros Hf Hs. induction Hs as [|e e' es es' St Hs IH].
  - constructor.
  - inversion Hf as [|? ? Qe Qes]; subst. constructor; [|apply IH; exact Qes].
    intros Ha. rewrite (eye_step_position _ _ St).
    apply Qe. eapply eye_step_active; eassumption.
Qed.

(** The slot [spawnEye] fills is at least
    [EYE_MIN_SPACING] away from every active eye. *)
Lemma spawnEye_spaced (d : Display) (w : World) :
  display_ok d ->
  Forall placed (eyes w) -> spaced (eyes w) ->
  Forall placed (eyes (snd (spawnEye d w))) /\
  spaced (eyes (snd (spawnEye d w))).
Proof.
  intros Hd Hp Hs.
  destruct (spawnEye_cases d w)
    as [_ [-> | (i & newY & bl & lt & Hi & Dr & V & _ & _ & ->)]];
    [split; assumption|].
  destruct (safe_range d newY Hd Dr) as (_ & _ & Hy & _).
  destruct (firstInactiveEye_Some _ _ Hi) as (e0 & Hn0 & Hin).
  assert (Hlen : (i < length (eyes w))%nat)
    by (apply nth_error_Some; congruence).
  rewrite spacingValid_true in V.
  assert (Far : forall k e, nth_error (eyes w) k = Some e -> k <> i ->
                            is_active e = true ->
                            EYE_MIN_SPACING <= Z.abs (newY - y e)).
  { intros k e Hk Hne Ha.
    specialize (V k e Hk ltac:(lia) Ha).
    assert (Py : 27 <= y e <= 32740).
    { rewrite Forall_forall in Hp. apply (Hp e); [|exact Ha].
      eapply nth_error_In; exact Hk. }
    rewrite sub_exact in V by int_lia.
    rewrite abs_exact in V by int_lia. exact V. }
  split.
  - apply Forall_store; [exact Hp|]. intros _. exact Hy.
  - intros p q a b Hpq Ha Hb Aa Ab.
    destruct (Nat.eq_dec p i) as [-> | Hpi].
    + rewrite store_nth_eq in Ha by exact Hlen. injection Ha as <-.
      rewrite store_nth_ne in Hb by congruence.
      cbn [y spawned]. apply (Far q b Hb); [congruence | exact Ab].
    + rewrite store_nth_ne in Ha by congruence.
      destruct (Nat.eq_dec q i) as [-> | Hqi].
      * rewrite store_nth_eq in Hb by exact Hlen. injection Hb as <-.
        cbn [y spawned].
        pose proof (Far p a Ha Hpi Aa). lia.
      * rewrite store_nth_ne in Hb by congruence.
        apply (Hs p q a b Hpq Ha Hb Aa Ab).
Qed.

(** C7. Between any two frames, two active eyes in different slots
    are at least [EYE_MIN_SPACING] = 55 apart vertically: [spawnEye]
    only fills a slot with a position that far from every active eye,
    and [updateEye] never writes [x] or [y]. *)
Theorem active_eyes_keep_their_distance (d : Display) :
  display_ok d ->
  EYE_MIN_SPACING = 55 /\
  (forall w : World, reachable d w -> spaced (eyes w)) /\
  (forall w : World,
     Forall placed (eyes w) -> spaced (eyes w) ->
     spaced (eyes (snd (spawnEye d w)))) /\
  (forall (e : Eye) (w : World),
     x (fst (updateEye e w)) = x e /\ y (fst (updateEye e w)) = y e).
Proof.
  intros Hd. split; [reflexivity|]. split; [|split].
  - intros w Hr.
    apply (reachable_pool_inv d (fun es => Forall placed es /\ spaced es)).
    + intros w0 [Hp Hs]. apply spawnEye_spaced; assumption.
    + split.
      * apply Forall_forall. intros e He. apply repeat_spec in He. subst e.
        intros Ha. discriminate Ha.
      * intros i j a b _ Ha _ Aa _.
        apply nth_error_In, repeat_spec in Ha. subst a. discriminate Aa.
    + intros es es' [Hp Hs] St.
      split; [eapply eye_steps_placed | eapply eye_steps_spaced]; eassumption.
    + exact Hr.
  - intros w Hp Hs. apply spawnEye_spaced; assumption.
  - intros e w. destruct (updateEye_geometry e w) as (Gx & Gy & _).
    split; assumption.
Qed.

Lemma active_eyes_keep_their_distance_witness :
  spaced (eyes (frames 300 installation (boot installation demoRng))).
Proof.
  refine (proj1 (proj2 (active_eyes_keep_their_distance installation _)) _ _).
  - unfold display_ok, Int.in_int16, installation. simpl. lia.
  - apply frames_reachable, reach_boot.
Defined.

(** The blink count of every eye of the pool stays within 0..4. *)
Lemma reachable_blinksLeft (d : Display) (w : World) :
  reachable d w -> Forall (fun e => 0 <= blinksLeft e <= 4) (eyes w).
Proof.
  apply (reachable_pool_inv d (Forall (fun e => 0 <= blinksLeft e <= 4))).
  - intros w0 Hf.
    destruct (spawnEye_cases d w0)
      as [_ [-> | (i & newY & bl & lt & _ & _ & _ & Hb & _ & ->)]];
      [exact Hf|].
    apply Forall_store; [exact Hf|]. unfold spawned. cbn [blinksLeft]. lia.
  - apply Forall_forall. intros e He. apply repeat_spec in He. subst e.
    simpl. lia.
  - intros es es' Hf Hs. induction Hs as [|e e' es es' St Hs IH].
    + constructor.
    + inversion Hf as [|? ? Qe Qes]; subst. constructor; [|apply IH; exact Qes].
      destruct St as [-> | [Ha [w0 ->]]]; [exact Qe|].
      pose proof (updateEye_transition e w0) as T. cbv zeta in T.
      destruct (state e).
      * rewrite T. exact Qe.
      * destruct T as [_ ->]. exact Qe.
      * destruct T as [(_ & _ & ->) | [(_ & _ & Hp & ->) | (_ & _ & _ & ->)]];
          try exact Qe.
        rewrite sub_exact by int_lia. lia.
      * destruct T as [_ ->]. exact Qe.
      * destruct T as [_ ->]. exact Qe.
      * destruct T as [_ ->]. exact Qe.
Qed.

(** C6. [blinksLeft] never grows under [updateEye], and is never
    negative in any eye of the pool between two frames. An eye with
    such a blink count enters [EYE_CLOSING] exactly on a tick that
    finds it [EYE_OPEN]
    with the decremented timer [<= 0] and [blinksLeft = 0]; that tick
    is nothing but the timer decrement, the state change and
    [updateIris], so no ripple is spawned and the ripple pool is as it
    was. With [blinksLeft > 0] the same tick leads to
    [EYE_BLINKING_CLOSE] instead. *)
Theorem blinks_run_out_then_closing (e : Eye) (w : World) :
  blinksLeft (fst (updateEye e w)) <= blinksLeft e /\
  (forall (d : Display) (w0 : World),
     reachable d w0 -> Forall (fun e0 => 0 <= blinksLeft e0) (eyes w0)) /\
  (0 <= blinksLeft e -> state e <> EYE_CLOSING ->
   (state (fst (updateEye e w)) = EYE_CLOSING <->
    state e = EYE_OPEN /\ Int.sub (timer e) 1 <= 0 /\ blinksLeft e = 0)) /\
  (state e = EYE_OPEN -> Int.sub (timer e) 1 <= 0 -> blinksLeft e = 0 ->
   updateEye e w =
   updateIris (set_state EYE_CLOSING (set_timer (Int.sub (timer e) 1) e)) w /\
   ripples (snd (updateEye e w)) = ripples w) /\
  (state e = EYE_OPEN -> Int.sub (timer e) 1 <= 0 -> 0 < blinksLeft e ->
   state (fst (updateEye e w)) = EYE_BLINKING_CLOSE).
Proof.
  pose proof (updateEye_transition e w) as T. cbv zeta in T.
  split; [|split; [|split; [|split]]].
  2: { intros d w0 Hr.
       eapply Forall_impl; [|apply (reachable_blinksLeft d w0 Hr)].
       intros e0 H0. cbv beta in H0. lia. }
  - destruct (state e) eqn:Hs.
    + rewrite T. simpl. lia.
    + destruct T as [_ ->]. lia.
    + destruct T as [(_ & _ & ->) | [(_ & _ & Hp & ->) | (_ & _ & _ & ->)]];
        try lia.
      pose proof (sub_le (blinksLeft e) 1 ltac:(int_lia)). lia.
    + destruct T as [_ ->]. lia.
    + destruct T as [_ ->]. lia.
    + destruct T as [_ ->]. lia.
  - intros Hb Hn. destruct (state e) eqn:Hs; try congruence.
    + rewrite T. simpl. rewrite Hs. split; [discriminate | intros [? _]; discriminate].
    + split; [intuition congruence | intros [? _]; discriminate].
    + split.
      * intros Hc. split; [reflexivity|].
        destruct T as [(T1 & _) | [(T1 & _) | (_ & T2 & T3 & _)]];
          try congruence.
        split; [assumption | lia].
      * intros (_ & Ht & Hz).
        destruct T as [(_ & T2 & _) | [(_ & _ & T3 & _) | (T1 & _)]];
          try lia. assumption.
    + split; [intuition congruence | intros [? _]; discriminate].
    + split; [intuition congruence | intros [? _]; discriminate].
  - intros Hs Ht Hz.
    pose proof (updateEye_open_step e w Hs) as St. cbv zeta in St.
    change (timer (set_timer (Int.sub (timer e) 1) e))
      with (Int.sub (timer e) 1) in St.
    destruct (Int.sub (timer e) 1 <=? 0) eqn:E1; zbool; [|lia].
    destruct (0 <? blinksLeft e) eqn:E2; zbool; [lia|].
    split; [exact St|]. rewrite St.
    match goal with
    | |- context [updateIris ?a ?b] =>
        destruct (updateIris_scene a b) as (_ & _ & _ & _ & R)
    end.
    exact R.
  - intros Hs Ht Hp. rewrite Hs in T.
    destruct T as [(_ & T2 & _) | [(T1 & _) | (_ & _ & T3 & _)]];
      try lia. assumption.
Qed.

Lemma blinks_run_out_then_closing_witness :
  (state (fst (updateEye (demoOpenEye 1 0) demoWorld)) = EYE_CLOSING <->
   state (demoOpenEye 1 0) = EYE_OPEN /\
   Int.sub (timer (demoOpenEye 1 0)) 1 <= 0 /\
   blinksLeft (demoOpenEye 1 0) = 0) /\
  ripples (snd (updateEye (demoOpenEye 1 0) demoWorld)) = ripples demoWorld /\
  state (fst (updateEye (demoOpenEye 1 3) demoWorld)) = EYE_BLINKING_CLOSE.
Proof.
  split; [|split].
  - apply (proj1 (proj2 (proj2 (blinks_run_out_then_closing
                                  (demoOpenEye 1 0) demoWorld)))).
    + simpl. lia.
    + discriminate.
  - apply (proj1 (proj2 (proj2 (proj2 (blinks_run_out_then_closing
                                  (demoOpenEye 1 0) demoWorld))))).
    + reflexivity.
    + vm_compute. discriminate.
    + reflexivity.
  - apply (proj2 (proj2 (proj2 (proj2 (blinks_run_out_then_closing
                                  (demoOpenEye 1 3) demoWorld))))).
    + reflexivity.
    + vm_compute. discriminate.
    + reflexivity.
Defined.

(* ------------------------------------------------------------------ *)
(** ** The size of the population *)
(* ------------------------------------------------------------------ *)

Lemma activeCount_store (i : nat) (v e0 : Eye) (es : list Eye) :
  nth_error es i = Some e0 -> is_active e0 = false -> is_active v = true ->
  activeCount (store i v es) = activeCount es + 1.
Proof.
  revert i. induction es as [|e es IH]; intros [|i] Hn H0 Hv;
    simpl in Hn; try discriminate.
  - injection Hn as ->. cbn [store]. rewrite !activeCount_cons, H0, Hv. lia.
  - cbn [store]. rewrite !activeCount_cons, (IH i Hn H0 Hv). lia.
Qed.

(** A call of [spawnEye] adds one active eye or none. *)
Lemma spawnEye_count (d : Display) (w : World) :
  length (eyes (snd (spawnEye d w))) = length (eyes w) /\
  activeCount (eyes w) <= activeCount (eyes (snd (spawnEye d w)))
    <= activeCount (eyes w) + 1.
Proof.
  destruct (spawnEye_cases d w)
    as [_ [-> | (i & newY & bl & lt & Hi & _ & _ & _ & _ & ->)]];
    [split; [reflexivity | lia]|].
  destruct (firstInactiveEye_Some _ _ Hi) as (e0 & Hn0 & Hin).
  rewrite store_length.
  rewrite (activeCount_store i (spawned d newY bl lt) e0 _ Hn0 Hin)
    by reflexivity.
  split; [reflexivity | lia].
Qed.

(** The update loop retires eyes but never wakes one. *)
Lemma eye_steps_count (es es' : list Eye) :
  Forall2 eye_step es es' ->
  length es' = length es /\ activeCount es' <= activeCount es.
Proof.
  induction 1 as [|e e' es es' St Hs [IL IC]].
  - split; [reflexivity | lia].
  - cbn [length]. rewrite !activeCount_cons, IL. split; [reflexivity|].
    destruct (is_active e') eqn:A'.
    + rewrite (eye_step_active _ _ St A'). lia.
    + destruct (is_active e); lia.
Qed.



Lemma afterReplenish_unfold (d : Display) (w : World) :
  afterReplenish d w =
  snd (maybeSpawn d
         (fst (ensureTwo d (fst (updateEyes (backdrop d w)))
                         (snd (updateEyes (backdrop d w)))))
         (snd (ensureTwo d (fst (updateEyes (backdrop d w)))
                         (snd (updateEyes (backdrop d w)))))).
Proof.
  unfold afterReplenish, replenish, bind. cbv zeta.
  destruct (ensureTwo d (fst (updateEyes (backdrop d w)))
                      (snd (updateEyes (backdrop d w)))) as [n w2].
  reflexivity.
Qed.





(** The counter also counts the eyes that the update loop of the same
    frame has just retired: with two eyes of equal life span, the
    frame in which both close starts with two active eyes, spawns
    nothing and ends with none. *)
Example retired_eyes_are_counted :
  let w := frames 225 installation (boot installation twinRng) in
  activeCount (eyes w) = 2 /\
  fst (updateEyes (backdrop installation w)) = 2 /\
  activeCount (eyes (afterReplenish installation w)) = 0.
Proof. vm_compute. repeat split; reflexivity. Qed.

(* ------------------------------------------------------------------ *)
(** ** A display too short for two eyes *)
(* ------------------------------------------------------------------ *)

Lemma activeCount_pos (es : list Eye) :
  1 <= activeCount es -> exists e, In e es /\ is_active e = true.
Proof.
  induction es as [|e es IH]; intros H.
  - unfold activeCount in H. simpl in H. lia.
  - rewrite activeCount_cons in H. destruct (is_active e) eqn:A.
    + exists e. split; [left; reflexivity | exact A].
    + destruct (IH ltac:(lia)) as (e1 & Hin & Ha).
      exists e1. split; [right; exact Hin | exact Ha].
Qed.

Lemma reachable_in_safe_range (d : Display) (w : World) :
  reachable d w -> Forall (in_safe_range d) (eyes w).
Proof.
  apply (reachable_pool_inv d (Forall (in_safe_range d))).
  - intros w0 Hf.
    destruct (spawnEye_cases d w0)
      as [_ [-> | (i & newY & bl & lt & _ & Dr & _ & _ & _ & ->)]];
      [exact Hf|].
    apply Forall_store; [exact Hf|]. intros _. exact Dr.
  - apply Forall_forall. intros e He. apply repeat_spec in He. subst e.
    intros Ha. discriminate Ha.
  - intros es es' Hf Hs. induction Hs as [|e e' es es' St Hs IH].
    + constructor.
    + inversion Hf as [|? ? Qe Qes]; subst. constructor; [|apply IH; exact Qes].
      intros Ha. rewrite (eye_step_position _ _ St).
      apply Qe. eapply eye_step_active; eassumption.
Qed.

(** The scenario of a safe vertical range narrower than the minimum
    spacing: once an eye is active, every candidate is within 55 of it
    and [spawnEye] can never place another, whatever the generator
    does. *)
Lemma narrow_display_holds_one_eye (d : Display) (w : World) :
  display_ok d -> safeHigh d - safeLow <= EYE_MIN_SPACING ->
  Forall (in_safe_range d) (eyes w) -> 1 <= activeCount (eyes w) ->
  eyes (snd (spawnEye d w)) = eyes w.
Proof.
  intros Hd Hnarrow Hsafe Hone.
  apply spawnEye_rejects_all. intros k _.
  destruct (activeCount_pos _ Hone) as (e & Hin & Ha).
  exists e. split; [exact Hin|]. split; [exact Ha|].
  rewrite Forall_forall in Hsafe. pose proof (Hsafe e Hin Ha) as De.
  pose proof (random_range_drawn safeLow (safeHigh d) (afterDraws k d w)) as Dc.
  fold (candidate d w k) in Dc.
  destruct (safe_range d _ Hd De) as (E1 & E2 & Ye & Ye').
  destruct (safe_range d _ Hd Dc) as (_ & _ & Yc & Yc').
  rewrite E1, E2 in Hnarrow.
  rewrite sub_exact by int_lia. rewrite abs_exact by int_lia.
  unfold EYE_MIN_SPACING in *. lia.
Qed.

Example narrow_display_demo :
  forall r : Rng,
    activeCount
      (eyes (afterReplenish (mkDisplay 32 100) (boot (mkDisplay 32 100) r)))
    <= 1.
Proof.
  intros r. set (d := mkDisplay 32 100).
  assert (Hd : display_ok d)
    by (unfold display_ok, Int.in_int16, d; simpl; lia).
  assert (Hn : safeHigh d - safeLow <= EYE_MIN_SPACING)
    by (vm_compute; discriminate).
  rewrite afterReplenish_unfold.
  set (w0 := backdrop d (boot d r)).
  assert (He0 : eyes w0 = repeat zeroEye MAX_EYES).
  { unfold w0. destruct (backdrop_pools d (boot d r)) as [-> _].
    apply boot_eyes. }
  destruct (updateEyes_spec w0) as (St & _ & Hcnt).
  rewrite He0 in St, Hcnt.
  assert (Ha : fst (updateEyes w0) = 0).
  { rewrite Hcnt; [reflexivity | vm_compute; discriminate]. }
  destruct (eye_steps_count _ _ St) as [L1 Hc1].
  assert (S1 : Forall (in_safe_range d) (eyes (snd (updateEyes w0)))).
  { clear - St. remember (repeat zeroEye MAX_EYES) as es eqn:Hes.
    assert (Hall : Forall (fun e => is_active e = false) es).
    { subst es. apply Forall_forall. intros e He.
      apply repeat_spec in He. subst e. reflexivity. }
    clear Hes. induction St as [|e e' es es' Se St IH].
    - constructor.
    - inversion Hall as [|? ? Qe Qes]; subst.
      constructor; [|apply IH; exact Qes].
      intros A. pose proof (eye_step_active _ _ Se A). congruence. }
  rewrite Ha. set (w1 := snd (updateEyes w0)) in *.
  change (activeCount (repeat zeroEye MAX_EYES)) with 0 in Hc1.
  pose proof (activeCount_bounds (eyes w1)) as B1.
  unfold ensureTwo. change (Z.to_nat (2 - 0)) with 2%nat.
  cbn [ensureTwoLoop]. change (0 <? 2) with true. cbv iota.
  unfold bind.
  pose proof (spawnEye_count d w1) as [SL SC].
  pose proof (spawnEye_cases d w1) as [_ Cs].
  assert (S2 : Forall (in_safe_range d) (eyes (snd (spawnEye d w1)))).
  { destruct Cs as [-> | (i & newY & bl & lt & _ & Dr & _ & _ & _ & ->)];
      [exact S1|].
    apply Forall_store; [exact S1 | intros _; exact Dr]. }
  destruct (spawnEye d w1) as [u w2]. cbn [snd] in *.
  assert (Hadd : Int.add 0 1 = 1) by (apply add_exact; int_lia).
  rewrite Hadd. change (1 <? 2) with true. cbv iota.
  assert (Hsecond : forall w', Forall (in_safe_range d) (eyes w') ->
                               activeCount (eyes w') <= 1 ->
                               Forall (in_safe_range d) (eyes (snd (spawnEye d w'))) /\
                               activeCount (eyes (snd (spawnEye d w'))) <= 1).
  { intros w' Hs' Hc'.
    destruct (Z.eq_dec (activeCount (eyes w')) 1) as [E1 | E1].
    - rewrite (narrow_display_holds_one_eye d w' Hd Hn Hs') by lia.
      split; [exact Hs' | lia].
    - pose proof (activeCount_bounds (eyes w')).
      pose proof (spawnEye_count d w') as [_ SC'].
      split; [|lia].
      destruct (spawnEye_cases d w')
        as [_ [-> | (i & newY & bl & lt & _ & Dr & _ & _ & _ & ->)]];
        [exact Hs'|].
      apply Forall_store; [exact Hs' | intros _; exact Dr]. }
  destruct (Hsecond w2 S2 ltac:(lia)) as [S3 Hc3].
  destruct (spawnEye d w2) as [u2 w3]. cbn [snd fst] in *.
  assert (Hadd2 : Int.add 1 1 = 2) by (apply add_exact; int_lia).
  rewrite Hadd2. cbn [ret fst snd].
  unfold maybeSpawn, random, bind, ret. change (2 <? 5) with true. cbv iota.
  pose proof (random_range_pools 0 90 w3) as [Se _].
  destruct (random_range 0 90 w3) as [r90 w4]. cbn [snd] in Se.
  destruct (r90 =? 0); cbn [snd]; [|rewrite Se; exact Hc3].
  apply Hsecond; rewrite Se; assumption.
Qed.

(* ------------------------------------------------------------------ *)
(** ** Invariants of the ripple pool *)
(* ------------------------------------------------------------------ *)

Lemma reachable_standard_height (d : Display) (w : World) :
  reachable d w -> Forall standard_height (eyes w).
Proof.
  apply (reachable_pool_inv d (Forall standard_height)).
  - intros w0 Hf.
    destruct (spawnEye_cases d w0)
      as [_ [-> | (i & newY & bl & lt & _ & _ & _ & _ & _ & ->)]];
      [exact Hf|].
    apply Forall_store; [exact Hf|]. intros _. reflexivity.
  - apply Forall_forall. intros e He. apply repeat_spec in He. subst e.
    intros Ha. discriminate Ha.
  - intros es es' Hf Hs. induction Hs as [|e e' es es' St Hs IH].
    + constructor.
    + inversion Hf as [|? ? Qe Qes]; subst. constructor; [|apply IH; exact Qes].
      intros Ha. pose proof (eye_step_active _ _ St Ha) as Ha0.
      destruct St as [-> | [_ [w0 ->]]]; [apply Qe; exact Ha0|].
      destruct (updateEye_geometry e w0) as (_ & _ & _ & -> & _).
      apply Qe. exact Ha0.
Qed.

Lemma updateRipple_ok (d : Display) (r : Ripple) :
  display_ok d -> ripple_ok d r ->
  ripple_ok d (updateRipple (Z.max (width d) (height d)) r).
Proof.
  intros [Hw Hh] Hr. unfold updateRipple.
  destruct (active r) eqn:A; [|intros A'; congruence].
  destruct (Hr A) as [Hs Hrad].
  cbn [radius set_radius].
  rewrite add_exact by int_lia.
  destruct (Z.max (width d) (height d) <? radius r + speed r) eqn:E; zbool.
  - intros A'. discriminate A'.
  - intros _. cbn [speed radius set_radius]. unfold EYE_HALF_HEIGHT in *. lia.
Qed.

Ltac step_scene :=
  match goal with
  | |- context [random_range ?a ?b ?w] =>
      let Sc := fresh "Sc" in
      pose proof (random_range_scene a b w) as Sc;
      destruct (random_range a b w); cbn [fst snd] in Sc
  | |- context [updateIris ?a ?w] =>
      let Sc := fresh "Sc" in
      pose proof (updateIris_scene a w) as Sc;
      destruct (updateIris a w); cbn [fst snd] in Sc
  end.

(** Outside [EYE_OPEN], [updateEye] touches nothing of the world but
    the generator. *)
Lemma updateEye_quiet (e : Eye) (w : World) :
  state e <> EYE_OPEN -> ripples (snd (updateEye e w)) = ripples w.
Proof.
  intros Hs. unfold updateEye.
  destruct (state e); try congruence; unfold bind, ret; repeat break_if;
    repeat step_scene; cbn [snd];
    unfold same_scene in *; intuition congruence.
Qed.

Section RipplePool.

Variable d : Display.

Lemma keeps_refl (w : World) : keeps d w w.
Proof. intros H. exact H. Qed.

Lemma keeps_trans (w1 w2 w3 : World) : keeps d w1 w2 -> keeps d w2 w3 -> keeps d w1 w3.
Proof. unfold keeps. auto. Qed.

Lemma keeps_same (w w' : World) : ripples w' = ripples w -> keeps d w w'.
Proof. intros E H. rewrite E. exact H. Qed.

Lemma spawnRipples_keeps (e : Eye) (w : World) :
  halfHeight e = EYE_HALF_HEIGHT -> keeps d w (snd (spawnRipples e w)).
Proof.
  intros Hh. unfold spawnRipples, bind.
  pose proof (random_range_scene 1 4 w) as Sc.
  destruct (random_range 1 4 w) as [c w1]. cbn [snd] in Sc.
  apply (keeps_trans w w1); [apply keeps_same; unfold same_scene in Sc; tauto|].
  apply repeatM_scene; [apply keeps_refl | apply keeps_trans |].
  intros w0 Hok.
  pose proof (spawnRippleAttempt_spec e w0) as Sp.
  destruct (firstFreeRipple (ripples w0)) as [i|].
  - destruct Sp as (_ & s & Hs & -> & _).
    apply Forall_store; [exact Hok|].
    intros _. cbn [speed radius]. rewrite Hh. lia.
  - destruct Sp as [_ ->]. exact Hok.
Qed.

Lemma updateEye_keeps (e : Eye) (w : World) :
  standard_height e -> keeps d w (snd (updateEye e w)).
Proof.
  intros Hh.
  destruct (is_active e) eqn:A;
    [|rewrite (updateEye_stays_inactive e w A); apply keeps_refl].
  specialize (Hh A).
  destruct (state e) eqn:Hs;
    try (apply keeps_same, updateEye_quiet; congruence).
  rewrite (updateEye_open_step e w Hs). cbv zeta.
  repeat break_if;
    try (apply keeps_same;
         match goal with
         | |- context [updateIris ?a ?v] =>
             pose proof (updateIris_scene a v) as Sc
         end;
         unfold same_scene in Sc; tauto).
  unfold bind.
  pose proof (spawnRipples_keeps
                (set_blinksLeft (Int.sub (blinksLeft e) 1)
                   (set_state EYE_BLINKING_CLOSE
                      (set_timer (Int.sub (timer e) 1) e))) w Hh) as K.
  destruct (spawnRipples _ w) as [u w1]. cbn [snd] in K.
  eapply keeps_trans; [exact K|]. apply keeps_same.
  match goal with
  | |- context [updateIris ?a ?v] =>
      pose proof (updateIris_scene a v) as Sc
  end.
  unfold same_scene in Sc. tauto.
Qed.

Lemma updateEyesLoop_keeps (es : list Eye) :
  Forall standard_height es ->
  forall (n : Z) (w : World), keeps d w (snd (updateEyesLoop es n w)).
Proof.
  induction 1 as [|e es He Hes IH]; intros n w.
  - apply keeps_refl.
  - cbn [updateEyesLoop]. destruct (is_active e); unfold bind, ret.
    + pose proof (updateEye_keeps e w He) as K1.
      destruct (updateEye e w) as [e' w1]. cbn [snd] in K1.
      specialize (IH (Int.add n 1) w1).
      destruct (updateEyesLoop es (Int.add n 1) w1) as [r w2].
      eapply keeps_trans; eassumption.
    + specialize (IH n w). destruct (updateEyesLoop es n w) as [r w2].
      exact IH.
Qed.

Lemma replenish_ripples (a : Z) (w : World) :
  ripples (snd (replenish d a w)) = ripples w.
Proof.
  assert (Hsp : forall w0, ripples (snd (spawnEye d w0)) = ripples w0).
  { intros w0. destruct (spawnEye_cases d w0) as [Sb _].
    unfold same_but_eyes in Sb. tauto. }
  assert (Hloop : forall fuel a0 w0,
             ripples (snd (ensureTwoLoop fuel d a0 w0)) = ripples w0).
  { induction fuel as [|fuel IH]; intros a0 w0; [reflexivity|].
    cbn [ensureTwoLoop]. destruct (a0 <? 2); [|reflexivity].
    unfold bind. specialize (Hsp w0). destruct (spawnEye d w0) as [u w1].
    rewrite IH. exact Hsp. }
  unfold replenish, ensureTwo, bind.
  specialize (Hloop (Z.to_nat (2 - a)) a w).
  destruct (ensureTwoLoop (Z.to_nat (2 - a)) d a w) as [n w1].
  cbn [snd] in Hloop. rewrite <- Hloop.
  unfold maybeSpawn, random, bind, ret.
  destruct (n <? 5); [|reflexivity].
  pose proof (random_range_scene 0 90 w1) as Sc.
  destruct (random_range 0 90 w1) as [r w2]. cbn [snd] in Sc.
  assert (E : ripples w2 = ripples w1) by (unfold same_scene in Sc; tauto).
  destruct (r =? 0); [rewrite Hsp; exact E | exact E].
Qed.

(** Every ring in flight between two frames has a speed in 1..3 and a
    radius between the eye's half height and the edge of the screen. *)
Lemma reachable_ripples_ok (w : World) :
  display_ok d -> reachable d w -> Forall (ripple_ok d) (ripples w).
Proof.
  intros Hd. induction 1 as [r | w Hr IH | w r Hr IH].
  - assert (E : ripples (boot d r) = repeat zeroRipple MAX_RIPPLES).
    { unfold boot, initDigital, bind, modify. cbn [snd].
      match goal with
      | |- context [initDigits ?i ?o ?v] =>
          pose proof (initDigits_pools i o v) as Sc;
          destruct (initDigits i o v) as [dgs w1]
      end.
      cbn [snd ripples set_digitChars] in *. destruct Sc as [_ ->].
      reflexivity. }
    rewrite E. apply Forall_forall. intros r0 H0.
    apply repeat_spec in H0. subst r0. intros A. discriminate A.
  - rewrite frame_unfold. unfold updateRipples, modify.
    cbn [snd ripples set_ripples]. rewrite replenish_ripples.
    apply Forall_map.
    assert (K : Forall (ripple_ok d) (ripples (snd (updateEyes (backdrop d w))))).
    { destruct (backdrop_pools d w) as [Se Sr].
      unfold updateEyes, bind, gets, modify, ret.
      pose proof (updateEyesLoop_keeps (eyes (backdrop d w))) as K.
      rewrite Se in K.
      specialize (K (reachable_standard_height d w Hr) 0 (backdrop d w)).
      rewrite Se.
      destruct (updateEyesLoop (eyes w) 0 (backdrop d w)) as [res w1].
      cbn [snd ripples set_eyes] in *. apply K. rewrite Sr. exact IH. }
    eapply Forall_impl; [|exact K].
    intros r0 H0. apply updateRipple_ok; assumption.
  - exact IH.
Qed.

End RipplePool.

(** C4. A ring that is active with speed [>= 1] grows by exactly its
    speed on every call of [updateRipples] and stays active as long as
    each radius it reaches is within [max(width, height)]; it is
    switched off by the first call that takes the radius beyond that
    bound, and by no earlier one. Every ring in flight between two
    frames has a speed in 1..3 and a radius that leaves room in an
    [int]. *)
Theorem ripple_grows_until_offscreen
    (d : Display) (w : World) (i : nat) (r : Ripple) (n : nat) :
  nth_error (ripples w) i = Some r ->
  active r = true -> 1 <= speed r ->
  Int.min_int <= radius r ->
  radius r + Z.of_nat n * speed r <= Int.max_int ->
  let maxDim := Z.max (width d) (height d) in
  (display_ok d ->
   forall w0 : World, reachable d w0 -> Forall (ripple_ok d) (ripples w0)) /\
  exists rn : Ripple,
    nth_error (ripples (updateRipplesN n d w)) i = Some rn /\
    ((forall k : nat, (1 <= k <= n)%nat ->
        radius r + Z.of_nat k * speed r <= maxDim) ->
     active rn = true /\
     radius rn = radius r + Z.of_nat n * speed r /\
     (forall k : nat, (k < n)%nat ->
        exists rk rk',
          nth_error (ripples (updateRipplesN k d w)) i = Some rk /\
          nth_error (ripples (updateRipplesN (S k) d w)) i = Some rk' /\
          radius rk' = radius rk + speed r /\ radius rk < radius rk')) /\
    ((1 <= n)%nat ->
     (forall k : nat, (1 <= k < n)%nat ->
        radius r + Z.of_nat k * speed r <= maxDim) ->
     maxDim < radius r + Z.of_nat n * speed r ->
     active rn = false /\
     radius rn = radius r + Z.of_nat n * speed r).
Proof.
  intros Hi Ha Hs Hlo Hhi maxDim.
  split; [intros Hd w0 Hr; apply reachable_ripples_ok; assumption|].
  exists (Nat.iter n (updateRipple maxDim) r).
  split; [rewrite updateRipplesN_nth, Hi; reflexivity|].
  split.
  - intros Hfit.
    destruct (ripple_run maxDim r n Ha Hs Hlo Hhi Hfit) as (R1 & R2 & _).
    split; [exact R1|]. split; [exact R2|].
    intros k Hk.
    exists (Nat.iter k (updateRipple maxDim) r),
           (Nat.iter (S k) (updateRipple maxDim) r).
    rewrite !updateRipplesN_nth, Hi.
    split; [reflexivity|]. split; [reflexivity|].
    destruct (ripple_run maxDim r k Ha Hs Hlo ltac:(nia)
                ltac:(intros j Hj; apply Hfit; lia)) as (K1 & K2 & _).
    destruct (ripple_run maxDim r (S k) Ha Hs Hlo ltac:(nia)
                ltac:(intros j Hj; apply Hfit; lia)) as (L1 & L2 & _).
    rewrite K2, L2. lia.
  - intros Hn Hfit Hout.
    destruct n as [|n]; [lia|].
    destruct (ripple_run maxDim r n Ha Hs Hlo ltac:(nia)
                ltac:(intros j Hj; apply Hfit; lia)) as (K1 & K2 & K3 & _).
    change (Nat.iter (S n) (updateRipple maxDim) r)
      with (updateRipple maxDim (Nat.iter n (updateRipple maxDim) r)).
    set (rn := Nat.iter n (updateRipple maxDim) r) in *.
    assert (Hr : Int.in_range (radius rn + speed rn)).
    { rewrite K2, K3. unfold Int.in_range. split; nia. }
    destruct (updateRipple_active maxDim rn K1 Hr) as (U1 & _ & _ & _ & U5).
    rewrite U1, U5, K2, K3.
    split; [|lia].
    destruct (maxDim <? radius r + Z.of_nat n * speed r + speed r) eqn:E;
      zbool; [reflexivity | nia].
Qed.

Lemma ripple_grows_until_offscreen_witness :
  exists rn : Ripple,
    nth_error (ripples (updateRipplesN 184 installation demoRippleWorld)) 2
      = Some rn /\
    active rn = false /\ radius rn = 25 + 184 * 3.
Proof.
  destruct (ripple_grows_until_offscreen
              installation demoRippleWorld 2 demoRipple 184)
    as (_ & rn & Hn & _ & Hoff).
  - reflexivity.
  - reflexivity.
  - simpl. lia.
  - vm_compute. discriminate.
  - vm_compute. discriminate.
  - exists rn. split; [exact Hn|].
    apply Hoff.
    + lia.
    + intros k Hk. unfold demoRipple, installation.
      cbn [radius speed width height]. lia.
    + unfold demoRipple, installation.
      cbn [radius speed width height]. lia.
Defined.

(* ------------------------------------------------------------------ *)
(** ** Every eye closes *)
(* ------------------------------------------------------------------ *)

Lemma updateEye_open_timer (e : Eye) (w : World) :
  state e = EYE_OPEN -> timer (fst (updateEye e w)) = Int.sub (timer e) 1.
Proof.
  intros Hs. rewrite (updateEye_open_step e w Hs). cbv zeta.
  repeat break_if; unfold bind;
    try match goal with
      | |- context [spawnRipples ?a ?v] => destruct (spawnRipples a v)
      end;
    match goal with
    | |- context [updateIris ?a ?v] =>
        destruct (updateIris_body a v) as (_ & _ & _ & _ & _ & _ & B & _)
    end;
    rewrite B; reflexivity.
Qed.

Ltac sound_tac := repeat split; intros; try discriminate; try int_lia.
Ltac budget_tac :=
  unfold Int.max_int, Int.min_int, EYE_OPEN_SPEED in *; nia.

(** One tick of an active, sound eye leaves it sound and uses up some
    of its budget. *)
Lemma updateEye_budget (e : Eye) (w : World) :
  eye_sound e -> is_active e = true ->
  eye_sound (fst (updateEye e w)) /\
  0 <= lifeBudget (fst (updateEye e w)) < lifeBudget e.
Proof.
  intros (Ho & Hm & Hb & Ht) Ha.
  destruct (updateEye_geometry e w) as (_ & _ & Gm & _ & Go).
  pose proof (updateEye_transition e w) as T. cbv zeta in T.
  unfold eye_sound, lifeBudget. rewrite Gm.
  destruct (state e) eqn:Hs.
  - unfold is_active in Ha. rewrite Hs in Ha. discriminate Ha.
  - pose proof (updateEye_opening_step e w (or_introl Hs)) as St.
    cbv zeta in St. destruct St as (_ & _ & _ & _ & Hbl & St).
    rewrite add_exact in St by int_lia. rewrite Hbl.
    destruct (maxOpen e <=? openAmount e + EYE_OPEN_SPEED) eqn:E; zbool.
    + destruct St as (-> & -> & Htm). split; [sound_tac | budget_tac].
    + destruct St as (-> & -> & _). rewrite Hs.
      split; [sound_tac | budget_tac].
  - specialize (Ht eq_refl). rewrite (Go eq_refl).
    rewrite (updateEye_open_timer e w Hs).
    rewrite sub_exact in * by int_lia.
    destruct T as [(-> & T1 & ->) | [(-> & T1 & T2 & ->) | (-> & T1 & T2 & ->)]].
    + split; [sound_tac | budget_tac].
    + rewrite sub_exact by int_lia. split; [sound_tac | budget_tac].
    + split; [sound_tac | budget_tac].
  - rewrite (updateEye_closing_step e w EYE_BLINKING_OPEN) by tauto.
    cbn [fst]. rewrite sub_exact by int_lia.
    destruct (openAmount e - EYE_OPEN_SPEED <=? 0) eqn:E; zbool;
      cbn [state openAmount maxOpen blinksLeft timer
           set_state set_openAmount];
      rewrite ?Hs; (split; [sound_tac | budget_tac]).
  - pose proof (updateEye_opening_step e w (or_intror Hs)) as St.
    cbv zeta in St. destruct St as (_ & _ & _ & _ & Hbl & St).
    rewrite add_exact in St by int_lia. rewrite Hbl.
    destruct (maxOpen e <=? openAmount e + EYE_OPEN_SPEED) eqn:E; zbool.
    + destruct St as (-> & -> & Htm). split; [sound_tac | budget_tac].
    + destruct St as (-> & -> & _). rewrite Hs.
      split; [sound_tac | budget_tac].
  - rewrite (updateEye_closing_step e w EYE_INACTIVE) by tauto.
    cbn [fst]. rewrite sub_exact by int_lia.
    destruct (openAmount e - EYE_OPEN_SPEED <=? 0) eqn:E; zbool;
      cbn [state openAmount maxOpen blinksLeft timer
           set_state set_openAmount];
      rewrite ?Hs; (split; [sound_tac | budget_tac]).
Qed.

Lemma stateTrace_last (n : nat) :
  forall (e : Eye) (w : World) (dflt : EyeState),
    last (stateTrace n e w) dflt = state (fst (updateEyeN n e w)).
Proof.
  induction n as [|n IH]; intros e w dflt.
  - reflexivity.
  - rewrite stateTrace_S, updateEyeN_S.
    destruct (stateTrace_head n (fst (updateEye e w)) (snd (updateEye e w)))
      as [t Ht].
    rewrite <- (IH _ _ dflt). rewrite Ht. reflexivity.
Qed.

(** A sound eye is [EYE_INACTIVE] after at most [lifeBudget] calls of
    [updateEye], whatever the generator does. *)
Lemma every_eye_closes (e : Eye) (w : World) :
  eye_sound e ->
  exists n : nat,
    Z.of_nat n <= lifeBudget e /\
    state (fst (updateEyeN n e w)) = EYE_INACTIVE.
Proof.
  remember (Z.to_nat (lifeBudget e)) as b eqn:Hb.
  assert (Hle : lifeBudget e <= Z.of_nat b) by lia. clear Hb.
  revert e w Hle. induction b as [|b IH]; intros e w Hle Hs.
  - exists O. destruct (is_active e) eqn:A.
    + destruct (updateEye_budget e w Hs A) as [_ Hlt]. lia.
    + assert (Hi : state e = EYE_INACTIVE).
      { unfold is_active in A. destruct (state e); try discriminate A.
        reflexivity. }
      split; [unfold lifeBudget; rewrite Hi; simpl; lia | exact Hi].
  - destruct (is_active e) eqn:A.
    + destruct (updateEye_budget e w Hs A) as [Hs' Hlt].
      destruct (IH (fst (updateEye e w)) (snd (updateEye e w))
                  ltac:(lia) Hs') as (n & Hn & Hin).
      exists (S n). rewrite updateEyeN_S. split; [lia | exact Hin].
    + assert (Hi : state e = EYE_INACTIVE).
      { unfold is_active in A. destruct (state e); try discriminate A.
        reflexivity. }
      exists O. split; [unfold lifeBudget; rewrite Hi; simpl; lia | exact Hi].
Qed.

(** The eye [spawnEye] writes is sound when the display is at least 4
    wide. *)
Lemma spawned_sound (d : Display) (newY bl lt : Z) :
  display_ok d -> 0 <= Int.sub (Z.quot (width d) 2) 2 -> 1 <= bl < 5 ->
  eye_sound (spawned d newY bl lt).
Proof.
  intros Hd Hm Hb. destruct (spawned_maxOpen d Hd) as [E Hmax].
  unfold eye_sound, spawned.
  cbn [openAmount maxOpen blinksLeft state timer].
  rewrite E in *. sound_tac.
Qed.

(** Every active eye of the pool is sound between two frames. *)
Lemma reachable_eye_sound (d : Display) (w : World) :
  display_ok d -> 0 <= Int.sub (Z.quot (width d) 2) 2 ->
  reachable d w ->
  Forall (fun e => is_active e = true -> eye_sound e) (eyes w).
Proof.
  intros Hd Hm.
  apply (reachable_pool_inv d
           (Forall (fun e => is_active e = true -> eye_sound e))).
  - intros w0 Hf.
    destruct (spawnEye_cases d w0)
      as [_ [-> | (i & newY & bl & lt & _ & _ & _ & Hb & _ & ->)]];
      [exact Hf|].
    apply Forall_store; [exact Hf|]. intros _.
    apply spawned_sound; assumption.
  - apply Forall_forall. intros e He. apply repeat_spec in He. subst e.
    intros Ha. discriminate Ha.
  - intros es es' Hf Hs. induction Hs as [|e e' es es' St Hs IH].
    + constructor.
    + inversion Hf as [|? ? Qe Qes]; subst. constructor; [|apply IH; exact Qes].
      intros Ha. pose proof (eye_step_active _ _ St Ha) as Ha0.
      destruct St as [-> | [_ [w0 ->]]]; [apply Qe; exact Ha0|].
      apply updateEye_budget; [apply Qe; exact Ha0 | exact Ha0].
Qed.

(** C2. From the state [EYE_OPENING] that [spawnEye] leaves it in, the
    states an eye shows over any number of [updateEye] calls, each run
    of equal states counted once, are an initial part of
    Opening, Open, (BlinkClosing, BlinkOpening, Open) k times, Closing,
    Inactive, for some [k], and the whole of it once the eye is
    [EYE_INACTIVE], which an eye with sound fields becomes after
    finitely many calls. In particular a call in [EYE_BLINKING_CLOSE]
    stays there or goes to [EYE_BLINKING_OPEN], and no call ever
    produces [EYE_OPENING] from another state. *)
Theorem eye_follows_one_lifecycle (e : Eye) (w : World) (n : nat) :
  state e = EYE_OPENING ->
  (exists (k : nat) (rest : list EyeState),
      lifecycle k = destutter (stateTrace n e w) ++ rest /\
      (last (stateTrace n e w) EYE_OPENING = EYE_INACTIVE -> rest = [])) /\
  (eye_sound e ->
   exists (m k : nat), destutter (stateTrace m e w) = lifecycle k) /\
  (forall (e0 : Eye) (w0 : World),
      state e0 = EYE_BLINKING_CLOSE ->
      state (fst (updateEye e0 w0)) = EYE_BLINKING_CLOSE \/
      state (fst (updateEye e0 w0)) = EYE_BLINKING_OPEN) /\
  (forall (e0 : Eye) (w0 : World),
      state e0 <> EYE_OPENING ->
      state (fst (updateEye e0 w0)) <> EYE_OPENING).
Proof.
  intros Hs. split; [|split; [|split]].
  - destruct (trace_follows_lifecycle n e w) as (k & rest & Hp & Hl).
    rewrite Hs in Hp. exists k, rest. split; assumption.
  - intros Hsound.
    destruct (every_eye_closes e w Hsound) as (m & _ & Hm).
    destruct (trace_follows_lifecycle m e w) as (k & rest & Hp & Hl).
    rewrite Hs in Hp. rewrite stateTrace_last in Hl.
    rewrite (Hl Hm), app_nil_r in Hp.
    exists m, k. symmetry. exact Hp.
  - intros e0 w0 H0.
    pose proof (updateEye_transition e0 w0) as T. cbv zeta in T.
    rewrite H0 in T. tauto.
  - intros e0 w0 H0.
    pose proof (updateEye_transition e0 w0) as T. cbv zeta in T.
    destruct (state e0) eqn:E0; try congruence.
    + rewrite T. simpl. congruence.
    + destruct T as [(T & _) | [(T & _) | (T & _)]]; rewrite T; discriminate.
    + destruct T as [[T | T] _]; rewrite T; discriminate.
    + destruct T as [[T | T] _]; rewrite T; discriminate.
    + destruct T as [[T | T] _]; rewrite T; discriminate.
Qed.

Lemma eye_follows_one_lifecycle_witness :
  exists (k : nat) (rest : list EyeState),
    lifecycle k = destutter (stateTrace 700 demoFreshEye demoWorld) ++ rest /\
    (last (stateTrace 700 demoFreshEye demoWorld) EYE_OPENING = EYE_INACTIVE ->
     rest = []).
Proof.
  apply (proj1 (eye_follows_one_lifecycle demoFreshEye demoWorld 700
                  ltac:(reflexivity))).
Defined.

(** A whole life, run on the sample eye: two blinks, then closed. *)
Example demo_life :
  destutter (stateTrace 700 demoFreshEye demoWorld) = lifecycle 2.
Proof. vm_compute. reflexivity. Qed.

(* ------------------------------------------------------------------ *)
(** ** Background and digit column *)
(* ------------------------------------------------------------------ *)

Lemma random_two (w : World) :
  fst (random 2 w) = 0 \/ fst (random 2 w) = 1.
Proof.
  unfold random. pose proof (random_range_bounds 0 2 w ltac:(lia)). lia.
Qed.

(** One call of [driftBackground]: the pools and the digits are left
    alone, and the red level moves by at most one, away from the
    outside of 15..50. *)
Lemma driftBackground_spec (w : World) :
  let w' := snd (driftBackground w) in
  charOffset w' = charOffset w /\ digitChars w' = digitChars w /\
  same_pools w w' /\
  (14 <= bgRedVal w <= 51 -> 14 <= bgRedVal w' <= 51) /\
  (14 <= bgRedVal w <= 51 -> Z.abs (bgRedVal w' - bgRedVal w) <= 1).
Proof.
  unfold driftBackground, bind, gets, modify.
  pose proof (random_two w) as R1.
  pose proof (random_range_scene 0 2 w) as S1.
  unfold random in *.
  destruct (random_range 0 2 w) as [r w1]. cbn [fst snd] in *.
  unfold same_scene in S1. destruct S1 as (B1 & Ch1 & D1 & E1 & F1).
  assert (Hfit : forall z, 0 <= z <= 255 -> Int.to_uint8 z = z).
  { intros z Hz. unfold Int.to_uint8. apply Z.mod_small. lia. }
  rewrite B1. cbv zeta.
  pose proof (random_two w1) as R2.
  pose proof (random_range_scene 0 2 w1) as S2.
  unfold random in R2. unfold same_scene in S2.
  destruct S2 as (B2 & Ch2 & D2 & E2 & F2).
  destruct (bgRedVal w <? 15) eqn:T1; [|destruct (50 <? bgRedVal w) eqn:T2;
    [|destruct (negb (r =? 0)) eqn:T3]]; zbool.
  all: destruct (random_range 0 2 w1) as [k w2].
  all: unfold same_pools.
  all: cbn [snd bgRedVal charOffset digitChars eyes ripples set_bgRedVal fst] in *.
  all: split; [congruence|]; split; [congruence|]; split; [split; congruence|].
  all: split; intros Hr; rewrite Hfit by lia; lia.
Qed.

Lemma initDigit_spec (yOff col : Z) (w : World) :
  let dg := fst (initDigit yOff col w) in
  (character dg = 48 \/ character dg = 49) /\
  color dg = Int.to_uint16 col /\ yOffset dg = Int.to_int16 yOff /\
  same_scene w (snd (initDigit yOff col w)).
Proof.
  unfold initDigit, oneOrZero, bind, ret.
  pose proof (random_two w) as R. pose proof (random_range_scene 0 2 w) as Sc.
  unfold random in *. destruct (random_range 0 2 w) as [num w1].
  cbn [fst snd] in *. cbn [character color yOffset].
  repeat split; try apply Sc.
  destruct R as [-> | ->]; [left | right]; reflexivity.
Qed.

Lemma to_int16_fits (z : Z) : -32768 <= z <= 32767 -> Int.to_int16 z = z.
Proof. intros H. unfold Int.to_int16. rewrite Z.mod_small; lia. Qed.

Lemma to_int8_fits (z : Z) : -128 <= z <= 127 -> Int.to_int8 z = z.
Proof. intros H. unfold Int.to_int8. rewrite Z.mod_small; lia. Qed.

(** The offset between two digits, on a display of ordinary height. *)
Lemma columnOffset_range (d : Display) :
  0 <= height d <= 1400 -> -127 <= columnOffset d <= 0.
Proof.
  intros H. unfold columnOffset, charScale, digitCharCount.
  change (8 * 4 * (Z.of_nat 12 - 1)) with 352.
  change (Z.of_nat 12 - 1) with 11. change (8 * 4) with 32.
  pose proof (Z.quot_rem' (height d - 352) 11) as Q.
  destruct (Z.le_ge_cases 0 (height d - 352)) as [Hp | Hn].
  - pose proof (Z.rem_bound_pos_pos (height d - 352) 11 ltac:(lia) Hp). lia.
  - pose proof (Z.rem_bound_pos_neg (height d - 352) 11 ltac:(lia) Hn). lia.
Qed.

Lemma initDigits_spec (d : Display) (off : Z) (idx : list nat) :
  -128 <= off <= 0 -> 0 <= height d ->
  Forall (fun i => (i < digitCharCount)%nat) idx ->
  forall w,
    let r := initDigits idx off w in
    same_scene w (snd r) /\
    Forall2 (fun i dg =>
               (i < digitCharCount)%nat /\
               (character dg = 48 \/ character dg = 49) /\ color dg = WHITE /\
               yOffset dg = off * Z.of_nat i) idx (fst r).
Proof.
  intros Hoff Hh Hidx. induction Hidx as [|i idx Hi Hidx IH]; intros w r; subst r.
  - cbn [initDigits ret fst snd]. split; [unfold same_scene; tauto | constructor].
  - cbn [initDigits]. unfold bind, ret.
    pose proof (initDigit_spec (off * Z.of_nat i) WHITE w) as D. cbv zeta in D.
    destruct (initDigit (off * Z.of_nat i) WHITE w) as [dg w1].
    cbn [fst snd] in D. destruct D as (Dc & Dk & Dy & Ds).
    specialize (IH w1). cbv zeta in IH.
    destruct (initDigits idx off w1) as [dgs w2]. cbn [fst snd] in *.
    destruct IH as [I1 I2]. split.
    + unfold same_scene in *. intuition congruence.
    + constructor; [|exact I2]. split; [exact Hi|]. split; [exact Dc|]. split.
      * rewrite Dk. reflexivity.
      * rewrite Dy. apply to_int16_fits. unfold digitCharCount in Hi. nia.
Qed.

Lemma scrollDigits_spec (d : Display) (off : Z) (dgs : list DigitChar) :
  -128 <= off <= 0 -> 0 <= height d <= 32765 ->
  Forall (digit_ok d off) dgs ->
  forall w,
    let r := scrollDigits d off dgs w in
    same_scene w (snd r) /\ length (fst r) = length dgs /\
    Forall (digit_ok d off) (fst r) /\
    Forall2 (fun dg dg' =>
               yOffset dg' = yOffset dg + 2 \/
               (height d < yOffset dg + 2 /\ yOffset dg' = off)) dgs (fst r).
Proof.
  intros Hoff Hh Hok. induction Hok as [|dg dgs Hd Hok IH]; intros w r; subst r.
  - cbn [scrollDigits ret fst snd].
    split; [unfold same_scene; tauto|]. split; [reflexivity|].
    split; constructor.
  - cbn [scrollDigits]. unfold bind, ret. cbn [yOffset character color].
    destruct Hd as (Hc & Hk & Hy). unfold digitCharCount in Hy.
    change (Z.of_nat (12 - 1)) with 11 in Hy.
    rewrite (to_int16_fits (yOffset dg + 2)) by lia.
    destruct (height d <? yOffset dg + 2) eqn:E; zbool.
    + pose proof (initDigit_spec off WHITE w) as D. cbv zeta in D.
      destruct (initDigit off WHITE w) as [dg2 w1].
      cbn [fst snd] in D. destruct D as (Dc & Dk & Dy & Ds).
      specialize (IH w1). cbv zeta in IH.
      destruct (scrollDigits d off dgs w1) as [rest w2]. cbn [fst snd] in *.
      destruct IH as (I1 & I2 & I3 & I4).
      rewrite to_int16_fits in Dy by lia.
      split; [unfold same_scene in *; intuition congruence|].
      split; [cbn [length]; congruence|]. split.
      * constructor; [|exact I3]. split; [exact Dc|]. split; [exact Dk|].
        unfold digitCharCount. change (Z.of_nat (12 - 1)) with 11. lia.
      * constructor; [|exact I4]. right. split; [exact E | exact Dy].
    + specialize (IH w). cbv zeta in IH.
      destruct (scrollDigits d off dgs w) as [rest w2]. cbn [fst snd] in *.
      destruct IH as (I1 & I2 & I3 & I4).
      split; [exact I1|]. split; [cbn [length]; congruence|]. split.
      * constructor; [|exact I3]. split; [exact Hc|]. split; [exact Hk|].
        cbn [yOffset]. unfold digitCharCount. change (Z.of_nat (12 - 1)) with 11.
        lia.
      * constructor; [|exact I4]. left. reflexivity.
Qed.

Lemma replenish_same_but_eyes (d : Display) (a : Z) (w : World) :
  same_but_eyes w (snd (replenish d a w)).
Proof.
  assert (Hrefl : forall w0, same_but_eyes w0 w0)
    by (intros w0; unfold same_but_eyes; tauto).
  assert (Htrans : forall w1 w2 w3,
             same_but_eyes w1 w2 -> same_but_eyes w2 w3 -> same_but_eyes w1 w3)
    by (unfold same_but_eyes; intuition congruence).
  assert (Hsp : forall w0, same_but_eyes w0 (snd (spawnEye d w0)))
    by (intros w0; apply spawnEye_cases).
  assert (Hloop : forall fuel a0 w0,
             same_but_eyes w0 (snd (ensureTwoLoop fuel d a0 w0))).
  { induction fuel as [|fuel IH]; intros a0 w0; [apply Hrefl|].
    cbn [ensureTwoLoop]. destruct (a0 <? 2); [|apply Hrefl].
    unfold bind. specialize (Hsp w0). destruct (spawnEye d w0) as [u w1].
    eapply Htrans; [exact Hsp | apply IH]. }
  unfold replenish, ensureTwo, bind.
  specialize (Hloop (Z.to_nat (2 - a)) a w).
  destruct (ensureTwoLoop (Z.to_nat (2 - a)) d a w) as [n w1].
  cbn [snd] in Hloop. eapply Htrans; [exact Hloop|].
  unfold maybeSpawn, random, bind, ret.
  destruct (n <? 5); [|apply Hrefl].
  pose proof (random_range_scene 0 90 w1) as Sc.
  destruct (random_range 0 90 w1) as [r w2]. cbn [snd] in Sc.
  assert (S2 : same_but_eyes w1 w2)
    by (unfold same_scene, same_but_eyes in *; tauto).
  destruct (r =? 0); [eapply Htrans; [exact S2 | apply Hsp] | exact S2].
Qed.

(** The eye and ripple sections of a frame leave the background and
    the digit column as the first two sections made them. *)
Lemma frame_keeps_backdrop (d : Display) (w : World) :
  same_but_eyes_or_ripples (backdrop d w) (frame d w).
Proof.
  rewrite frame_unfold.
  destruct (updateEyes_spec (backdrop d w)) as (_ & S1 & _).
  pose proof (replenish_same_but_eyes d (fst (updateEyes (backdrop d w)))
                (snd (updateEyes (backdrop d w)))) as S2.
  unfold updateRipples, modify. cbn [snd].
  unfold same_but_eyes_or_ripples, same_but_eyes in *.
  cbn [bgRedVal charOffset digitChars set_ripples]. intuition congruence.
Qed.

Lemma backdrop_unfold (d : Display) (w : World) :
  backdrop d w = snd (scrollColumn d (snd (driftBackground w))).
Proof.
  unfold backdrop, bind. destruct (driftBackground w) as [u w1]. reflexivity.
Qed.

Lemma scrollDigits_scene (d : Display) (off : Z) (dgs : list DigitChar) :
  forall w, same_scene w (snd (scrollDigits d off dgs w)).
Proof.
  induction dgs as [|dg dgs IH]; intros w.
  - unfold same_scene. cbn [scrollDigits ret snd]. tauto.
  - cbn [scrollDigits]. unfold bind, ret. cbn [yOffset].
    destruct (height d <? Int.to_int16 (yOffset dg + 2)).
    + pose proof (initDigit_spec off WHITE w) as D. cbv zeta in D.
      destruct (initDigit off WHITE w) as [dg2 w1]. cbn [fst snd] in D.
      destruct D as (_ & _ & _ & Ds). specialize (IH w1).
      destruct (scrollDigits d off dgs w1) as [rest w2]. cbn [snd] in *.
      unfold same_scene in *. intuition congruence.
    + specialize (IH w). destruct (scrollDigits d off dgs w) as [rest w2].
      exact IH.
Qed.

Lemma scrollColumn_spec (d : Display) (w : World) :
  let w' := snd (scrollColumn d w) in
  bgRedVal w' = bgRedVal w /\ charOffset w' = charOffset w /\
  digitChars w' = fst (scrollDigits d (charOffset w) (digitChars w) w).
Proof.
  unfold scrollColumn, bind, gets, modify.
  pose proof (scrollDigits_scene d (charOffset w) (digitChars w) w) as Sc.
  destruct (scrollDigits d (charOffset w) (digitChars w) w) as [dgs w1].
  unfold same_scene in Sc.
  cbn [fst snd bgRedVal charOffset digitChars set_digitChars] in *. tauto.
Qed.

(** What a frame does to the background and the column, in one place. *)
Lemma frame_backdrop_step (d : Display) (w : World) :
  let w1 := snd (driftBackground w) in
  bgRedVal (frame d w) = bgRedVal w1 /\
  charOffset (frame d w) = charOffset w /\
  digitChars (frame d w) =
  fst (scrollDigits d (charOffset w) (digitChars w) w1).
Proof.
  intros w1. pose proof (frame_keeps_backdrop d w) as K.
  rewrite backdrop_unfold in K. fold w1 in K.
  destruct (scrollColumn_spec d w1) as (S1 & S2 & S3).
  destruct (driftBackground_spec w) as (D1 & D2 & _). fold w1 in D1, D2.
  unfold same_but_eyes_or_ripples in K. destruct K as (K1 & K2 & K3).
  rewrite K1, K2, K3, S1, S2, S3, D1, D2. tauto.
Qed.

Lemma initDigits_scene (off : Z) (idx : list nat) :
  forall w, same_scene w (snd (initDigits idx off w)).
Proof.
  induction idx as [|i idx IH]; intros w.
  - unfold same_scene. cbn [initDigits ret snd]. tauto.
  - cbn [initDigits]. unfold bind, ret.
    pose proof (initDigit_spec (off * Z.of_nat i) WHITE w) as D. cbv zeta in D.
    destruct (initDigit (off * Z.of_nat i) WHITE w) as [dg w1].
    cbn [fst snd] in D. destruct D as (_ & _ & _ & Ds).
    specialize (IH w1). destruct (initDigits idx off w1) as [dgs w2].
    cbn [snd] in *. unfold same_scene in *. intuition congruence.
Qed.

(** The background and the column as [setup()] leaves them. *)
Lemma boot_backdrop (d : Display) (r : Rng) :
  bgRedVal (boot d r) = 15 /\
  charOffset (boot d r) = Int.to_int8 (columnOffset d) /\
  digitChars (boot d r) =
  fst (initDigits (seq 0 digitCharCount) (Int.to_int8 (columnOffset d))
         (set_charOffset (Int.to_int8 (columnOffset d)) (powerOn r))).
Proof.
  unfold boot, initDigital, bind, modify. cbn [snd].
  fold (columnOffset d).
  pose proof (initDigits_scene (Int.to_int8 (columnOffset d))
                (seq 0 digitCharCount)
                (set_charOffset (Int.to_int8 (columnOffset d)) (powerOn r))) as Sc.
  destruct (initDigits (seq 0 digitCharCount) (Int.to_int8 (columnOffset d))
              (set_charOffset (Int.to_int8 (columnOffset d)) (powerOn r)))
    as [dgs w1].
  unfold same_scene in Sc.
  cbn [fst snd bgRedVal charOffset digitChars set_digitChars set_charOffset
       powerOn] in *.
  intuition congruence.
Qed.

(** X1. The red level of the background starts at 15 and stays within
    14..51 in every reachable world, so the [uint8_t] never wraps; one
    frame moves it by at most one. The drift is the only part of a
    frame that writes the level: the frame ends with the level that
    [driftBackground] left, and [driftBackground] itself changes
    nothing of the digit column, of the eye pool or of the ring pool. *)
Theorem background_red_stays_in_band (d : Display) (w : World) :
  reachable d w ->
  let drifted := snd (driftBackground w) in
  14 <= bgRedVal w <= 51 /\
  14 <= bgRedVal (frame d w) <= 51 /\
  Z.abs (bgRedVal (frame d w) - bgRedVal w) <= 1 /\
  bgRedVal (frame d w) = bgRedVal drifted /\
  charOffset drifted = charOffset w /\
  digitChars drifted = digitChars w /\
  eyes drifted = eyes w /\
  ripples drifted = ripples w.
Proof.
  intros Hr drifted.
  assert (Hb : 14 <= bgRedVal w <= 51).
  { induction Hr as [r | w Hr IH | w r Hr IH].
    - destruct (boot_backdrop d r) as (-> & _). lia.
    - destruct (frame_backdrop_step d w) as (-> & _).
      apply driftBackground_spec. exact IH.
    - exact IH. }
  split; [exact Hb|].
  destruct (frame_backdrop_step d w) as (Hf & _). fold drifted in Hf.
  destruct (driftBackground_spec w) as (D3 & D4 & [D5 D6] & D1 & D2).
  fold drifted in D1, D2, D3, D4, D5, D6.
  rewrite Hf.
  split; [apply D1; exact Hb|]. split; [apply D2; exact Hb|].
  repeat split; assumption.
Qed.

Lemma background_red_stays_in_band_witness :
  14 <= bgRedVal (frames 100 installation (boot installation demoRng)) <= 51.
Proof.
  refine (proj1 (background_red_stays_in_band installation
                   (frames 100 installation (boot installation demoRng)) _)).
  apply frames_reachable, reach_boot.
Defined.

(** The comment in the source promises 15..50; the code lets the level
    step one outside on either side before it turns. *)
Example background_red_reaches_14 :
  bgRedVal (frame installation (boot installation (fun _ => 1))) = 16 /\
  bgRedVal (frame installation
              (boot installation (fun n => if Nat.eqb n 13 then 1 else 0))) = 14.
Proof. vm_compute. split; reflexivity. Qed.

(** The column offset and the digits after [setup()]. *)
Lemma boot_column (d : Display) (r : Rng) :
  0 <= height d <= 1400 ->
  charOffset (boot d r) = columnOffset d /\
  Forall2 (fun i dg =>
             (i < digitCharCount)%nat /\
             (character dg = 48 \/ character dg = 49) /\ color dg = WHITE /\
             yOffset dg = columnOffset d * Z.of_nat i)
          (seq 0 digitCharCount) (digitChars (boot d r)).
Proof.
  intros Hh. pose proof (columnOffset_range d Hh) as Hc.
  destruct (boot_backdrop d r) as (_ & -> & ->).
  rewrite to_int8_fits by lia. split; [reflexivity|].
  apply (initDigits_spec d); try lia.
  apply Forall_forall. intros i Hi. apply in_seq in Hi. lia.
Qed.

Lemma Forall2_nth_both {A B : Type} (R : A -> B -> Prop)
      (l : list A) (l' : list B) (i : nat) (a : A) (b : B) :
  Forall2 R l l' -> nth_error l i = Some a -> nth_error l' i = Some b ->
  R a b.
Proof.
  intros H. revert i. induction H as [|a0 b0 l l' Hr H IH]; intros [|i] Ha Hb;
    simpl in Ha, Hb; try discriminate.
  - injection Ha as <-. injection Hb as <-. exact Hr.
  - eapply IH; eassumption.
Qed.

(** X2. [initDigital] lays the twelve digits out evenly: digit [i]
    starts at [i] times the column offset, which is minus
    [(height - 352) / 11 + 32] and fits the [int8_t] it is kept in on
    a display up to 1400 high; each digit is a white '0' or '1'. *)
Theorem initDigital_spaces_digits_evenly (d : Display) (r : Rng) (i : nat) :
  0 <= height d <= 1400 -> (i < 12)%nat ->
  charOffset (boot d r) = - (Z.quot (height d - 352) 11 + 32) /\
  -127 <= charOffset (boot d r) <= 0 /\
  length (digitChars (boot d r)) = 12%nat /\
  exists dg : DigitChar,
    nth_error (digitChars (boot d r)) i = Some dg /\
    yOffset dg = charOffset (boot d r) * Z.of_nat i /\
    (character dg = 48 \/ character dg = 49) /\ color dg = 65535.
Proof.
  intros Hh Hi. destruct (boot_column d r Hh) as [Hc Hd].
  pose proof (columnOffset_range d Hh) as Hrange.
  rewrite Hc. split.
  { unfold columnOffset, charScale, digitCharCount.
    change (8 * 4 * (Z.of_nat 12 - 1)) with 352.
    change (Z.of_nat 12 - 1) with 11. change (8 * 4) with 32. lia. }
  split; [exact Hrange|].
  pose proof (Forall2_length Hd) as Hl. rewrite length_seq in Hl.
  split; [symmetry; exact Hl|].
  destruct (nth_error (digitChars (boot d r)) i) as [dg|] eqn:E.
  - exists dg. split; [reflexivity|].
    assert (Hs : nth_error (seq 0 digitCharCount) i = Some i).
    { rewrite nth_error_seq.
      destruct (Nat.ltb_spec i digitCharCount) as [_ | Hge];
        [reflexivity | unfold digitCharCount in Hge; lia]. }
    destruct (Forall2_nth_both _ _ _ i i dg Hd Hs E) as (_ & H1 & H2 & H3).
    repeat split; assumption.
  - apply nth_error_None in E. unfold digitCharCount in Hl. lia.
Qed.

Lemma initDigital_spaces_digits_evenly_witness :
  charOffset (boot installation demoRng) = - (Z.quot (576 - 352) 11 + 32) /\
  -127 <= charOffset (boot installation demoRng) <= 0 /\
  length (digitChars (boot installation demoRng)) = 12%nat /\
  exists dg : DigitChar,
    nth_error (digitChars (boot installation demoRng)) 3 = Some dg /\
    yOffset dg = charOffset (boot installation demoRng) * Z.of_nat 3 /\
    (character dg = 48 \/ character dg = 49) /\ color dg = 65535.
Proof.
  apply (initDigital_spaces_digits_evenly installation demoRng 3).
  - simpl. lia.
  - lia.
Defined.

Lemma reachable_column (d : Display) (w : World) :
  0 <= height d <= 1400 -> reachable d w ->
  charOffset w = columnOffset d /\
  length (digitChars w) = digitCharCount /\
  Forall (digit_ok d (columnOffset d)) (digitChars w).
Proof.
  intros Hh Hr. pose proof (columnOffset_range d Hh) as Hc.
  induction Hr as [r | w Hr (I1 & I2 & I3) | w r Hr IH].
  - destruct (boot_column d r Hh) as [Hc1 Hc2].
    split; [exact Hc1|].
    pose proof (Forall2_length Hc2) as Hl. rewrite length_seq in Hl.
    split; [symmetry; exact Hl|].
    clear Hl. induction Hc2 as [|i dg idx dgs (H0 & H1 & H2 & H3) Hc2 IH].
    + constructor.
    + constructor; [|exact IH].
      split; [exact H1|]. split; [exact H2|].
      rewrite H3. unfold digitCharCount in *. change (Z.of_nat (12 - 1)) with 11.
      nia.
  - destruct (frame_backdrop_step d w) as (_ & F2 & F3).
    rewrite F2, F3, I1.
    destruct (scrollDigits_spec d (columnOffset d) (digitChars w)
                ltac:(lia) ltac:(lia) I3 (snd (driftBackground w)))
      as (_ & S2 & S3 & _).
    split; [reflexivity|]. split; [congruence | exact S3].
  - exact IH.
Qed.

(** X3. On a display up to 1400 high the digit column keeps its
    shape in every reachable world: twelve digits, each a white '0'
    or '1', each between eleven column offsets above the top and the
    bottom edge; and a frame moves every digit down by 2, or back to
    the column offset when that would take it past the bottom. *)
Theorem digit_column_keeps_its_shape (d : Display) (w : World) :
  0 <= height d <= 1400 -> reachable d w ->
  charOffset w = - (Z.quot (height d - 352) 11 + 32) /\
  length (digitChars w) = 12%nat /\
  Forall (fun dg =>
            (character dg = 48 \/ character dg = 49) /\ color dg = 65535 /\
            11 * charOffset w <= yOffset dg <= height d) (digitChars w) /\
  Forall2 (fun dg dg' =>
             yOffset dg' = yOffset dg + 2 \/
             (height d < yOffset dg + 2 /\ yOffset dg' = charOffset w))
          (digitChars w) (digitChars (frame d w)).
Proof.
  intros Hh Hr. pose proof (columnOffset_range d Hh) as Hc.
  destruct (reachable_column d w Hh Hr) as (I1 & I2 & I3).
  split.
  { rewrite I1. unfold columnOffset, charScale, digitCharCount.
    change (8 * 4 * (Z.of_nat 12 - 1)) with 352.
    change (Z.of_nat 12 - 1) with 11. change (8 * 4) with 32. lia. }
  split; [exact I2|]. split.
  - rewrite I1. exact I3.
  - destruct (frame_backdrop_step d w) as (_ & _ & ->).
    rewrite I1.
    apply (scrollDigits_spec d (columnOffset d) (digitChars w)
             ltac:(lia) ltac:(lia) I3 (snd (driftBackground w))).
Qed.

Lemma digit_column_keeps_its_shape_witness :
  length (digitChars (frames 400 installation (boot installation demoRng)))
  = 12%nat.
Proof.
  refine (proj1 (proj2 (digit_column_keeps_its_shape installation
           (frames 400 installation (boot installation demoRng)) _ _))).
  - simpl. lia.
  - apply frames_reachable, reach_boot.
Defined.

(* ------------------------------------------------------------------ *)
(** ** The iris *)
(* ------------------------------------------------------------------ *)

Lemma random_range_sym (m : Z) (w : World) :
  0 <= m <= Int.max_int - 1 ->
  - m <= fst (random_range (Int.sub 0 m) (Int.add m 1) w) <= m.
Proof.
  intros Hm. rewrite sub_exact by int_lia. rewrite add_exact by int_lia.
  pose proof (random_range_bounds (0 - m) (m + 1) w ltac:(lia)). lia.
Qed.


Lemma pursue_closer (pos target : Z) :
  Z.abs (pursue pos target - target) = Z.max 0 (Z.abs (pos - target) - 1).
Proof. unfold pursue. repeat break_if; zbool; lia. Qed.

(** What one call of [updateIris] does to an eye that is open wider
    than 3. *)
Lemma updateIris_spec (e : Eye) (w : World) :
  3 < openAmount e -> openAmount e <= Int.max_int ->
  0 <= halfHeight e <= Int.max_int ->
  Int.min_int < lookTimer e <= Int.max_int ->
  Int.min_int < irisX e < Int.max_int ->
  Int.min_int < irisY e < Int.max_int ->
  let e' := fst (updateIris e w) in
  (if lookTimer e - 1 <=? 0
   then 30 <= lookTimer e' < 120 /\
        Z.abs (irisTargetX e') <= Z.quot (openAmount e) 3 /\
        Z.abs (irisTargetY e') <= Z.quot (halfHeight e) 5
   else lookTimer e' = lookTimer e - 1 /\
        irisTargetX e' = irisTargetX e /\ irisTargetY e' = irisTargetY e) /\
  irisX e' = pursue (irisX e) (irisTargetX e') /\
  irisY e' = pursue (irisY e) (irisTargetY e').
Proof.
  intros Ho Homax Hh Hl Hx Hy e'.
  assert (Hq3 : 0 <= Z.quot (openAmount e) 3 <= Int.max_int - 1).
  { pose proof (Z.quot_rem' (openAmount e) 3).
    pose proof (Z.rem_bound_pos_pos (openAmount e) 3 ltac:(lia) ltac:(lia)).
    int_lia. }
  assert (Hq5 : 0 <= Z.quot (halfHeight e) 5 <= Int.max_int - 1).
  { pose proof (Z.quot_rem' (halfHeight e) 5).
    pose proof (Z.rem_bound_pos_pos (halfHeight e) 5 ltac:(lia) ltac:(lia)).
    int_lia. }
  subst e'. unfold updateIris.
  destruct (openAmount e <=? 3) eqn:E0; zbool; [lia|].
  unfold bind, ret.
  cbn [lookTimer set_lookTimer openAmount halfHeight].
  rewrite (sub_exact (lookTimer e) 1) by int_lia.
  destruct (lookTimer e - 1 <=? 0) eqn:E1.
  - pose proof (random_range_sym (Z.quot (openAmount e) 3) w Hq3) as Rx.
    destruct (random_range (Int.sub 0 (Z.quot (openAmount e) 3))
                (Int.add (Z.quot (openAmount e) 3) 1) w) as [tx w1].
    pose proof (random_range_sym (Z.quot (halfHeight e) 5) w1 Hq5) as Ry.
    destruct (random_range (Int.sub 0 (Z.quot (halfHeight e) 5))
                (Int.add (Z.quot (halfHeight e) 5) 1) w1) as [ty w2].
    pose proof (random_range_bounds 30 120 w2 ltac:(lia)) as Rl.
    destruct (random_range 30 120 w2) as [lt w3].
    cbn [fst snd] in *.
    cbn [irisX irisY irisTargetX irisTargetY lookTimer
         set_lookTimer set_irisTargetX set_irisTargetY set_irisX set_irisY].
    unfold pursue.
    repeat break_if; zbool;
      cbn [irisX irisY irisTargetX irisTargetY lookTimer
           set_lookTimer set_irisTargetX set_irisTargetY set_irisX set_irisY]
        in *;
      rewrite ?add_exact, ?sub_exact in * by int_lia;
      repeat split; lia.
  - cbn [fst snd].
    cbn [irisX irisY irisTargetX irisTargetY lookTimer
         set_lookTimer set_irisTargetX set_irisTargetY set_irisX set_irisY].
    unfold pursue.
    repeat break_if; zbool;
      cbn [irisX irisY irisTargetX irisTargetY lookTimer
           set_lookTimer set_irisTargetX set_irisTargetY set_irisX set_irisY]
        in *;
      rewrite ?add_exact, ?sub_exact in * by int_lia;
      repeat split; lia.
Qed.

(** X4. A call of [updateIris] on an eye that is open wider than 3
    counts [lookTimer] down; when the count reaches 0 it draws a new
    target within [openAmount / 3] horizontally and [halfHeight / 5]
    vertically and a new count in 30..119. The iris then moves one
    pixel toward the target on each axis and stays when it is there,
    so the distance to the target shrinks by one and never overshoots;
    the lids, the position and the timers of the eye are not
    touched. *)
Theorem iris_pursues_its_target (e : Eye) (w : World) :
  3 < openAmount e -> openAmount e <= Int.max_int ->
  0 <= halfHeight e <= Int.max_int ->
  Int.min_int < lookTimer e <= Int.max_int ->
  Int.min_int < irisX e < Int.max_int ->
  Int.min_int < irisY e < Int.max_int ->
  let e' := fst (updateIris e w) in
  same_body e e' /\
  (if lookTimer e - 1 <=? 0
   then 30 <= lookTimer e' < 120 /\
        Z.abs (irisTargetX e') <= Z.quot (openAmount e) 3 /\
        Z.abs (irisTargetY e') <= Z.quot (halfHeight e) 5
   else lookTimer e' = lookTimer e - 1 /\
        irisTargetX e' = irisTargetX e /\ irisTargetY e' = irisTargetY e) /\
  Z.abs (irisX e' - irisTargetX e') =
    Z.max 0 (Z.abs (irisX e - irisTargetX e') - 1) /\
  Z.abs (irisY e' - irisTargetY e') =
    Z.max 0 (Z.abs (irisY e - irisTargetY e') - 1) /\
  Z.abs (irisX e' - irisX e) <= 1 /\ Z.abs (irisY e' - irisY e) <= 1.
Proof.
  intros Ho Homax Hh Hl Hx Hy e'.
  split; [apply updateIris_body|].
  destruct (updateIris_spec e w Ho Homax Hh Hl Hx Hy) as (Hc1 & Hc2 & Hc3).
  fold e' in Hc1, Hc2, Hc3.
  split; [exact Hc1|].
  rewrite Hc2, Hc3.
  repeat split; try apply pursue_closer;
    unfold pursue; repeat break_if; zbool; lia.
Qed.

Lemma iris_pursues_its_target_witness :
  let e := mkEye 16 300 EYE_OPEN 14 14 25 5 1 0 0 3 (-2) 1 in
  let e' := fst (updateIris e (powerOn demoRng)) in
  Z.abs (irisX e' - irisTargetX e') =
    Z.max 0 (Z.abs (irisX e - irisTargetX e') - 1).
Proof.
  intros e e'.
  refine (proj1 (proj2 (proj2
    (iris_pursues_its_target e (powerOn demoRng) _ _ _ _ _ _)))).
  all: unfold e; cbn [openAmount halfHeight lookTimer irisX irisY];
    unfold Int.min_int, Int.max_int; lia.
Defined.

(** How the iris fields of [updateEye]'s result come about: they are
    the old ones, or those of [updateIris] run on an eye with the old
    iris fields and the new width. *)
Lemma updateEye_iris_via (e : Eye) (w : World) :
  let e' := fst (updateEye e w) in
  same_iris e e' \/
  exists (e1 : Eye) (w1 : World),
    same_iris e e1 /\ halfHeight e1 = halfHeight e /\
    openAmount e1 = openAmount e' /\ e' = fst (updateIris e1 w1).
Proof.
  intros e'. subst e'. unfold updateEye.
  destruct (state e).
  - left. cbn [fst ret]. unfold same_iris. tauto.
  - right. unfold bind, ret. cbv zeta.
    destruct (maxOpen _ <=? openAmount _).
    + destruct (random_range 60 180 w) as [t w1]. cbn [fst snd].
      eexists _, w1. split; [|split; [|split; [|reflexivity]]].
      * unfold same_iris. cbn. tauto.
      * reflexivity.
      * symmetry. apply updateIris_body.
    + cbn [fst snd].
      eexists _, w. split; [|split; [|split; [|reflexivity]]].
      * unfold same_iris. cbn. tauto.
      * reflexivity.
      * symmetry. apply updateIris_body.
  - right. unfold bind, ret. cbv zeta.
    destruct (timer _ <=? 0).
    + destruct (0 <? blinksLeft _).
      * destruct (spawnRipples _ w) as [u w1]. cbn [fst snd].
        eexists _, w1. split; [|split; [|split; [|reflexivity]]].
        -- unfold same_iris. cbn. tauto.
        -- reflexivity.
        -- symmetry. apply updateIris_body.
      * cbn [fst snd].
        eexists _, w. split; [|split; [|split; [|reflexivity]]].
        -- unfold same_iris. cbn. tauto.
        -- reflexivity.
        -- symmetry. apply updateIris_body.
    + cbn [fst snd].
      eexists _, w. split; [|split; [|split; [|reflexivity]]].
      * unfold same_iris. cbn. tauto.
      * reflexivity.
      * symmetry. apply updateIris_body.
  - left. cbv zeta. unfold ret. destruct (_ <=? 0); cbn [fst];
      unfold same_iris; cbn; tauto.
  - right. unfold bind, ret. cbv zeta.
    destruct (maxOpen _ <=? openAmount _).
    + destruct (random_range 60 180 w) as [t w1]. cbn [fst snd].
      eexists _, w1. split; [|split; [|split; [|reflexivity]]].
      * unfold same_iris. cbn. tauto.
      * reflexivity.
      * symmetry. apply updateIris_body.
    + cbn [fst snd].
      eexists _, w. split; [|split; [|split; [|reflexivity]]].
      * unfold same_iris. cbn. tauto.
      * reflexivity.
      * symmetry. apply updateIris_body.
  - left. cbv zeta. unfold ret. destruct (_ <=? 0); cbn [fst];
      unfold same_iris; cbn; tauto.
Qed.


Lemma updateEye_gaze_bounds (e : Eye) (w : World) :
  is_active e = true ->
  0 <= openAmount e <= maxOpen e -> maxOpen e <= 16381 ->
  halfHeight e = EYE_HALF_HEIGHT ->
  gaze_within e ->
  let e' := fst (updateEye e w) in
  Z.abs (irisX e') <= Z.quot (maxOpen e') 3 /\
  Z.abs (irisTargetX e') <= Z.quot (maxOpen e') 3 /\
  Z.abs (irisY e') <= 5 /\ Z.abs (irisTargetY e') <= 5 /\
  1 <= lookTimer e' <= 119.
Proof.
  intros Ha Ho Hm Hh Hg e'. subst e'. specialize (Hg Ha).
  destruct Hg as (Gx & Gtx & Gy & Gty & Gl).
  destruct (updateEye_geometry e w) as (_ & _ & Gm & _ & _).
  pose proof (updateEye_open_within e w Ho ltac:(int_lia)) as Ho'.
  rewrite Gm in *.
  destruct (updateEye_iris_via e w) as [S | (e1 & w1 & S & Hh1 & Ho1 & E)].
  - destruct S as (-> & -> & -> & -> & ->). tauto.
  - destruct S as (Sx & Sy & Stx & Sty & Sl).
    destruct (Z.le_gt_cases (openAmount e1) 3) as [Hc | Hc].
    + rewrite (updateIris_closed e1 w1 Hc) in E. cbn [fst] in E.
      rewrite E, Sx, Sy, Stx, Sty, Sl. tauto.
    + assert (Hq : Z.quot (openAmount e1) 3 <= Z.quot (maxOpen e) 3).
      { apply Z.quot_le_mono; lia. }
      assert (H5 : Z.quot (halfHeight e1) 5 = 5).
      { rewrite Hh1, Hh. reflexivity. }
      assert (Hq0 : Z.quot (maxOpen e) 3 <= maxOpen e).
      { pose proof (Z.quot_rem' (maxOpen e) 3).
        pose proof (Z.rem_bound_pos_pos (maxOpen e) 3 ltac:(lia) ltac:(lia)).
        lia. }
      assert (Hs : let e2 := fst (updateIris e1 w1) in _)
        by (apply (updateIris_spec e1 w1);
            int_lia).
      cbv zeta in Hs. destruct Hs as (T & Px & Py).
      rewrite <- E in T, Px, Py.
      rewrite Sx in Px. rewrite Sy in Py. rewrite Sl, Stx, Sty, H5 in T.
      assert (Tb : Z.abs (irisTargetX (fst (updateEye e w))) <=
                     Z.quot (maxOpen e) 3 /\
                   Z.abs (irisTargetY (fst (updateEye e w))) <= 5 /\
                   1 <= lookTimer (fst (updateEye e w)) <= 119).
      { destruct (lookTimer e - 1 <=? 0) eqn:El; zbool.
        - lia.
        - destruct T as (-> & -> & ->). lia. }
      destruct Tb as (Tx & Ty & Tl).
      rewrite Px, Py. unfold pursue.
      repeat break_if; zbool; lia.
Qed.

Lemma updateEye_gaze (e : Eye) (w : World) :
  is_active e = true ->
  0 <= openAmount e <= maxOpen e -> maxOpen e <= 16381 ->
  halfHeight e = EYE_HALF_HEIGHT ->
  gaze_within e -> gaze_within (fst (updateEye e w)).
Proof.
  intros Ha Ho Hm Hh Hg _. apply updateEye_gaze_bounds; assumption.
Qed.

Lemma eye_steps_steady (es es' : list Eye) :
  Forall steady_eye es -> Forall2 eye_step es es' -> Forall steady_eye es'.
Proof.
  intros Hf Hs. induction Hs as [|e e' es es' St Hs IH].
  - constructor.
  - inversion Hf as [|? ? Qe Qes]; subst. constructor; [|apply IH; exact Qes].
    destruct St as [-> | [Ha [w ->]]]; [exact Qe|].
    destruct Qe as (Qo & Qh & Qg).
    destruct (Qo Ha) as [Hb Hm].
    destruct (updateEye_geometry e w) as (_ & _ & Gm & Gh & _).
    split; [|split].
    + intros _. split; [apply updateEye_open_within; [exact Hb | int_lia]
                       | rewrite Gm; exact Hm].
    + intros _. rewrite Gh. apply Qh, Ha.
    + apply updateEye_gaze; auto.
Qed.

Lemma reachable_steady (d : Display) (w : World) :
  display_ok d -> 0 <= Int.sub (Z.quot (width d) 2) 2 ->
  reachable d w -> Forall steady_eye (eyes w).
Proof.
  intros Hd Hm.
  apply (reachable_pool_inv d (Forall steady_eye)).
  - intros w0 Hf.
    destruct (spawnEye_cases d w0)
      as [_ [-> | (i & newY & bl & lt & _ & _ & _ & _ & Hl & ->)]];
      [exact Hf|].
    apply Forall_store; [exact Hf|].
    destruct (spawned_maxOpen d Hd) as [E Hb].
    split; [|split]; intros _; unfold spawned;
      cbn [openAmount maxOpen halfHeight irisX irisY irisTargetX irisTargetY
           lookTimer].
    + rewrite E in *. lia.
    + reflexivity.
    + rewrite E in *.
      assert (0 <= Z.quot (Z.quot (width d) 2 - 2) 3)
        by (apply Z.quot_pos; lia).
      cbn [Z.abs]. lia.
  - apply Forall_forall. intros e He. apply repeat_spec in He. subst e.
    split; [|split]; intros Ha; discriminate Ha.
  - apply eye_steps_steady.
Qed.

(** X5. On a display with 16-bit dimensions and width at least 4, in
    every world between two frames the iris of every active eye, and
    the target it moves to, lie within a third of [maxOpen] of the
    centre of the eye horizontally and within 5 pixels of it
    vertically, and [lookTimer] is between 1 and 119. *)
Theorem iris_stays_in_the_middle (d : Display) (w : World) :
  display_ok d -> 0 <= Int.sub (Z.quot (width d) 2) 2 ->
  reachable d w ->
  Forall (fun e => is_active e = true ->
            Z.abs (irisX e) <= Z.quot (maxOpen e) 3 /\
            Z.abs (irisTargetX e) <= Z.quot (maxOpen e) 3 /\
            Z.abs (irisY e) <= 5 /\ Z.abs (irisTargetY e) <= 5 /\
            1 <= lookTimer e <= 119) (eyes w).
Proof.
  intros Hd Hm Hr.
  pose proof (reachable_steady d w Hd Hm Hr) as Hf.
  eapply Forall_impl; [|exact Hf].
  intros e (_ & _ & Hg). exact Hg.
Qed.

Lemma iris_stays_in_the_middle_witness :
  Forall (fun e => is_active e = true ->
            Z.abs (irisX e) <= Z.quot (maxOpen e) 3 /\
            Z.abs (irisTargetX e) <= Z.quot (maxOpen e) 3 /\
            Z.abs (irisY e) <= 5 /\ Z.abs (irisTargetY e) <= 5 /\
            1 <= lookTimer e <= 119)
         (eyes (frames 300 demoDisplay64 (boot demoDisplay64 demoRng))).
Proof.
  refine (iris_stays_in_the_middle demoDisplay64 _ _ _ _).
  - unfold display_ok, Int.in_int16, demoDisplay64. simpl. lia.
  - vm_compute. discriminate.
  - apply frames_reachable, reach_boot.
Defined.

(* ------------------------------------------------------------------ *)
(** ** Placing an eye *)
(* ------------------------------------------------------------------ *)

(** With the slot to fill inactive, the check of a candidate fails
    exactly when some active eye is too close. *)
Lemma spacingValid_too_closeb (i : nat) (newY : Z) (es : list Eye) :
  forall j : nat,
    (forall (k : nat) (e : Eye),
       nth_error es k = Some e -> (j + k)%nat = i -> is_active e = false) ->
    spacingValid i j newY es = negb (too_closeb newY es).
Proof.
  induction es as [|e es IH]; intros j Hi; [reflexivity|].
  cbn [spacingValid too_closeb existsb].
  fold (too_closeb newY es).
  destruct (Nat.eqb j i) eqn:Ej.
  - apply Nat.eqb_eq in Ej.
    rewrite (Hi O e eq_refl ltac:(lia)). cbn [negb andb orb].
    apply IH. intros k e0 Hk Hjk. lia.
  - cbn [negb andb].
    destruct (is_active e && (Int.abs (Int.sub newY (y e)) <? EYE_MIN_SPACING));
      cbn [orb negb]; [reflexivity|].
    apply IH. intros k e0 Hk Hjk. apply (Hi (S k) e0 Hk). lia.
Qed.

Lemma firstInactiveEye_check (es : list Eye) (i : nat) (newY : Z) :
  firstInactiveEye es = Some i ->
  spacingValid i O newY es = negb (too_closeb newY es).
Proof.
  intros F. destruct (firstInactiveEye_Some _ _ F) as (e0 & Hn & Hin).
  apply spacingValid_too_closeb. intros k e Hk Hki. cbn in Hki. subst k.
  congruence.
Qed.

(** The sampling loop stops at the first candidate that passes. *)
Lemma sampleY_first (n : nat) (d : Display) (i : nat) :
  forall (k : nat) (y0 : Z) (w : World),
    (k < n)%nat ->
    (forall j : nat, (j < k)%nat ->
       spacingValid i O (candidate d w j) (eyes w) = false) ->
    spacingValid i O (candidate d w k) (eyes w) = true ->
    sampleY n d i y0 false w = ((candidate d w k, true), afterDraws (S k) d w).
Proof.
  induction n as [|n IH]; intros k y0 w Hk Hrej Hacc; [lia|].
  cbn [sampleY]. unfold bind, gets, ret.
  fold safeLow. fold (safeHigh d).
  pose proof (random_range_scene safeLow (safeHigh d) w) as Sc.
  assert (He : eyes (snd (random_range safeLow (safeHigh d) w)) = eyes w)
    by (unfold same_scene in Sc; tauto).
  destruct k as [|k].
  - unfold candidate in Hacc. cbn [afterDraws] in *.
    destruct (random_range safeLow (safeHigh d) w) as [newY w1] eqn:R.
    cbn [fst snd] in *. rewrite He, Hacc.
    unfold candidate. cbn [afterDraws]. rewrite R. reflexivity.
  - pose proof (Hrej O ltac:(lia)) as H0. unfold candidate in H0.
    cbn [afterDraws] in H0.
    specialize (IH k (fst (random_range safeLow (safeHigh d) w))
                  (snd (random_range safeLow (safeHigh d) w)) ltac:(lia)).
    rewrite He in IH.
    assert (Hshift : forall q,
               candidate d (snd (random_range safeLow (safeHigh d) w)) q =
               candidate d w (S q)) by reflexivity.
    rewrite Hshift in IH.
    change (afterDraws (S k) d (snd (random_range safeLow (safeHigh d) w)))
      with (afterDraws (S (S k)) d w) in IH.
    destruct (random_range safeLow (safeHigh d) w) as [newY w1].
    cbn [fst snd] in *. rewrite He, H0.
    apply IH; [|exact Hacc].
    intros j Hj. rewrite Hshift. apply Hrej. lia.
Qed.

(** X6. [spawnEye] takes the first of its candidate positions that is
    not within [EYE_MIN_SPACING] of an active eye: if candidates
    [0 .. k-1] are too close and candidate [k < 20] is not, the first
    inactive slot receives an eye at candidate [k], centred
    horizontally, [EYE_OPENING] with [openAmount = 0], with a blink
    count in 1..4 and a look timer in 20..59 taken from the next two
    draws; every other slot and the rest of the scene stay as they
    were, and the number of active eyes grows by one. *)
Theorem spawn_takes_first_free_position
        (d : Display) (w : World) (i k : nat) :
  firstInactiveEye (eyes w) = Some i -> (k < 20)%nat ->
  (forall j : nat, (j < k)%nat ->
     too_closeb (candidate d w j) (eyes w) = true) ->
  too_closeb (candidate d w k) (eyes w) = false ->
  let w1 := afterDraws (S k) d w in
  let bl := fst (random_range 1 5 w1) in
  let lt := fst (random_range 20 60 (snd (random_range 1 5 w1))) in
  eyes (snd (spawnEye d w)) =
    store i (spawned d (candidate d w k) bl lt) (eyes w) /\
  1 <= bl <= 4 /\ 20 <= lt <= 59 /\
  same_but_eyes w (snd (spawnEye d w)) /\
  activeCount (eyes (snd (spawnEye d w))) = activeCount (eyes w) + 1.
Proof.
  intros F Hk Hrej Hacc w1 bl lt.
  assert (E : eyes (snd (spawnEye d w)) =
              store i (spawned d (candidate d w k) bl lt) (eyes w)).
  { unfold spawnEye, bind, gets. rewrite F.
    rewrite (sampleY_first 20 d i k 0 w Hk).
    - cbn [negb]. fold w1. unfold modify.
      subst bl lt.
      pose proof (random_range_scene 1 5 w1) as S1.
      destruct (random_range 1 5 w1) as [b w2]. cbn [fst snd] in *.
      pose proof (random_range_scene 20 60 w2) as S2.
      destruct (random_range 20 60 w2) as [l w3]. cbn [fst snd] in *.
      cbn [eyes set_eyes]. unfold spawned.
      replace (eyes w3) with (eyes w); [reflexivity|].
      unfold same_scene in S1, S2. destruct S1 as (_ & _ & _ & S1 & _).
      destruct S2 as (_ & _ & _ & S2 & _). rewrite S2, S1.
      symmetry. apply afterDraws_eyes.
    - intros j Hj. rewrite (firstInactiveEye_check _ _ _ F), (Hrej j Hj).
      reflexivity.
    - rewrite (firstInactiveEye_check _ _ _ F), Hacc. reflexivity. }
  split; [exact E|].
  pose proof (random_range_bounds 1 5 w1 ltac:(lia)) as Bb.
  pose proof (random_range_bounds 20 60 (snd (random_range 1 5 w1))
                ltac:(lia)) as Bl.
  fold bl in Bb. fold lt in Bl.
  split; [lia|]. split; [lia|].
  split; [apply spawnEye_cases|].
  rewrite E.
  destruct (firstInactiveEye_Some _ _ F) as (e0 & Hn & Hin).
  apply (activeCount_store i _ e0); [exact Hn | exact Hin | reflexivity].
Qed.

Lemma spawn_takes_first_free_position_witness :
  let w := snd (spawnEye installation
                  (boot installation (fun n => 11 * Z.of_nat n))) in
  activeCount (eyes (snd (spawnEye installation w))) =
  activeCount (eyes w) + 1.
Proof.
  intros w.
  refine (proj2 (proj2 (proj2 (proj2
    (spawn_takes_first_free_position installation w 1 2 _ _ _ _))))).
  - vm_compute. reflexivity.
  - lia.
  - intros [|[|j]] Hj; [vm_compute; reflexivity | vm_compute; reflexivity | lia].
  - vm_compute. reflexivity.
Defined.

(* ------------------------------------------------------------------ *)
(** ** A frame, eye by eye *)
(* ------------------------------------------------------------------ *)

Lemma updateEyesLoop_ticks (es : list Eye) :
  forall (n : Z) (w : World),
    Forall2 eye_tick es (fst (fst (updateEyesLoop es n w))).
Proof.
  induction es as [|e es IH]; intros n w.
  - constructor.
  - cbn [updateEyesLoop]. destruct (is_active e) eqn:A; unfold bind, ret.
    + assert (T : eye_tick e (fst (updateEye e w))).
      { unfold eye_tick. rewrite A. exists w. reflexivity. }
      destruct (updateEye e w) as [e' w1]. cbn [fst] in T.
      specialize (IH (Int.add n 1) w1).
      destruct (updateEyesLoop es (Int.add n 1) w1) as [[es' n'] w2].
      cbn [fst] in *. constructor; assumption.
    + specialize (IH n w).
      destruct (updateEyesLoop es n w) as [[es' n'] w2].
      cbn [fst] in *. constructor; [|assumption].
      unfold eye_tick. rewrite A. reflexivity.
Qed.

Lemma updateEyes_ticks (w : World) :
  Forall2 eye_tick (eyes w) (eyes (snd (updateEyes w))).
Proof.
  unfold updateEyes, bind, gets, modify, ret.
  pose proof (updateEyesLoop_ticks (eyes w) 0 w) as L.
  destruct (updateEyesLoop (eyes w) 0 w) as [[es' n'] w1].
  exact L.
Qed.

(** [spawnEye] writes to an inactive slot or to none. *)
Lemma spawnEye_slot (d : Display) (w : World) (i : nat) (e : Eye) :
  nth_error (eyes w) i = Some e ->
  nth_error (eyes (snd (spawnEye d w))) i = Some e \/
  (is_active e = false /\
   exists newY bl lt : Z,
     nth_error (eyes (snd (spawnEye d w))) i = Some (spawned d newY bl lt)).
Proof.
  intros Hn.
  destruct (spawnEye_cases d w)
    as [_ [-> | (j & newY & bl & lt & Hj & _ & _ & _ & _ & ->)]];
    [left; exact Hn|].
  destruct (firstInactiveEye_Some _ _ Hj) as (e0 & Hn0 & Hin).
  destruct (Nat.eq_dec j i) as [-> | Hji].
  - right. split; [congruence|]. exists newY, bl, lt.
    apply store_nth_eq. apply nth_error_Some. congruence.
  - left. rewrite store_nth_ne by exact Hji. exact Hn.
Qed.

Lemma Forall2_nth_fwd {A B : Type} (R : A -> B -> Prop)
      (l : list A) (l' : list B) (i : nat) (a : A) :
  Forall2 R l l' -> nth_error l i = Some a ->
  exists b, nth_error l' i = Some b /\ R a b.
Proof.
  intros H. revert i. induction H as [|a0 b0 l l' Hr H IH]; intros [|i] Hn;
    simpl in Hn; try discriminate.
  - injection Hn as <-. exists b0. split; [reflexivity | exact Hr].
  - apply IH, Hn.
Qed.

(** The replenishment step leaves an active eye where it is. *)
Lemma replenish_keeps_active (d : Display) (a : Z) (w : World)
      (i : nat) (e : Eye) :
  is_active e = true -> nth_error (eyes w) i = Some e ->
  nth_error (eyes (snd (replenish d a w))) i = Some e.
Proof.
  intros Ha.
  apply (replenish_inv d (fun es => nth_error es i = Some e)).
  intros w0 Hn. destruct (spawnEye_slot d w0 i e Hn) as [H | [H _]];
    [exact H | congruence].
Qed.

(** A slot that was inactive, or has just been retired, holds its old
    record or a freshly spawned eye after the replenishment step. *)
Lemma replenish_free_slot (d : Display) (a : Z) (w : World)
      (i : nat) (e : Eye) :
  nth_error (eyes w) i = Some e ->
  exists e2, nth_error (eyes (snd (replenish d a w))) i = Some e2 /\
    (e2 = e \/ exists newY bl lt : Z, e2 = spawned d newY bl lt).
Proof.
  intros Hn.
  apply (replenish_inv d
           (fun es => exists e2, nth_error es i = Some e2 /\
              (e2 = e \/ exists newY bl lt : Z, e2 = spawned d newY bl lt))).
  - intros w0 (e2 & Hn2 & Hc).
    destruct (spawnEye_slot d w0 i e2 Hn2) as [H | [_ (newY & bl & lt & H)]].
    + exists e2. split; assumption.
    + eexists. split; [exact H|]. right. exists newY, bl, lt. reflexivity.
  - exists e. split; [exact Hn | left; reflexivity].
Qed.

(** X7. Within one frame an active eye is written by exactly one call
    of [updateEye] and by nothing else: if the eye is still active
    after that call, the frame ends with that very record in the same
    slot. A slot that is inactive, before the frame or after that
    call, ends the frame with the record it had or with a freshly
    spawned eye. *)
Theorem frame_updates_each_eye_once
        (d : Display) (w : World) (i : nat) (e : Eye) :
  nth_error (eyes w) i = Some e ->
  exists e1 : Eye,
    eye_tick e e1 /\
    (is_active e1 = true -> nth_error (eyes (frame d w)) i = Some e1) /\
    (is_active e1 = false ->
     exists e2, nth_error (eyes (frame d w)) i = Some e2 /\
       (e2 = e1 \/ exists newY bl lt : Z, e2 = spawned d newY bl lt)).
Proof.
  intros Hn.
  destruct (backdrop_pools d w) as [Se _].
  pose proof (updateEyes_ticks (backdrop d w)) as T. rewrite Se in T.
  destruct (Forall2_nth_fwd _ _ _ i e T Hn) as (e1 & Hn1 & T1).
  exists e1. split; [exact T1|].
  rewrite frame_unfold, updateRipples_eyes.
  split.
  - intros Ha. apply replenish_keeps_active; assumption.
  - intros _. apply replenish_free_slot. exact Hn1.
Qed.

Lemma frame_updates_each_eye_once_witness :
  let w := frames 40 installation demoWorld in
  exists e1 : Eye,
    eye_tick (nth 0 (eyes w) zeroEye) e1 /\
    (is_active e1 = true ->
     nth_error (eyes (frame installation w)) 0 = Some e1) /\
    (is_active e1 = false ->
     exists e2, nth_error (eyes (frame installation w)) 0 = Some e2 /\
       (e2 = e1 \/
        exists newY bl lt : Z, e2 = spawned installation newY bl lt)).
Proof.
  intros w.
  apply (frame_updates_each_eye_once installation w 0).
  vm_compute. reflexivity.
Defined.

(* ------------------------------------------------------------------ *)
(** ** The population after replenishment *)
(* ------------------------------------------------------------------ *)












(* ------------------------------------------------------------------ *)
(** ** How long an eye lives *)
(* ------------------------------------------------------------------ *)

(** The budget of a sound eye with at most four blinks left. *)
Lemma lifeBudget_bound (e : Eye) :
  eye_sound e -> blinksLeft e <= 4 ->
  lifeBudget e <= 11 * maxOpen e + 921.
Proof.
  intros (Ho & Hm & Hb & Ht) H4. unfold lifeBudget.
  destruct (state e) eqn:Hs; try specialize (Ht eq_refl); nia.
Qed.

Lemma eye_outlived (d : Display) (i : nat) :
  display_ok d -> 0 <= Int.sub (Z.quot (width d) 2) 2 ->
  forall (b : nat) (w : World) (e : Eye),
    reachable d w -> nth_error (eyes w) i = Some e -> is_active e = true ->
    lifeBudget e <= Z.of_nat b ->
    exists (n : nat) (e' : Eye),
      (n < b)%nat /\
      nth_error (eyes (snd (updateEyes (backdrop d (frames n d w))))) i
        = Some e' /\
      is_active e' = false.
Proof.
  intros Hd Hm. induction b as [|b IH]; intros w e Hr Hn Ha Hb.
  - exfalso.
    pose proof (reachable_eye_sound d w Hd Hm Hr) as Hs.
    rewrite Forall_forall in Hs.
    specialize (Hs e (nth_error_In _ _ Hn) Ha).
    destruct (updateEye_budget e w Hs Ha) as [_ Hlt]. lia.
  - pose proof (reachable_eye_sound d w Hd Hm Hr) as Hs.
    rewrite Forall_forall in Hs.
    specialize (Hs e (nth_error_In _ _ Hn) Ha).
    destruct (backdrop_pools d w) as [Se _].
    pose proof (updateEyes_ticks (backdrop d w)) as T. rewrite Se in T.
    destruct (Forall2_nth_fwd _ _ _ i e T Hn) as (e1 & Hn1 & T1).
    unfold eye_tick in T1. rewrite Ha in T1. destruct T1 as [w1 E1].
    destruct (updateEye_budget e w1 Hs Ha) as [_ Hlt]. rewrite <- E1 in Hlt.
    destruct (is_active e1) eqn:A1.
    + assert (Hf : nth_error (eyes (frame d w)) i = Some e1).
      { rewrite frame_unfold, updateRipples_eyes.
        apply replenish_keeps_active; assumption. }
      destruct (IH (frame d w) e1 (reach_frame d w Hr) Hf A1 ltac:(lia))
        as (n & e' & Hlt' & Hn' & A').
      exists (S n), e'. split; [lia|]. split; [exact Hn' | exact A'].
    + exists O, e1. split; [lia|]. split; [exact Hn1 | exact A1].
Qed.


Lemma reachable_centred (d : Display) (w : World) :
  reachable d w -> Forall (centred d) (eyes w).
Proof.
  apply (reachable_pool_inv d (Forall (centred d))).
  - intros w0 Hf.
    destruct (spawnEye_cases d w0)
      as [_ [-> | (i & newY & bl & lt & _ & _ & _ & _ & _ & ->)]];
      [exact Hf|].
    apply Forall_store; [exact Hf|]. intros _. split; reflexivity.
  - apply Forall_forall. intros e He. apply repeat_spec in He. subst e.
    intros Ha. discriminate Ha.
  - intros es es' Hf Hs. induction Hs as [|e e' es es' St Hs IH].
    + constructor.
    + inversion Hf as [|? ? Qe Qes]; subst. constructor; [|apply IH; exact Qes].
      intros Ha. pose proof (eye_step_active _ _ St Ha) as Ha0.
      destruct St as [-> | [_ [w0 ->]]]; [apply Qe; exact Ha0|].
      destruct (updateEye_geometry e w0) as (-> & _ & -> & _ & _).
      apply Qe. exact Ha0.
Qed.

(** X8. No eye stays on screen for ever: on a display with 16-bit
    dimensions and width at least 4, an eye that is active between two
    frames is retired by the update loop of one of the next
    [11 * (width / 2) + 899] frames. *)
Theorem every_eye_is_retired_in_time
        (d : Display) (w : World) (i : nat) (e : Eye) :
  display_ok d -> 0 <= Int.sub (Z.quot (width d) 2) 2 ->
  reachable d w -> nth_error (eyes w) i = Some e -> is_active e = true ->
  exists (n : nat) (e' : Eye),
    Z.of_nat n < 11 * Z.quot (width d) 2 + 899 /\
    nth_error (eyes (snd (updateEyes (backdrop d (frames n d w))))) i
      = Some e' /\
    is_active e' = false.
Proof.
  intros Hd Hm Hr Hn Ha.
  pose proof (reachable_eye_sound d w Hd Hm Hr) as Hs.
  pose proof (reachable_blinksLeft d w Hr) as Hb.
  pose proof (reachable_centred d w Hr) as Hc.
  rewrite Forall_forall in Hs, Hb, Hc.
  pose proof (nth_error_In _ _ Hn) as Hin.
  specialize (Hs e Hin Ha). specialize (Hb e Hin).
  destruct (Hc e Hin Ha) as [_ Hmo].
  destruct (spawned_maxOpen d Hd) as [E _]. rewrite E in Hmo, Hm.
  pose proof (lifeBudget_bound e Hs ltac:(lia)) as Hl.
  destruct (eye_outlived d i Hd ltac:(rewrite E; exact Hm)
              (Z.to_nat (11 * maxOpen e + 921)) w e Hr Hn Ha ltac:(lia))
    as (n & e' & Hlt & Hn' & A').
  exists n, e'. split; [lia|]. split; assumption.
Qed.

Lemma every_eye_is_retired_in_time_witness :
  let w := frames 40 installation demoWorld in
  exists (n : nat) (e' : Eye),
    Z.of_nat n < 11 * Z.quot (width installation) 2 + 899 /\
    nth_error
      (eyes (snd (updateEyes (backdrop installation
                                (frames n installation w))))) 0
      = Some e' /\
    is_active e' = false.
Proof.
  intros w.
  refine (every_eye_is_retired_in_time installation w 0
            (nth 0 (eyes w) zeroEye) _ _ _ _ _).
  - unfold display_ok, Int.in_int16, installation. simpl. lia.
  - vm_compute. discriminate.
  - apply frames_reachable, reach_boot.
  - vm_compute. reflexivity.
  - vm_compute. reflexivity.
Defined.

(* ------------------------------------------------------------------ *)
(** ** Counting blinks *)
(* ------------------------------------------------------------------ *)

(** One call of [updateEye] with the blinks still to come read off
    [blinksLeft]: the call stays in the state, or takes the next step
    of the life that has exactly that many blinks left. *)
Lemma updateEye_edge_counted (e : Eye) (w : World) :
  0 <= blinksLeft e <= Int.max_int ->
  let e' := fst (updateEye e w) in
  0 <= blinksLeft e' <= Int.max_int /\
  lifecycleFrom (state e) (Z.to_nat (blinksLeft e)) =
  if EyeState_eqb (state e) (state e')
  then lifecycleFrom (state e') (Z.to_nat (blinksLeft e'))
  else state e :: lifecycleFrom (state e') (Z.to_nat (blinksLeft e')).
Proof.
  intros Hb e'. subst e'.
  pose proof (updateEye_transition e w) as T. cbv zeta in T.
  destruct (state e) eqn:Hs.
  - rewrite T. cbn [fst]. rewrite Hs. split; [exact Hb | reflexivity].
  - destruct T as [[T | T] Tb]; rewrite T, Tb; split; try exact Hb;
      reflexivity.
  - destruct T as [(T & _ & Tb) | [(T & _ & Hpos & Tb) | (T & _ & Hz & Tb)]];
      rewrite T, Tb.
    + split; [exact Hb | reflexivity].
    + rewrite sub_exact by int_lia. split; [int_lia|].
      cbn [EyeState_eqb].
      replace (Z.to_nat (blinksLeft e))
        with (S (Z.to_nat (blinksLeft e - 1))) by lia.
      reflexivity.
    + split; [exact Hb|]. cbn [EyeState_eqb].
      replace (Z.to_nat (blinksLeft e)) with O by lia. reflexivity.
  - destruct T as [[T | T] Tb]; rewrite T, Tb; split; try exact Hb;
      reflexivity.
  - destruct T as [[T | T] Tb]; rewrite T, Tb; split; try exact Hb;
      reflexivity.
  - destruct T as [[T | T] Tb]; rewrite T, Tb; split; try exact Hb;
      reflexivity.
Qed.

Lemma trace_counts_blinks (n : nat) :
  forall (e : Eye) (w : World),
    0 <= blinksLeft e <= Int.max_int ->
    exists rest : list EyeState,
      lifecycleFrom (state e) (Z.to_nat (blinksLeft e)) =
        destutter (stateTrace n e w) ++ rest /\
      (last (stateTrace n e w) EYE_OPENING = EYE_INACTIVE -> rest = []).
Proof.
  induction n as [|n IH]; intros e w Hb.
  - cbn [stateTrace destutter last].
    destruct (state e); eexists; (split; [reflexivity|]);
      intros H; try discriminate H; reflexivity.
  - rewrite stateTrace_S.
    destruct (updateEye_edge_counted e w Hb) as [Hb1 Hedge].
    set (e1 := fst (updateEye e w)) in *. set (w1 := snd (updateEye e w)).
    destruct (IH e1 w1 Hb1) as (rest & Hp & Hl).
    destruct (stateTrace_head n e1 w1) as [t Ht].
    assert (Hlast : last (state e :: stateTrace n e1 w1) EYE_OPENING =
                    last (stateTrace n e1 w1) EYE_OPENING).
    { rewrite Ht. reflexivity. }
    rewrite Hlast. rewrite Ht, destutter_cons, <- Ht.
    exists rest. split; [|exact Hl].
    rewrite Hedge.
    destruct (EyeState_eqb (state e) (state e1)) eqn:E.
    + exact Hp.
    + rewrite Hp. reflexivity.
Qed.

(** X9. The number of blinks of an eye is the number drawn when it was
    spawned: an eye that starts [EYE_OPENING] with sound fields and
    [blinksLeft = b] goes through Opening, Open, then exactly [b]
    times (BlinkClosing, BlinkOpening, Open), then Closing, Inactive,
    for every generator. *)
Theorem eye_blinks_as_often_as_drawn (e : Eye) (w : World) :
  state e = EYE_OPENING -> eye_sound e ->
  exists m : nat,
    state (fst (updateEyeN m e w)) = EYE_INACTIVE /\
    destutter (stateTrace m e w) = lifecycle (Z.to_nat (blinksLeft e)).
Proof.
  intros Hs Hsound.
  destruct (every_eye_closes e w Hsound) as (m & _ & Hm).
  exists m. split; [exact Hm|].
  destruct Hsound as (_ & _ & Hb & _).
  destruct (trace_counts_blinks m e w Hb) as (rest & Hp & Hl).
  rewrite stateTrace_last in Hl. rewrite (Hl Hm), app_nil_r in Hp.
  rewrite Hs in Hp. symmetry. exact Hp.
Qed.

Lemma eye_blinks_as_often_as_drawn_witness :
  exists m : nat,
    state (fst (updateEyeN m (spawned installation 300 3 25) demoWorld))
      = EYE_INACTIVE /\
    destutter (stateTrace m (spawned installation 300 3 25) demoWorld)
      = lifecycle 3.
Proof.
  refine (eye_blinks_as_often_as_drawn
            (spawned installation 300 3 25) demoWorld _ _).
  - reflexivity.
  - vm_compute. repeat split; discriminate.
Defined.

(* ------------------------------------------------------------------ *)
(** ** Rings in flight *)
(* ------------------------------------------------------------------ *)


Lemma rings_kept_refl (rs : list Ripple) : rings_kept rs rs.
Proof. split; [reflexivity | auto]. Qed.

Lemma rings_kept_trans (a b c : list Ripple) :
  rings_kept a b -> rings_kept b c -> rings_kept a c.
Proof.
  intros [L1 K1] [L2 K2]. split; [congruence|].
  intros j r Hn Ha. apply K2; [apply K1; assumption | exact Ha].
Qed.

Lemma rings_kept_eq (rs rs' : list Ripple) : rs' = rs -> rings_kept rs rs'.
Proof. intros ->. apply rings_kept_refl. Qed.

Lemma rings_added_refl (e : Eye) (rs : list Ripple) : rings_added e rs rs.
Proof. split; [apply rings_kept_refl | auto]. Qed.

Lemma rings_added_trans (e : Eye) (a b c : list Ripple) :
  rings_added e a b -> rings_added e b c -> rings_added e a c.
Proof.
  intros [K1 F1] [K2 F2]. split; [eapply rings_kept_trans; eassumption|].
  intros j r' Hn. destruct (F2 j r' Hn) as [H | H]; [|right; exact H].
  apply F1, H.
Qed.

Lemma spawnRippleAttempt_added (e : Eye) (w : World) :
  rings_added e (ripples w) (ripples (snd (spawnRippleAttempt e w))).
Proof.
  pose proof (spawnRippleAttempt_spec e w) as Sp.
  destruct (firstFreeRipple (ripples w)) as [i|].
  - destruct Sp as ((r0 & Hn0 & Hf0) & s & Hs & -> & _).
    split; [split|].
    + apply store_length.
    + intros j r Hn Ha. destruct (Nat.eq_dec i j) as [-> | Hij];
        [congruence|].
      rewrite store_nth_ne by exact Hij. exact Hn.
    + intros j r' Hn. destruct (Nat.eq_dec i j) as [-> | Hij].
      * rewrite store_nth_eq in Hn
          by (apply nth_error_Some; congruence).
        injection Hn as <-. right. unfold fresh_ring. cbn. tauto.
      * rewrite store_nth_ne in Hn by exact Hij. left. exact Hn.
  - destruct Sp as [_ ->]. apply rings_added_refl.
Qed.

Lemma spawnRipples_added (e : Eye) (w : World) :
  rings_added e (ripples w) (ripples (snd (spawnRipples e w))).
Proof.
  unfold spawnRipples, bind.
  pose proof (random_range_scene 1 4 w) as Sc.
  destruct (random_range 1 4 w) as [c w1]. cbn [snd] in Sc.
  replace (ripples w) with (ripples w1) by (unfold same_scene in Sc; tauto).
  apply (repeatM_scene (Z.to_nat c) (spawnRippleAttempt e)
           (fun a b => rings_added e (ripples a) (ripples b))).
  - intros w0. apply rings_added_refl.
  - intros a b c0. apply rings_added_trans.
  - apply spawnRippleAttempt_added.
Qed.

Lemma activeRings_cons (r : Ripple) (rs : list Ripple) :
  activeRings (r :: rs) = (if active r then 1 else 0) + activeRings rs.
Proof.
  unfold activeRings. cbn [filter]. destruct (active r); cbn [length]; lia.
Qed.

Lemma activeRings_bounds (rs : list Ripple) :
  0 <= activeRings rs <= Z.of_nat (length rs).
Proof.
  induction rs as [|r rs IH]; [unfold activeRings; simpl; lia|].
  rewrite activeRings_cons. cbn [length]. destruct (active r); lia.
Qed.

Lemma activeRings_full (rs : list Ripple) :
  Forall (fun r => active r = true) rs ->
  activeRings rs = Z.of_nat (length rs).
Proof.
  induction 1 as [|r rs Hr Hrs IH]; [reflexivity|].
  rewrite activeRings_cons, Hr, IH. cbn [length]. lia.
Qed.

Lemma activeRings_store (i : nat) (v r0 : Ripple) (rs : list Ripple) :
  nth_error rs i = Some r0 -> active r0 = false -> active v = true ->
  activeRings (store i v rs) = activeRings rs + 1 /\
  activeRings rs + 1 <= Z.of_nat (length rs).
Proof.
  revert i. induction rs as [|r rs IH]; intros [|i] Hn H0 Hv;
    simpl in Hn; try discriminate.
  - injection Hn as ->. cbn [store]. rewrite !activeRings_cons, H0, Hv.
    pose proof (activeRings_bounds rs). cbn [length]. lia.
  - cbn [store]. rewrite !activeRings_cons.
    destruct (IH i Hn H0 Hv) as [-> Hle]. cbn [length].
    destruct (active r); lia.
Qed.

Lemma spawnRippleAttempt_count (e : Eye) (w : World) :
  activeRings (ripples (snd (spawnRippleAttempt e w))) =
  Z.min (activeRings (ripples w) + 1) (Z.of_nat (length (ripples w))).
Proof.
  pose proof (spawnRippleAttempt_spec e w) as Sp.
  destruct (firstFreeRipple (ripples w)) as [i|].
  - destruct Sp as ((r0 & Hn0 & Hf0) & s & Hs & -> & _).
    destruct (activeRings_store i (mkRipple (x e) (y e) (halfHeight e) s true)
                r0 _ Hn0 Hf0 eq_refl) as [-> Hle].
    lia.
  - destruct Sp as [Hall ->]. cbn [snd]. rewrite (activeRings_full _ Hall). lia.
Qed.

Lemma repeat_attempt_count (e : Eye) (n : nat) :
  forall w : World,
    activeRings (ripples (snd (repeatM n (spawnRippleAttempt e) w))) =
    Z.min (activeRings (ripples w) + Z.of_nat n)
          (Z.of_nat (length (ripples w))).
Proof.
  induction n as [|n IH]; intros w.
  - cbn [repeatM ret snd]. pose proof (activeRings_bounds (ripples w)). lia.
  - cbn [repeatM]. unfold bind.
    pose proof (spawnRippleAttempt_count e w) as C.
    pose proof (spawnRippleAttempt_added e w) as [[L _] _].
    destruct (spawnRippleAttempt e w) as [u w1]. cbn [snd] in C, L.
    rewrite IH, C, L. lia.
Qed.

(** X10. A call of [spawnRipples] draws [count] in 1..3 and adds
    [count] rings, or as many as there are free slots when those are
    fewer: the surplus is dropped without a trace. No ring in flight
    is moved or overwritten, the pool keeps its size, and every ring
    that was not there before starts at the eye's position with the
    eye's half height as radius and a speed in 1..3. *)
Theorem spawnRipples_fills_free_slots (e : Eye) (w : World) :
  let count := fst (random_range 1 4 w) in
  let rs := ripples w in
  let rs' := ripples (snd (spawnRipples e w)) in
  1 <= count <= 3 /\
  length rs' = length rs /\
  activeRings rs' = Z.min (activeRings rs + count) (Z.of_nat (length rs)) /\
  (forall (j : nat) (r : Ripple),
     nth_error rs j = Some r -> active r = true ->
     nth_error rs' j = Some r) /\
  (forall (j : nat) (r' : Ripple),
     nth_error rs' j = Some r' ->
     nth_error rs j = Some r' \/
     (cx r' = x e /\ cy r' = y e /\ radius r' = halfHeight e /\
      1 <= speed r' <= 3 /\ active r' = true)).
Proof.
  intros count rs rs'.
  pose proof (random_range_bounds 1 4 w ltac:(lia)) as Hc. fold count in Hc.
  split; [lia|].
  pose proof (spawnRipples_added e w) as [[L K] F].
  split; [exact L|]. split; [|split; [exact K | exact F]].
  subst rs rs' count. unfold spawnRipples, bind.
  pose proof (random_range_scene 1 4 w) as Sc.
  destruct (random_range 1 4 w) as [c w1]. cbn [fst snd] in *.
  rewrite repeat_attempt_count.
  replace (ripples w1) with (ripples w)
    by (unfold same_scene in Sc; symmetry; tauto).
  lia.
Qed.

(* ------------------------------------------------------------------ *)
(** ** Rings of a blink *)
(* ------------------------------------------------------------------ *)

(** The scan of [spawnRipples] stops at the free slot that has no free
    slot before it. *)
Lemma firstFreeRipple_first (rs : list Ripple) :
  forall (i : nat) (r0 : Ripple),
    nth_error rs i = Some r0 -> active r0 = false ->
    (forall (j : nat) (r : Ripple),
       (j < i)%nat -> nth_error rs j = Some r -> active r = true) ->
    firstFreeRipple rs = Some i.
Proof.
  induction rs as [|r rs IH]; intros [|i] r0 Hn H0 Hb; cbn in Hn;
    try discriminate.
  - injection Hn as ->. cbn [firstFreeRipple]. rewrite H0. reflexivity.
  - cbn [firstFreeRipple].
    rewrite (Hb O r ltac:(lia) eq_refl).
    rewrite (IH i r0 Hn H0); [reflexivity|].
    intros j r1 Hj Hn1. apply (Hb (S j) r1); [lia | exact Hn1].
Qed.

Lemma firstFreeRipple_full (rs : list Ripple) :
  Forall (fun r => active r = true) rs -> firstFreeRipple rs = None.
Proof.
  induction 1 as [|r rs Hr _ IH]; [reflexivity|].
  cbn [firstFreeRipple]. rewrite Hr, IH. reflexivity.
Qed.

(** [random(1, 4)] on three consecutive raw numbers gives 1, 2 and 3
    once each, in some order. *)
Lemma draw_of_three (w : World) (c b : Z) :
  1 <= c <= 3 ->
  length (filter (fun raw =>
                    fst (random_range 1 4 (set_rng (fun _ => raw) w)) =? c)
                 [b; b + 1; b + 2]) = 1%nat.
Proof.
  intros Hc. cbn [filter].
  rewrite !random_range_value by lia. cbn [rng set_rng].
  change (4 - 1) with 3.
  destruct (1 + b mod 3 =? c) eqn:E0;
    destruct (1 + (b + 1) mod 3 =? c) eqn:E1;
    destruct (1 + (b + 2) mod 3 =? c) eqn:E2; zbool;
    try reflexivity; exfalso; Z.div_mod_to_equations; lia.
Qed.

(** So the count is uniform as far as the generator is: among any
    [3 * N] consecutive raw numbers, each of the three counts is drawn
    for exactly [N]. *)
Lemma draw_one_to_three_uniform (w : World) (c : Z) (N : nat) :
  1 <= c <= 3 ->
  forall b : Z,
    length (filter (fun raw =>
                      fst (random_range 1 4 (set_rng (fun _ => raw) w)) =? c)
                   (map (fun i => b + Z.of_nat i) (seq 0 (3 * N)))) = N.
Proof.
  intros Hc. induction N as [|N IH]; intros b; [reflexivity|].
  replace (3 * S N)%nat with (3 + 3 * N)%nat by lia.
  rewrite seq_app, map_app, filter_app, length_app.
  change (map (fun i => b + Z.of_nat i) (seq 0 3))
    with [b + 0; b + 1; b + 2].
  rewrite Z.add_0_r, (draw_of_three w c b Hc).
  change (0 + 3)%nat with (S (S (S O))).
  rewrite <- seq_shift, <- seq_shift, <- seq_shift.
  rewrite !map_map.
  rewrite (map_ext (fun i => b + Z.of_nat (S (S (S i))))
                   (fun i => (b + 3) + Z.of_nat i)) by (intros i; lia).
  rewrite (IH (b + 3)). reflexivity.
Qed.

(** One spawn attempt, by what can be read back from the pool. *)
Lemma spawnRippleAttempt_slot (e : Eye) (w0 : World) :
  let w1 := snd (spawnRippleAttempt e w0) in
  (Forall (fun r => active r = true) (ripples w0) ->
   spawnRippleAttempt e w0 = (tt, w0)) /\
  (forall (i : nat) (r0 : Ripple),
     nth_error (ripples w0) i = Some r0 -> active r0 = false ->
     (forall (j : nat) (r : Ripple),
        (j < i)%nat -> nth_error (ripples w0) j = Some r ->
        active r = true) ->
     (exists s : Z,
        1 <= s <= 3 /\
        nth_error (ripples w1) i =
        Some (mkRipple (x e) (y e) (halfHeight e) s true)) /\
     (forall j : nat,
        j <> i -> nth_error (ripples w1) j = nth_error (ripples w0) j) /\
     length (ripples w1) = length (ripples w0) /\
     activeRings (ripples w1) = activeRings (ripples w0) + 1 /\
     same_eyes w0 w1).
Proof.
  intros w1. pose proof (spawnRippleAttempt_spec e w0) as Sp. split.
  - intros Hfull. rewrite (firstFreeRipple_full _ Hfull) in Sp. tauto.
  - intros i r0 Hn H0 Hb.
    rewrite (firstFreeRipple_first _ i r0 Hn H0 Hb) in Sp.
    destruct Sp as (_ & s & Hs & Hst & Hsame). fold w1 in Hst, Hsame.
    assert (Hi : (i < length (ripples w0))%nat).
    { apply nth_error_Some. congruence. }
    rewrite Hst. split; [|split; [|split; [|split]]].
    + exists s. split; [exact Hs | apply store_nth_eq; exact Hi].
    + intros j Hj. apply store_nth_ne. congruence.
    + apply store_length.
    + apply (activeRings_store i _ r0); [exact Hn | exact H0 | reflexivity].
    + exact Hsame.
Qed.

(** C5. A tick that takes an eye from [EYE_OPEN] to
    [EYE_BLINKING_CLOSE] makes [count] spawn attempts, where [count]
    is the draw [random(1, 4)]: one of 1, 2, 3, picked by the residue
    modulo 3 of the generator's next number, so that among any [3 * N]
    consecutive raw numbers each count is drawn for exactly [N].

    After the tick the ring pool has its old size and [count] more
    rings in flight, or is full when fewer than [count] slots were
    free; every ring that was in flight is where it was, and every
    other ring in the pool has the eye's [x], [y], radius [halfHeight],
    a speed in 1..3 and is active.

    A single attempt, in any world: when every slot is active it
    returns with the world as it was (not even a speed is drawn);
    otherwise the first free slot reads back as the new ring, every
    other slot reads back as before, and one more ring is in flight. *)
Theorem blink_spawns_ripples (e : Eye) (w : World) :
  state e = EYE_OPEN ->
  state (fst (updateEye e w)) = EYE_BLINKING_CLOSE ->
  let count := fst (random_range 1 4 w) in
  let rs := ripples w in
  let rs' := ripples (snd (updateEye e w)) in
  let attempt := spawnRippleAttempt (blinking e) in
  (count = 1 + rng w O mod 3 /\ 1 <= count <= 3 /\
   updateEye e w =
   (repeatM (Z.to_nat count) attempt ;;; updateIris (blinking e))
     (snd (random_range 1 4 w))) /\
  (forall (c : Z) (N : nat) (b : Z),
     1 <= c <= 3 ->
     length
       (filter (fun raw =>
                  fst (random_range 1 4 (set_rng (fun _ => raw) w)) =? c)
               (map (fun i => b + Z.of_nat i) (seq 0 (3 * N)))) = N) /\
  (length rs' = length rs /\
   activeRings rs' = Z.min (activeRings rs + count) (Z.of_nat (length rs)) /\
   (forall (j : nat) (r : Ripple),
      nth_error rs j = Some r -> active r = true ->
      nth_error rs' j = Some r) /\
   (forall (j : nat) (r' : Ripple),
      nth_error rs' j = Some r' ->
      nth_error rs j = Some r' \/
      (cx r' = x e /\ cy r' = y e /\ radius r' = halfHeight e /\
       1 <= speed r' <= 3 /\ active r' = true))) /\
  forall w0 : World,
    let w1 := snd (attempt w0) in
    (Forall (fun r => active r = true) (ripples w0) ->
     attempt w0 = (tt, w0)) /\
    (forall (i : nat) (r0 : Ripple),
       nth_error (ripples w0) i = Some r0 -> active r0 = false ->
       (forall (j : nat) (r : Ripple),
          (j < i)%nat -> nth_error (ripples w0) j = Some r ->
          active r = true) ->
       (exists s : Z,
          1 <= s <= 3 /\
          nth_error (ripples w1) i =
          Some (mkRipple (x e) (y e) (halfHeight e) s true)) /\
       (forall j : nat,
          j <> i -> nth_error (ripples w1) j = nth_error (ripples w0) j) /\
       length (ripples w1) = length (ripples w0) /\
       activeRings (ripples w1) = activeRings (ripples w0) + 1 /\
       same_eyes w0 w1).
Proof.
  intros Hs Hbc count rs rs' attempt.
  pose proof (updateEye_transition e w) as T. cbv zeta in T.
  rewrite Hs in T.
  assert (Hc : Int.sub (timer e) 1 <= 0 /\ 0 < blinksLeft e).
  { destruct T as [(T & _) | [(_ & T1 & T2 & _) | (T & _)]];
      [congruence | tauto | congruence]. }
  destruct Hc as [Ht Hb]. clear T.
  pose proof (updateEye_open_step e w Hs) as St. cbv zeta in St.
  change (timer (set_timer (Int.sub (timer e) 1) e))
    with (Int.sub (timer e) 1) in St.
  destruct (Int.sub (timer e) 1 <=? 0) eqn:E1; zbool; [|lia].
  destruct (0 <? blinksLeft e) eqn:E2; zbool; [|lia].
  fold (blinking e) in St.
  pose proof (random_range_bounds 1 4 w ltac:(lia)) as B. fold count in B.
  pose proof (random_range_value 1 4 w ltac:(lia)) as V. fold count in V.
  change (4 - 1) with 3 in V.
  split; [|split; [|split]].
  - split; [exact V|]. split; [lia|].
    rewrite St. unfold spawnRipples, bind. subst count attempt.
    destruct (random_range 1 4 w) as [c w1]. reflexivity.
  - intros c N b Hc. apply draw_one_to_three_uniform. exact Hc.
  - assert (Hrs : rs' = ripples (snd (spawnRipples (blinking e) w))).
    { subst rs'. rewrite St. unfold bind.
      destruct (spawnRipples (blinking e) w) as [u w1]. cbn [snd].
      pose proof (updateIris_scene (blinking e) w1) as Sc.
      unfold same_scene in Sc. tauto. }
    pose proof (spawnRipples_added (blinking e) w) as [[L K] F].
    rewrite <- Hrs in L, K, F. fold rs in L, K, F.
    split; [exact L|]. split; [|split; [exact K | exact F]].
    rewrite Hrs. subst rs count. unfold spawnRipples, bind.
    pose proof (random_range_scene 1 4 w) as Sc.
    destruct (random_range 1 4 w) as [c w1]. cbn [fst snd] in *.
    rewrite repeat_attempt_count.
    replace (ripples w1) with (ripples w)
      by (unfold same_scene in Sc; symmetry; tauto).
    lia.
  - intros w0. exact (spawnRippleAttempt_slot (blinking e) w0).
Qed.

Lemma blink_spawns_ripples_witness :
  activeRings (ripples (snd (updateEye (demoOpenEye 1 2) demoWorld))) =
  Z.min (activeRings (ripples demoWorld) + fst (random_range 1 4 demoWorld))
        (Z.of_nat (length (ripples demoWorld))).
Proof.
  refine (proj1 (proj2 (proj1 (proj2 (proj2
            (blink_spawns_ripples (demoOpenEye 1 2) demoWorld _ _)))))).
  - reflexivity.
  - vm_compute. reflexivity.
Defined.

(* ------------------------------------------------------------------ *)
(** ** Rings through a frame *)
(* ------------------------------------------------------------------ *)

Lemma updateEye_rings_kept (e : Eye) (w : World) :
  rings_kept (ripples w) (ripples (snd (updateEye e w))).
Proof.
  destruct (state e) eqn:Hs;
    try (apply rings_kept_eq, updateEye_quiet; congruence).
  rewrite (updateEye_open_step e w Hs). cbv zeta.
  repeat break_if;
    try (apply rings_kept_eq;
         match goal with
         | |- context [updateIris ?a ?v] =>
             pose proof (updateIris_scene a v) as Sc
         end;
         unfold same_scene in Sc; tauto).
  unfold bind.
  pose proof (spawnRipples_added
                (set_blinksLeft (Int.sub (blinksLeft e) 1)
                   (set_state EYE_BLINKING_CLOSE
                      (set_timer (Int.sub (timer e) 1) e))) w) as [K _].
  destruct (spawnRipples _ w) as [u w1]. cbn [snd] in K.
  eapply rings_kept_trans; [exact K|]. apply rings_kept_eq.
  match goal with
  | |- context [updateIris ?a ?v] =>
      pose proof (updateIris_scene a v) as Sc
  end.
  unfold same_scene in Sc. tauto.
Qed.

Lemma updateEyesLoop_rings_kept (es : list Eye) :
  forall (n : Z) (w : World),
    rings_kept (ripples w) (ripples (snd (updateEyesLoop es n w))).
Proof.
  induction es as [|e es IH]; intros n w.
  - apply rings_kept_refl.
  - cbn [updateEyesLoop]. destruct (is_active e); unfold bind, ret.
    + pose proof (updateEye_rings_kept e w) as K1.
      destruct (updateEye e w) as [e' w1]. cbn [snd] in K1.
      specialize (IH (Int.add n 1) w1).
      destruct (updateEyesLoop es (Int.add n 1) w1) as [r w2].
      eapply rings_kept_trans; eassumption.
    + specialize (IH n w). destruct (updateEyesLoop es n w) as [r w2].
      exact IH.
Qed.

(** Everything a frame does before [updateRipples] leaves the rings in
    flight where they are. *)
Lemma afterReplenish_rings_kept (d : Display) (w : World) :
  rings_kept (ripples w) (ripples (afterReplenish d w)).
Proof.
  unfold afterReplenish. cbv zeta. rewrite replenish_ripples.
  destruct (backdrop_pools d w) as [_ Sr]. rewrite <- Sr.
  unfold updateEyes, bind, gets, modify, ret.
  pose proof (updateEyesLoop_rings_kept (eyes (backdrop d w)) 0
                (backdrop d w)) as K.
  destruct (updateEyesLoop (eyes (backdrop d w)) 0 (backdrop d w))
    as [res w1].
  exact K.
Qed.

Lemma frame_ripples (d : Display) (w : World) :
  ripples (frame d w) =
  map (updateRipple (Z.max (width d) (height d)))
      (ripples (afterReplenish d w)).
Proof. rewrite frame_unfold. reflexivity. Qed.

(** A ring in flight is moved by [updateRipples] and by nothing else
    in the frame. *)
Lemma frame_ring (d : Display) (w : World) (j : nat) (r : Ripple) :
  nth_error (ripples w) j = Some r -> active r = true ->
  nth_error (ripples (frame d w)) j =
  Some (updateRipple (Z.max (width d) (height d)) r).
Proof.
  intros Hn Ha. rewrite frame_ripples, nth_error_map.
  destruct (afterReplenish_rings_kept d w) as [_ K].
  rewrite (K j r Hn Ha). reflexivity.
Qed.

Lemma ring_outlived (d : Display) (j : nat) :
  display_ok d ->
  forall (b : nat) (w : World) (r : Ripple),
    reachable d w -> nth_error (ripples w) j = Some r -> active r = true ->
    Z.max (width d) (height d) - radius r < Z.of_nat b -> (1 <= b)%nat ->
    exists (n : nat) (r' : Ripple),
      (1 <= n <= b)%nat /\
      nth_error (ripples (frames n d w)) j = Some r' /\ active r' = false.
Proof.
  intros Hd. induction b as [|b IH]; intros w r Hr Hn Ha Hb H1; [lia|].
  pose proof (reachable_ripples_ok d w Hd Hr) as Ok.
  rewrite Forall_forall in Ok.
  destruct (Ok r (nth_error_In _ _ Hn) Ha) as [Hs Hrad].
  pose proof (frame_ring d w j r Hn Ha) as Hf.
  assert (Hin : Int.in_range (radius r + speed r)).
  { destruct Hd as [Hw Hh]. int_lia. }
  destruct (updateRipple_active (Z.max (width d) (height d)) r Ha Hin)
    as (U1 & U2 & _ & _ & U5).
  set (r1 := updateRipple (Z.max (width d) (height d)) r) in *.
  destruct (active r1) eqn:A1.
  - symmetry in U5. apply negb_true_iff in U5. zbool.
    destruct (IH (frame d w) r1 (reach_frame d w Hr) Hf A1
                ltac:(lia) ltac:(lia))
      as (n & r' & Hle & Hn' & A').
    exists (S n), r'. split; [lia|]. split; assumption.
  - exists 1%nat, r1. split; [lia|]. split; assumption.
Qed.

(** X11. No ring stays in flight for ever: on a display with 16-bit
    dimensions, a ring that is in flight between two frames is switched
    off, in the same slot, at the end of one of the next
    [max(width, height) - 24] frames, and at the end of the very next
    frame when the display is smaller than that. Until then the frame
    moves it by [updateRipples] only. *)
Theorem every_ring_leaves_the_screen
        (d : Display) (w : World) (j : nat) (r : Ripple) :
  display_ok d -> reachable d w ->
  nth_error (ripples w) j = Some r -> active r = true ->
  nth_error (ripples (frame d w)) j =
    Some (updateRipple (Z.max (width d) (height d)) r) /\
  exists (n : nat) (r' : Ripple),
    (1 <= n)%nat /\
    Z.of_nat n <= Z.max 1 (Z.max (width d) (height d) - 24) /\
    nth_error (ripples (frames n d w)) j = Some r' /\ active r' = false.
Proof.
  intros Hd Hr Hn Ha.
  split; [apply frame_ring; assumption|].
  pose proof (reachable_ripples_ok d w Hd Hr) as Ok.
  rewrite Forall_forall in Ok.
  destruct (Ok r (nth_error_In _ _ Hn) Ha) as [Hs Hrad].
  destruct (ring_outlived d j Hd
              (Z.to_nat (Z.max 1 (Z.max (width d) (height d) - 24)))
              w r Hr Hn Ha)
    as (n & r' & Hle & Hn' & A'); [int_lia | lia |].
  exists n, r'. split; [lia|]. split; [lia|]. split; assumption.
Qed.

Lemma every_ring_leaves_the_screen_witness :
  let w := frames 150 installation demoWorld in
  exists (n : nat) (r' : Ripple),
    (1 <= n)%nat /\
    Z.of_nat n <=
      Z.max 1 (Z.max (width installation) (height installation) - 24) /\
    nth_error (ripples (frames n installation w)) 0 = Some r' /\
    active r' = false.
Proof.
  intros w.
  refine (proj2 (every_ring_leaves_the_screen installation w 0
                   (nth 0 (ripples w) zeroRipple) _ _ _ _)).
  - unfold display_ok, Int.in_int16, installation. simpl. lia.
  - apply frames_reachable, reach_boot.
  - vm_compute. reflexivity.
  - vm_compute. reflexivity.
Defined.

Lemma mul_exact (a b : Z) : Int.in_range (a * b) -> int_mul a b = a * b.
Proof. apply wrap32_id. Qed.

Lemma to_uint16_fits (z : Z) : 0 <= z <= 65535 -> Int.to_uint16 z = z.
Proof. intros H. unfold Int.to_uint16. apply Z.mod_small. lia. Qed.

Lemma diamond_bounds (open hh dy : Z) :
  0 < hh -> 0 <= open -> - hh <= dy <= hh ->
  0 <= diamond open hh dy <= open.
Proof.
  intros Hh Ho Hd. unfold diamond.
  assert (0 <= open * (hh - Z.abs dy) <= open * hh) by nia.
  split.
  - apply Z.quot_pos; lia.
  - apply Z.quot_le_upper_bound; lia.
Qed.

Lemma diamond_sym (open hh dy : Z) :
  diamond open hh (- dy) = diamond open hh dy.
Proof. unfold diamond. rewrite Z.abs_opp. reflexivity. Qed.

Lemma diamond_centre (open hh : Z) : 0 < hh -> diamond open hh 0 = open.
Proof.
  intros Hh. unfold diamond. rewrite Z.sub_0_r. apply Z.quot_mul. lia.
Qed.

Lemma diamond_tip (open hh dy : Z) : Z.abs dy = hh -> diamond open hh dy = 0.
Proof.
  intros H. unfold diamond. rewrite H, Z.sub_diag, Z.mul_0_r.
  destruct hh; reflexivity.
Qed.

Lemma diamond_mono (open hh dy1 dy2 : Z) :
  0 < hh -> 0 <= open -> Z.abs dy1 <= Z.abs dy2 <= hh ->
  diamond open hh dy2 <= diamond open hh dy1.
Proof.
  intros Hh Ho Hd. unfold diamond.
  apply Z.quot_le_mono; [lia|]. nia.
Qed.

Lemma halfWidthAt_exact (open hh dy : Z) :
  0 < hh <= 1000 -> 0 <= open <= 16000 -> - hh <= dy <= hh ->
  halfWidthAt open hh dy = diamond open hh dy.
Proof.
  intros Hh Ho Hd. unfold halfWidthAt.
  rewrite abs_exact by int_lia. rewrite sub_exact by int_lia.
  rewrite mul_exact by (unfold Int.in_range, Int.min_int, Int.max_int; nia).
  apply wrap32_id.
  pose proof (diamond_bounds open hh dy ltac:(lia) ltac:(lia) Hd) as B.
  int_lia.
Qed.

Lemma scanline_call (cx cy hw dy : Z) :
  -16000 <= cx <= 16000 -> -32768 <= cy + dy <= 32767 ->
  0 <= hw <= 16000 -> -1000 <= dy <= 1000 ->
  drawFastHLine (Int.sub cx hw) (Int.add cy dy) (Int.add (int_mul hw 2) 1) 0
  = DrawFastHLine (cx - hw) (cy + dy) (2 * hw + 1) 0.
Proof.
  intros Hx Hy Hw Hd. unfold drawFastHLine.
  rewrite mul_exact by int_lia.
  rewrite sub_exact, !add_exact by int_lia.
  rewrite !to_int16_fits by lia.
  rewrite to_uint16_fits by lia.
  f_equal. lia.
Qed.

Lemma fillRows_In (cx cy hh open : Z) :
  0 < hh <= 1000 -> 0 <= open <= 16000 ->
  -16000 <= cx <= 16000 -> -32768 <= cy - hh -> cy + hh <= 32767 ->
  forall (fuel : nat) (dy0 : Z) (c : DrawCmd),
    - hh <= dy0 -> dy0 + Z.of_nat fuel = hh + 1 ->
    (In c (fillRows fuel cx cy hh open dy0) <->
     exists dy : Z,
       dy0 <= dy <= hh /\ 1 <= diamond open hh dy /\
       c = DrawFastHLine (cx - diamond open hh dy) (cy + dy)
                         (2 * diamond open hh dy + 1) 0).
Proof.
  intros Hh Ho Hx Hy Hy'.
  induction fuel as [|fuel IH]; intros dy0 c Hlo Hsum.
  - cbn [fillRows In]. split; [tauto|]. intros (dy & Hd & _). lia.
  - cbn [fillRows].
    destruct (dy0 <=? hh) eqn:E; zbool; [|lia].
    cbv zeta. rewrite halfWidthAt_exact by lia.
    pose proof (diamond_bounds open hh dy0 ltac:(lia) ltac:(lia) ltac:(lia))
      as B.
    rewrite scanline_call by lia.
    rewrite add_exact by int_lia.
    rewrite in_app_iff, (IH (dy0 + 1) c) by lia.
    split.
    + intros [H | (dy & Hd & Hw & Hc)].
      * destruct (0 <? diamond open hh dy0) eqn:E0; zbool;
          [|destruct H].
        destruct H as [<- | []]. exists dy0. split; [lia|]. split; [lia|].
        reflexivity.
      * exists dy. split; [lia|]. split; assumption.
    + intros (dy & Hd & Hw & Hc).
      destruct (Z.eq_dec dy dy0) as [-> | Hne].
      * left. destruct (0 <? diamond open hh dy0) eqn:E0; zbool; [|lia].
        left. symmetry. exact Hc.
      * right. exists dy. split; [lia|]. split; assumption.
Qed.

Lemma eyeFill_In (e : Eye) :
  eye_fits e ->
  forall c : DrawCmd,
    In c (eyeFill e) <->
    exists dy : Z,
      - halfHeight e <= dy <= halfHeight e /\
      1 <= diamond (openAmount e) (halfHeight e) dy /\
      c = DrawFastHLine (x e - diamond (openAmount e) (halfHeight e) dy)
                        (y e + dy)
                        (2 * diamond (openAmount e) (halfHeight e) dy + 1) 0.
Proof.
  intros (Hh & Ho & Hx & Hy & Hy') c.
  unfold eyeFill. rewrite sub_exact by int_lia.
  apply fillRows_In; lia.
Qed.

(** No row is painted twice: the lines of the fill lie on different
    rows of the display. *)
Lemma fillRows_NoDup (cx cy hh open : Z) :
  0 < hh <= 1000 -> 0 <= open <= 16000 ->
  -16000 <= cx <= 16000 -> -32768 <= cy - hh -> cy + hh <= 32767 ->
  forall (fuel : nat) (dy0 : Z),
    - hh <= dy0 -> dy0 + Z.of_nat fuel = hh + 1 ->
    NoDup (fillRows fuel cx cy hh open dy0).
Proof.
  intros Hh Ho Hx Hy Hy'.
  induction fuel as [|fuel IH]; intros dy0 Hlo Hsum.
  - cbn [fillRows]. constructor.
  - pose proof (fillRows_In cx cy hh open Hh Ho Hx Hy Hy' fuel (dy0 + 1))
      as Hin.
    specialize (IH (dy0 + 1) ltac:(lia) ltac:(lia)).
    cbn [fillRows].
    destruct (dy0 <=? hh) eqn:E; zbool; [|lia].
    cbv zeta. rewrite halfWidthAt_exact by lia.
    pose proof (diamond_bounds open hh dy0 ltac:(lia) ltac:(lia) ltac:(lia))
      as B.
    rewrite scanline_call by lia.
    rewrite add_exact by int_lia.
    destruct (0 <? diamond open hh dy0); [|exact IH].
    cbn [app]. constructor; [|exact IH].
    intros Habs. apply Hin in Habs; [|lia|lia].
    destruct Habs as (dy & Hd & _ & Hc). injection Hc as _ Hrow _. lia.
Qed.

(** The fill, top row first: the rows from [dy0] down whose half
    width is at least 1, one line each. *)
Lemma fillRows_rows (cx cy hh open : Z) :
  0 < hh <= 1000 -> 0 <= open <= 16000 ->
  -16000 <= cx <= 16000 -> -32768 <= cy - hh -> cy + hh <= 32767 ->
  forall (fuel : nat) (dy0 : Z),
    - hh <= dy0 -> dy0 + Z.of_nat fuel = hh + 1 ->
    fillRows fuel cx cy hh open dy0 =
    map (fun dy => DrawFastHLine (cx - diamond open hh dy) (cy + dy)
                                 (2 * diamond open hh dy + 1) 0)
        (filter (fun dy => 1 <=? diamond open hh dy)
                (map (fun i => Z.of_nat i + dy0) (seq 0 fuel))).
Proof.
  intros Hh Ho Hx Hy Hy'.
  induction fuel as [|fuel IH]; intros dy0 Hlo Hsum.
  - reflexivity.
  - cbn [fillRows].
    destruct (dy0 <=? hh) eqn:E; zbool; [|lia].
    cbv zeta. rewrite halfWidthAt_exact by lia.
    pose proof (diamond_bounds open hh dy0 ltac:(lia) ltac:(lia) ltac:(lia))
      as B.
    rewrite scanline_call by lia.
    rewrite add_exact by int_lia.
    rewrite (IH (dy0 + 1)) by lia.
    rewrite <- cons_seq, <- seq_shift. cbn [map]. rewrite map_map.
    cbn [filter].
    replace (Z.of_nat 0 + dy0) with dy0 by lia.
    rewrite (map_ext (fun i => Z.of_nat (S i) + dy0)
                     (fun i => Z.of_nat i + (dy0 + 1)))
      by (intros i; lia).
    destruct (0 <? diamond open hh dy0) eqn:E0;
      destruct (1 <=? diamond open hh dy0) eqn:E1; zbool;
      try lia; reflexivity.
Qed.

(** X12. The black interior of an open eye is a diamond: the scanline
    fill draws, for each row [dy] between the tips where the half
    width [openAmount * (halfHeight - |dy|) / halfHeight] is at least
    1, one black line of [2 * halfWidth + 1] pixels centred on the
    eye's column, and nothing else; no line is drawn twice, so there
    are as many lines as there are such rows. The half width is
    [openAmount] on the centre row, 0 at the tips, never more than
    [openAmount], not larger on a row further from the centre, and the
    same on rows [dy] and [-dy], so the shape is symmetric about both
    axes. *)
Theorem eye_interior_is_a_diamond (e : Eye) :
  eye_fits e ->
  let hw := diamond (openAmount e) (halfHeight e) in
  let row := fun dy : Z =>
    DrawFastHLine (x e - hw dy) (y e + dy) (2 * hw dy + 1) 0 in
  let rows :=
    filter (fun dy => 1 <=? hw dy)
           (map (fun i => Z.of_nat i - halfHeight e)
                (seq 0 (Z.to_nat (2 * halfHeight e + 1)))) in
  (forall c : DrawCmd,
     In c (eyeFill e) <->
     exists dy : Z,
       - halfHeight e <= dy <= halfHeight e /\ 1 <= hw dy /\ c = row dy) /\
  In (DrawFastHLine (x e - openAmount e) (y e) (2 * openAmount e + 1) 0)
     (eyeFill e) /\
  NoDup (eyeFill e) /\
  eyeFill e = map row rows /\
  hw 0 = openAmount e /\
  hw (halfHeight e) = 0 /\ hw (- halfHeight e) = 0 /\
  (forall dy : Z, hw (- dy) = hw dy) /\
  (forall dy : Z,
     - halfHeight e <= dy <= halfHeight e -> 0 <= hw dy <= openAmount e) /\
  (forall dy1 dy2 : Z,
     Z.abs dy1 <= Z.abs dy2 <= halfHeight e -> hw dy2 <= hw dy1).
Proof.
  intros (Hh & Ho & Hx & Hy & Hy') hw row rows.
  assert (Hin : forall c : DrawCmd,
     In c (eyeFill e) <->
     exists dy : Z,
       - halfHeight e <= dy <= halfHeight e /\ 1 <= hw dy /\ c = row dy).
  { apply eyeFill_In. unfold eye_fits. tauto. }
  assert (H0 : hw 0 = openAmount e) by (apply diamond_centre; lia).
  split; [exact Hin|]. split.
  - apply Hin. exists 0. unfold row. rewrite H0, Z.add_0_r.
    split; [lia|]. split; [lia | reflexivity].
  - split.
    { unfold eyeFill. rewrite sub_exact by int_lia.
      apply fillRows_NoDup; lia. }
    split.
    { unfold eyeFill, rows. rewrite sub_exact by int_lia.
      rewrite (fillRows_rows (x e) (y e) (halfHeight e) (openAmount e))
        by lia.
      reflexivity. }
    split; [exact H0|].
    split; [apply diamond_tip; lia|].
    split; [apply diamond_tip; lia|].
    split; [intros dy; apply diamond_sym|].
    split; [intros dy Hd; apply diamond_bounds; lia|].
    intros dy1 dy2 Hd. apply diamond_mono; lia.
Qed.

Lemma eye_interior_is_a_diamond_witness :
  In (DrawFastHLine 2 300 29 0) (eyeFill (demoOpenEye 60 1)).
Proof.
  refine (proj1 (proj2 (eye_interior_is_a_diamond (demoOpenEye 60 1) _))).
  unfold eye_fits, demoOpenEye.
  cbn [halfHeight openAmount x y]. lia.
Defined.


Lemma line_call (x0 y0 x1 y1 : Z) :
  Int.in_int16 x0 -> Int.in_int16 y0 -> Int.in_int16 x1 -> Int.in_int16 y1 ->
  drawLine x0 y0 x1 y1 lidColor = DrawLine x0 y0 x1 y1 lidColor.
Proof.
  unfold Int.in_int16. intros H0 H1 H2 H3. unfold drawLine.
  rewrite !to_int16_fits by lia.
  rewrite to_uint16_fits by (vm_compute; split; discriminate).
  reflexivity.
Qed.

(** The eye that [drawAlmondEye] is handed in a frame: an active eye
    of the pool after its [updateEye]. *)
Lemma drawn_eye_facts (d : Display) (w w1 : World) (e : Eye) :
  display_ok d -> 4 <= width d -> 54 < height d ->
  reachable d w -> In e (eyes w) -> is_active e = true ->
  let e1 := fst (updateEye e w1) in
  x e1 = Z.quot (width d) 2 /\
  27 <= y e1 < height d - 27 /\
  halfHeight e1 = 25 /\
  0 <= openAmount e1 <= Z.quot (width d) 2 - 2 /\
  Z.abs (irisX e1) <= Z.quot (Z.quot (width d) 2 - 2) 3 /\
  Z.abs (irisY e1) <= 5.
Proof.
  intros Hd Hw Hh Hr Hin Ha e1. subst e1.
  destruct (spawned_maxOpen d Hd) as [E Hmax].
  assert (Hq : 2 <= Z.quot (width d) 2).
  { pose proof (Z.quot_rem' (width d) 2).
    pose proof (Z.rem_bound_pos_pos (width d) 2 ltac:(lia) ltac:(lia)). lia. }
  assert (Hm : 0 <= Int.sub (Z.quot (width d) 2) 2) by (rewrite E; lia).
  pose proof (reachable_steady d w Hd Hm Hr) as St.
  pose proof (reachable_centred d w Hr) as Ce.
  pose proof (reachable_in_safe_range d w Hr) as Sa.
  rewrite Forall_forall in St, Ce, Sa.
  destruct (St e Hin) as (So & Sh & Sg).
  destruct (So Ha) as [Ho Hmo]. specialize (Sh Ha).
  destruct (Ce e Hin Ha) as [Cx Cm]. rewrite E in Cm.
  pose proof (Sa e Hin Ha) as Dr.
  destruct (safe_range d (y e) Hd Dr) as (_ & Hsh & _ & Hy).
  destruct (updateEye_geometry e w1) as (Gx & Gy & Gm & Gh & _).
  pose proof (updateEye_open_within e w1 Ho ltac:(int_lia)) as Ho1.
  pose proof (updateEye_gaze_bounds e w1 Ha Ho Hmo Sh Sg) as Hg.
  cbv zeta in Hg. destruct Hg as (Hgx & _ & Hgy & _).
  rewrite Gm in Ho1, Hgx. rewrite Cm in Ho1, Hgx.
  rewrite Gx, Gy, Gh, Cx, Sh.
  unfold drawn in Dr. rewrite Hsh in Dr. unfold safeLow in Dr.
  rewrite add_exact in Dr by int_lia.
  unfold EYE_HALF_HEIGHT in *.
  repeat split; try lia; try assumption.
Qed.

(** X13. On a display with 16-bit dimensions, 4 to 110 pixels wide
    and more than 54 high, whatever [drawAlmondEye] paints for an eye
    of a frame, except the eyelashes, lies inside the display: the
    slit of a closed eye, the black diamond, the four lid lines, the
    iris and the pupil. *)
Theorem eyes_are_painted_on_screen
        (d : Display) (w w1 : World) (e : Eye) (c : DrawCmd) :
  display_ok d -> 4 <= width d <= 110 -> 54 < height d ->
  reachable d w -> In e (eyes w) -> is_active e = true ->
  In c (drawAlmondEye (fst (updateEye e w1))) ->
  on_screen d c \/ In c (eyeLashes (fst (updateEye e w1))).
Proof.
  intros Hd Hw Hh Hr Hin Ha Hc.
  destruct (drawn_eye_facts d w w1 e Hd ltac:(lia) Hh Hr Hin Ha)
    as (Fx & Fy & Fh & Fo & Fix & Fiy).
  set (e1 := fst (updateEye e w1)) in *.
  destruct Hd as [[Hw0 Hw1] [Hh0 Hh1]]. unfold Int.in_int16 in *.
  assert (Hq : 2 <= Z.quot (width d) 2 /\ 2 * Z.quot (width d) 2 <= width d).
  { pose proof (Z.quot_rem' (width d) 2).
    pose proof (Z.rem_bound_pos_pos (width d) 2 ltac:(lia) ltac:(lia)). lia. }
  assert (Hq3 : 0 <= Z.quot (Z.quot (width d) 2 - 2) 3 <= 17 /\
                3 * Z.quot (Z.quot (width d) 2 - 2) 3
                  <= Z.quot (width d) 2 - 2).
  { pose proof (Z.quot_rem' (Z.quot (width d) 2 - 2) 3).
    pose proof (Z.rem_bound_pos_pos (Z.quot (width d) 2 - 2) 3
                  ltac:(lia) ltac:(lia)). lia. }
  unfold drawAlmondEye in Hc.
  destruct (openAmount e1 <=? 0) eqn:E0; zbool.
  - left. unfold eyeSlit in Hc. destruct Hc as [<- | []].
    unfold drawFastVLine. rewrite Fx, Fh.
    rewrite mul_exact, sub_exact, add_exact by int_lia.
    rewrite !to_int16_fits by lia.
    cbn [on_screen]. lia.
  - rewrite !in_app_iff in Hc.
    destruct Hc as [Hc | [Hc | [Hc | Hc]]].
    + left.
      assert (Hfit : eye_fits e1) by (unfold eye_fits; lia).
      apply (proj1 (eyeFill_In e1 Hfit c)) in Hc.
      destruct Hc as (dy & Hdy & Hhw & ->).
      pose proof (diamond_bounds (openAmount e1) (halfHeight e1) dy
                    ltac:(lia) ltac:(lia) Hdy) as B.
      cbn [on_screen]. lia.
    + left. unfold eyeLids in Hc. cbv zeta in Hc.
      rewrite !sub_exact, !add_exact in Hc by int_lia.
      rewrite !line_call in Hc by (unfold Int.in_int16; lia).
      cbn [In] in Hc.
      destruct Hc as [<- | [<- | [<- | [<- | []]]]]; cbn [on_screen]; lia.
    + right. destruct (3 <? openAmount e1); [exact Hc | destruct Hc].
    + left. destruct (3 <? openAmount e1) eqn:E3; [|destruct Hc]. zbool.
      assert (Hr3 : 0 <= Z.quot (openAmount e1) 3
                      <= Z.quot (Z.quot (width d) 2 - 2) 3).
      { split; [apply Z.quot_pos; lia | apply Z.quot_le_mono; lia]. }
      assert (Hr6 : 0 <= Z.quot (openAmount e1) 6 <= Z.quot (openAmount e1) 3).
      { split; [apply Z.quot_pos; lia|].
        pose proof (Z.quot_rem' (openAmount e1) 6).
        pose proof (Z.rem_bound_pos_pos (openAmount e1) 6
                      ltac:(lia) ltac:(lia)).
        pose proof (Z.quot_rem' (openAmount e1) 3).
        pose proof (Z.rem_bound_pos_pos (openAmount e1) 3
                      ltac:(lia) ltac:(lia)).
        lia. }
      unfold eyeIris in Hc. cbv zeta in Hc.
      rewrite !add_exact in Hc by int_lia.
      unfold fillCircle in Hc.
      rewrite !to_int16_fits in Hc by lia.
      cbn [In] in Hc.
      destruct Hc as [<- | [<- | []]]; cbn [on_screen]; lia.
Qed.

Lemma eyes_are_painted_on_screen_witness :
  let w := frames 40 installation demoWorld in
  let e1 := fst (updateEye (nth 0 (eyes w) zeroEye) w) in
  on_screen installation (nth 0 (drawAlmondEye e1) (DrawCircle 0 0 0 0)) \/
  In (nth 0 (drawAlmondEye e1) (DrawCircle 0 0 0 0)) (eyeLashes e1).
Proof.
  intros w e1.
  refine (eyes_are_painted_on_screen installation w w
            (nth 0 (eyes w) zeroEye) _ _ _ _ _ _ _ _).
  - unfold display_ok, Int.in_int16, installation. simpl. lia.
  - unfold installation. simpl. lia.
  - unfold installation. simpl. lia.
  - apply frames_reachable, reach_boot.
  - apply nth_In. vm_compute. lia.
  - vm_compute. reflexivity.
  - apply nth_In. vm_compute. lia.
Defined.

(** A lash of a fully open eye on the installation ends three pixels
    left of the display. *)
Example lash_leaves_the_screen :
  In (DrawLine 2 300 (-3) 300 lidColor) (drawAlmondEye (demoOpenEye 60 1)) /\
  ~ on_screen installation (DrawLine 2 300 (-3) 300 lidColor).
Proof.
  split.
  - vm_compute. do 55 right. left. reflexivity.
  - cbn [on_screen]. lia.
Qed.

(* ------------------------------------------------------------------ *)
(** ** Where the rings are *)
(* ------------------------------------------------------------------ *)

Lemma rings_added_Forall (P : Ripple -> Prop) (e : Eye)
      (rs rs' : list Ripple) :
  rings_added e rs rs' -> (forall r, fresh_ring e r -> P r) ->
  Forall P rs -> Forall P rs'.
Proof.
  intros [_ F] Hf Hp. rewrite Forall_forall in *. intros r' Hin.
  destruct (In_nth_error _ _ Hin) as [j Hj].
  destruct (F j r' Hj) as [H | H]; [|apply Hf, H].
  apply Hp. eapply nth_error_In. exact H.
Qed.

Section RingInvariant.

Variable d : Display.
Variable P : Ripple -> Prop.

Hypothesis P_idle : forall r, active r = false -> P r.
Hypothesis P_update :
  forall r, P r -> P (updateRipple (Z.max (width d) (height d)) r).

Lemma updateEye_rings (e : Eye) (w : World) :
  (forall r, fresh_ring e r -> P r) ->
  Forall P (ripples w) -> Forall P (ripples (snd (updateEye e w))).
Proof.
  intros Hf Hp.
  destruct (state e) eqn:Hs;
    try (rewrite updateEye_quiet by congruence; exact Hp).
  rewrite (updateEye_open_step e w Hs). cbv zeta.
  repeat break_if;
    try (match goal with
         | |- context [updateIris ?a ?v] =>
             pose proof (updateIris_scene a v) as Sc
         end;
         unfold same_scene in Sc;
         destruct Sc as (_ & _ & _ & _ & ->); exact Hp).
  unfold bind.
  pose proof (spawnRipples_added
                (set_blinksLeft (Int.sub (blinksLeft e) 1)
                   (set_state EYE_BLINKING_CLOSE
                      (set_timer (Int.sub (timer e) 1) e))) w) as K.
  destruct (spawnRipples _ w) as [u w1]. cbn [snd] in K.
  match goal with
  | |- context [updateIris ?a ?v] =>
      pose proof (updateIris_scene a v) as Sc
  end.
  unfold same_scene in Sc. destruct Sc as (_ & _ & _ & _ & ->).
  apply (rings_added_Forall P _ _ _ K); [|exact Hp].
  intros r Hr. apply Hf. exact Hr.
Qed.

Lemma updateEyesLoop_rings (es : list Eye) :
  Forall (fun e => is_active e = true -> forall r, fresh_ring e r -> P r) es ->
  forall (n : Z) (w : World),
    Forall P (ripples w) ->
    Forall P (ripples (snd (updateEyesLoop es n w))).
Proof.
  induction 1 as [|e es He Hes IH]; intros n w Hp.
  - exact Hp.
  - cbn [updateEyesLoop]. destruct (is_active e) eqn:A; unfold bind, ret.
    + pose proof (updateEye_rings e w (He eq_refl) Hp) as K1.
      destruct (updateEye e w) as [e' w1]. cbn [snd] in K1.
      specialize (IH (Int.add n 1) w1 K1).
      destruct (updateEyesLoop es (Int.add n 1) w1) as [r w2].
      exact IH.
    + specialize (IH n w Hp). destruct (updateEyesLoop es n w) as [r w2].
      exact IH.
Qed.

Hypothesis P_eyes :
  forall w, reachable d w ->
    Forall (fun e => is_active e = true -> forall r, fresh_ring e r -> P r)
           (eyes w).

(** A property of rings that holds of the rings an active eye spawns
    and survives [updateRipples] holds of every ring between any two
    frames. *)
Lemma reachable_rings_inv (w : World) : reachable d w -> Forall P (ripples w).
Proof.
  induction 1 as [r | w Hr IH | w r Hr IH].
  - assert (E : ripples (boot d r) = repeat zeroRipple MAX_RIPPLES).
    { unfold boot, initDigital, bind, modify. cbn [snd].
      match goal with
      | |- context [initDigits ?i ?o ?v] =>
          pose proof (initDigits_pools i o v) as Sc;
          destruct (initDigits i o v) as [dgs w1]
      end.
      cbn [snd ripples set_digitChars] in *. destruct Sc as [_ ->].
      reflexivity. }
    rewrite E. apply Forall_forall. intros r0 H0.
    apply repeat_spec in H0. subst r0. apply P_idle. reflexivity.
  - rewrite frame_ripples. apply Forall_map.
    assert (K : Forall P (ripples (afterReplenish d w))).
    { unfold afterReplenish. cbv zeta. rewrite replenish_ripples.
      destruct (backdrop_pools d w) as [Se Sr].
      unfold updateEyes, bind, gets, modify, ret.
      pose proof (updateEyesLoop_rings (eyes (backdrop d w))) as K.
      rewrite Se in K.
      specialize (K (P_eyes w Hr) 0 (backdrop d w)).
      rewrite Se.
      destruct (updateEyesLoop (eyes w) 0 (backdrop d w)) as [res w1].
      cbn [snd ripples set_eyes] in *. apply K. rewrite Sr. exact IH. }
    eapply Forall_impl; [|exact K]. exact P_update.
  - exact IH.
Qed.

End RingInvariant.


Lemma reachable_ring_centred (d : Display) (w : World) :
  reachable d w -> Forall (ring_centred d) (ripples w).
Proof.
  apply (reachable_rings_inv d (ring_centred d)).
  - intros r Hf Ha. congruence.
  - intros r Hp. unfold updateRipple.
    destruct (active r) eqn:A; [|exact Hp].
    specialize (Hp A). cbv zeta.
    break_if; intros A'; cbn in A'; try discriminate A'.
    cbn [cx cy set_radius set_active]. exact Hp.
  - intros w0 Hr.
    pose proof (reachable_centred d w0 Hr) as Ce.
    pose proof (reachable_in_safe_range d w0 Hr) as Sa.
    rewrite Forall_forall in *. intros e Hin Ha r (Fx & Fy & _) _.
    destruct (Ce e Hin Ha) as [Cx _]. specialize (Sa e Hin Ha).
    rewrite Fx, Fy. split; assumption.
Qed.

Lemma doubleRing_length (rs : list Ripple) :
  Z.of_nat (length (flat_map doubleRing rs)) = 2 * activeRings rs.
Proof.
  induction rs as [|r rs IH]; [reflexivity|].
  cbn [flat_map]. rewrite length_app, Nat2Z.inj_add, IH, activeRings_cons.
  unfold doubleRing. destruct (active r); cbn [length]; lia.
Qed.

Lemma drawRipples_double (rs : list Ripple) :
  Forall (fun r => active r = true ->
            Int.in_int16 (cx r) /\ Int.in_int16 (cy r) /\
            0 < radius r <= 32767) rs ->
  drawRipples rs = flat_map doubleRing rs.
Proof.
  unfold drawRipples. induction 1 as [|r rs Hr0 Hrs IH]; [reflexivity|].
  cbn [flat_map]. rewrite IH. f_equal.
  unfold drawRipple, doubleRing.
  destruct (active r) eqn:A; [|reflexivity].
  destruct (Hr0 eq_refl) as (Cx & Cy & Hrad). unfold Int.in_int16 in *.
  destruct (0 <? radius r) eqn:E0; zbool; [|lia].
  unfold drawCircle. rewrite sub_exact by int_lia.
  rewrite !to_int16_fits by lia.
  rewrite to_uint16_fits by lia. reflexivity.
Qed.

(** X14. On a display with 16-bit dimensions, [drawRipples] paints
    every ring in flight as two black circles around the same centre,
    of radius [radius] and [radius - 1], and nothing for a free slot,
    so twice as many circles as there are rings in flight. The centre
    of every ring is on the centre column of the display, at a height
    [spawnEye] can give an eye, and its radius is at least 25. *)
Theorem rings_are_painted_as_double_circles (d : Display) (w : World) :
  display_ok d -> reachable d w ->
  drawRipples (ripples w) = flat_map doubleRing (ripples w) /\
  Z.of_nat (length (drawRipples (ripples w))) = 2 * activeRings (ripples w) /\
  Forall (fun r => active r = true ->
            cx r = Z.quot (width d) 2 /\ 27 <= cy r <= 32740 /\
            (cy r < height d - 27 \/ cy r = 27) /\
            25 <= radius r <= Z.max 25 (Z.max (width d) (height d)))
         (ripples w).
Proof.
  intros Hd Hr.
  pose proof (reachable_ring_centred d w Hr) as Ce.
  pose proof (reachable_ripples_ok d w Hd Hr) as Ok.
  assert (Hall : Forall (fun r => active r = true ->
            cx r = Z.quot (width d) 2 /\ 27 <= cy r <= 32740 /\
            (cy r < height d - 27 \/ cy r = 27) /\
            25 <= radius r <= Z.max 25 (Z.max (width d) (height d)))
         (ripples w)).
  { rewrite Forall_forall in *. intros r Hin Ha.
    destruct (Ce r Hin Ha) as [Cx Cy]. destruct (Ok r Hin Ha) as [_ Hrad].
    destruct (safe_range d (cy r) Hd Cy) as (_ & _ & Hy & Hy').
    unfold EYE_HALF_HEIGHT in Hrad. tauto. }
  assert (E : drawRipples (ripples w) = flat_map doubleRing (ripples w)).
  { apply drawRipples_double. eapply Forall_impl; [|exact Hall].
    intros r Hr0 A. destruct (Hr0 A) as (Cx & Cy & _ & Hrad).
    destruct Hd as [[Hw0 Hw1] [Hh0 Hh1]]. unfold Int.in_int16 in *.
    assert (Hq : -16384 <= Z.quot (width d) 2 <= 16383).
    { pose proof (Z.quot_rem' (width d) 2) as Q.
      destruct (Z.le_ge_cases 0 (width d)) as [Hp | Hn].
      - pose proof (Z.rem_bound_pos_pos (width d) 2 ltac:(lia) Hp). lia.
      - pose proof (Z.rem_bound_pos_neg (width d) 2 ltac:(lia) Hn). lia. }
    lia. }
  split; [exact E|]. split; [|exact Hall].
  rewrite E. apply doubleRing_length.
Qed.

Lemma rings_are_painted_as_double_circles_witness :
  Z.of_nat (length (drawRipples
                      (ripples (frames 150 installation demoWorld)))) =
  2 * activeRings (ripples (frames 150 installation demoWorld)).
Proof.
  refine (proj1 (proj2 (rings_are_painted_as_double_circles installation
                          (frames 150 installation demoWorld) _ _))).
  - unfold display_ok, Int.in_int16, installation. simpl. lia.
  - apply frames_reachable, reach_boot.
Defined.

(* ------------------------------------------------------------------ *)
(** ** The analog scene *)
(* ------------------------------------------------------------------ *)

Section AnalogFacts.

Import Analog.

Variable d : Display.
Variable ord : ArgOrder.

Lemma activeWaves_cons (w : Wave) (ws : list Wave) :
  activeWaves (w :: ws) = (if active w then 1 else 0) + activeWaves ws.
Proof.
  unfold activeWaves. cbn [filter]. destruct (active w); cbn [List.length]; lia.
Qed.

Lemma activeWaves_bounds (ws : list Wave) :
  0 <= activeWaves ws <= Z.of_nat (List.length ws).
Proof.
  induction ws as [|w ws IH]; [unfold activeWaves; simpl; lia|].
  rewrite activeWaves_cons. cbn [List.length]. destruct (active w); lia.
Qed.

Lemma activeWaves_store (i : nat) (v w0 : Wave) (ws : list Wave) :
  nth_error ws i = Some w0 -> active w0 = false -> active v = true ->
  activeWaves (store i v ws) = activeWaves ws + 1.
Proof.
  revert i. induction ws as [|w ws IH]; intros [|i] Hn H0 Hv;
    simpl in Hn; try discriminate.
  - injection Hn as ->. cbn [store]. rewrite !activeWaves_cons, H0, Hv. lia.
  - cbn [store]. rewrite !activeWaves_cons, (IH i Hn H0 Hv). lia.
Qed.

Lemma firstInactiveWave_Some (ws : list Wave) (i : nat) :
  firstInactiveWave ws = Some i ->
  exists w, nth_error ws i = Some w /\ active w = false.
Proof.
  revert i. induction ws as [|w ws IH]; intros i H; simpl in H.
  - discriminate.
  - destruct (active w) eqn:A.
    + destruct (firstInactiveWave ws) as [k|]; simpl in H; [|discriminate].
      injection H as <-. simpl. apply IH. reflexivity.
    + injection H as <-. exists w. split; [reflexivity | exact A].
Qed.

Lemma firstInactiveWave_None (ws : list Wave) :
  firstInactiveWave ws = None -> activeWaves ws = Z.of_nat (List.length ws).
Proof.
  induction ws as [|w ws IH]; intros H; simpl in H; [reflexivity|].
  destruct (active w) eqn:A; [|discriminate].
  destruct (firstInactiveWave ws); [discriminate|].
  rewrite activeWaves_cons, A, IH by reflexivity. cbn [List.length]. lia.
Qed.

(** The loop over the pool: the counter ends at the number of waves
    still on screen; no wave is switched on. *)
Lemma drawWaves_spec (ws : list Wave) :
  forall n : Z,
    List.length (fst (drawWaves d ws n)) = List.length ws /\
    activeWaves (fst (drawWaves d ws n)) <= activeWaves ws /\
    (0 <= n -> n + Z.of_nat (List.length ws) <= Int.max_int ->
     snd (drawWaves d ws n) = n + activeWaves (fst (drawWaves d ws n))).
Proof.
  induction ws as [|w ws IH]; intros n.
  - cbn. unfold activeWaves. cbn. split; [reflexivity|]. split; lia.
  - cbn [drawWaves]. destruct (active w) eqn:A; cbn [negb]; cbv zeta.
    + destruct (height d <? _).
      * destruct (IH n) as (I1 & I2 & I3).
        cbn [fst snd List.length]. rewrite !activeWaves_cons, A.
        cbn [active set_active]. rewrite I1.
        split; [reflexivity|]. split; [lia|].
        intros Hn Hl. rewrite I3; lia.
      * destruct (IH (Int.add n 1)) as (I1 & I2 & I3).
        cbn [fst snd List.length]. rewrite !activeWaves_cons, A.
        change (active (drawWaveform w)) with (active w). rewrite A, I1.
        split; [reflexivity|]. split; [lia|].
        intros Hn Hl. cbn [List.length] in Hl.
        rewrite add_exact in * by int_lia. rewrite I3; lia.
    + destruct (IH n) as (I1 & I2 & I3).
      cbn [fst snd List.length]. rewrite !activeWaves_cons, A, I1.
      split; [reflexivity|]. split; [lia|].
      intros Hn Hl. cbn [List.length] in Hl. rewrite I3; lia.
Qed.

Lemma colorArgs_rng (w : World) :
  same_scene w (snd (colorArgs ord w)).
Proof.
  unfold colorArgs, random, bind, ret. destruct ord.
  all: pose proof (random_range_scene 0 255 w) as S1;
    destruct (random_range 0 255 w) as [a w1]; cbn [snd] in S1;
    pose proof (random_range_scene 0 255 w1) as S2;
    destruct (random_range 0 255 w1) as [b w2]; cbn [snd] in S2;
    pose proof (random_range_scene 0 255 w2) as S3;
    destruct (random_range 0 255 w2) as [c w3]; cbn [snd] in *;
    unfold same_scene in *; intuition congruence.
Qed.

(** The four arguments are in their ranges whichever way they are
    evaluated. *)
Lemma spawnArgs_spec (w : World) :
  let '(a, l, s, k) := fst (spawnArgs d ord w) in
  2 <= a <= 39 /\ 40 <= l <= Z.max 40 (height d - 1) /\ 1 <= s <= 5 /\
  0 <= k <= 5 /\ same_scene w (snd (spawnArgs d ord w)).
Proof.
  unfold spawnArgs, random, bind, ret, numWaveforms. destruct ord.
  - pose proof (random_range_bounds 2 40 w ltac:(lia)) as B1.
    pose proof (random_range_scene 2 40 w) as S1.
    destruct (random_range 2 40 w) as [a w1]. cbn [fst snd] in *.
    pose proof (random_range_drawn 40 (height d) w1) as B2.
    pose proof (random_range_scene 40 (height d) w1) as S2.
    destruct (random_range 40 (height d) w1) as [l w2]. cbn [fst snd] in *.
    pose proof (random_range_bounds 1 6 w2 ltac:(lia)) as B3.
    pose proof (random_range_scene 1 6 w2) as S3.
    destruct (random_range 1 6 w2) as [s w3]. cbn [fst snd] in *.
    pose proof (random_range_bounds 0 6 w3 ltac:(lia)) as B4.
    pose proof (random_range_scene 0 6 w3) as S4.
    destruct (random_range 0 6 w3) as [k w4]. cbn [fst snd] in *.
    unfold drawn in B2. unfold same_scene in *.
    repeat split; try lia; intuition congruence.
  - pose proof (random_range_bounds 0 6 w ltac:(lia)) as B4.
    pose proof (random_range_scene 0 6 w) as S4.
    destruct (random_range 0 6 w) as [k w1]. cbn [fst snd] in *.
    pose proof (random_range_bounds 1 6 w1 ltac:(lia)) as B3.
    pose proof (random_range_scene 1 6 w1) as S3.
    destruct (random_range 1 6 w1) as [s w2]. cbn [fst snd] in *.
    pose proof (random_range_drawn 40 (height d) w2) as B2.
    pose proof (random_range_scene 40 (height d) w2) as S2.
    destruct (random_range 40 (height d) w2) as [l w3]. cbn [fst snd] in *.
    pose proof (random_range_bounds 2 40 w3 ltac:(lia)) as B1.
    pose proof (random_range_scene 2 40 w3) as S1.
    destruct (random_range 2 40 w3) as [a w4]. cbn [fst snd] in *.
    unfold drawn in B2. unfold same_scene in *.
    repeat split; try lia; intuition congruence.
Qed.

(** [spawnWave]: the first free slot receives a wave at the top of the
    display, with its fields in range; with no free slot nothing
    happens, and no random number is drawn. *)
Lemma spawnWave_spec (ws : list Wave) (w : World) :
  same_scene w (snd (spawnWave d ord ws w)) /\
  match firstInactiveWave ws with
  | None => spawnWave d ord ws w = (ws, w)
  | Some i =>
      exists v : Wave,
        fst (spawnWave d ord ws w) = store i v ws /\
        active v = true /\ curY v = 0 /\
        1 <= speed v <= 5 /\ 40 <= length v <= Z.max 40 (height d - 1) /\
        2 <= radianOffset v <= 39 /\
        In (waveform v) waveformArray
  end.
Proof.
  unfold spawnWave.
  destruct (firstInactiveWave ws) as [i|].
  - unfold bind.
    pose proof (spawnArgs_spec w) as Sp.
    destruct (spawnArgs d ord w) as [[[[a l] s] k] w1]. cbn [fst snd] in Sp.
    destruct Sp as (Ha & Hl & Hs & Hk & Sc1).
    unfold initWaveform, bind, ret.
    pose proof (colorArgs_rng w1) as Sc2.
    destruct (colorArgs ord w1) as [[[r g] b] w2]. cbn [fst snd] in *.
    split; [unfold same_scene in *; intuition congruence|].
    eexists. split; [reflexivity|].
    cbn [active curY speed length radianOffset waveform].
    repeat split; try lia.
    apply nth_In. unfold waveformArray. cbn [List.length]. lia.
  - unfold ret. cbn [snd]. split; [unfold same_scene; tauto | reflexivity].
Qed.

Lemma spawnWave_count (ws : list Wave) (w : World) :
  List.length (fst (spawnWave d ord ws w)) = List.length ws /\
  activeWaves (fst (spawnWave d ord ws w)) =
  Z.min (activeWaves ws + 1) (Z.of_nat (List.length ws)).
Proof.
  destruct (spawnWave_spec ws w) as [_ Sp].
  destruct (firstInactiveWave ws) as [i|] eqn:F.
  - destruct Sp as (v & -> & Hv & _).
    destruct (firstInactiveWave_Some _ _ F) as (w0 & Hn & H0).
    rewrite store_length, (activeWaves_store i v w0 ws Hn H0 Hv).
    split; [reflexivity|].
    pose proof (activeWaves_bounds ws) as B.
    assert (activeWaves ws < Z.of_nat (List.length ws)).
    { clear - Hn H0. revert i Hn.
      induction ws as [|x ws IH]; intros [|i] Hn; simpl in Hn;
        try discriminate.
      - injection Hn as ->. rewrite activeWaves_cons, H0.
        pose proof (activeWaves_bounds ws). cbn [List.length]. lia.
      - rewrite activeWaves_cons. specialize (IH i Hn).
        cbn [List.length]. destruct (active x); lia. }
    lia.
  - rewrite Sp. cbn [fst]. split; [reflexivity|].
    rewrite (firstInactiveWave_None _ F). lia.
Qed.

(** One frame of the analog scene, counted. *)
Lemma drawAnalog_count (ws : list Wave) (w : World) :
  List.length ws = numWaves ->
  let ws' := fst (drawAnalog d ord ws w) in
  List.length ws' = numWaves /\
  1 <= activeWaves ws' /\
  (activeWaves ws <= 4 -> activeWaves ws' <= 4) /\
  activeWaves ws' <= Z.max 4 (activeWaves ws).
Proof.
  intros Hlen ws'. subst ws'. unfold drawAnalog. cbv zeta.
  destruct (drawWaves_spec ws 0) as (L & Hle & Hcnt).
  rewrite Hlen in L, Hcnt. unfold numWaves in *.
  specialize (Hcnt ltac:(lia) ltac:(int_lia)). rewrite Z.add_0_l in Hcnt.
  set (ws0 := fst (drawWaves d ws 0)) in *.
  rewrite Hcnt. pose proof (activeWaves_bounds ws0) as B0. rewrite L in B0.
  unfold bind, random, ret.
  assert (Step2 : forall (ws1 : list Wave) (w1 : World),
    List.length ws1 = 5%nat ->
    let r := (let (n, w2) := random_range 0 120 w1 in
              (if n =? 0 then spawnWave d ord ws1
               else fun w0 : World => (ws1, w0)) w2) in
    List.length (fst r) = 5%nat /\
    activeWaves ws1 <= activeWaves (fst r) <= activeWaves ws1 + 1).
  { intros ws1 w1 L1. cbv zeta.
    destruct (random_range 0 120 w1) as [n w2].
    destruct (n =? 0).
    - destruct (spawnWave_count ws1 w2) as [-> ->]. rewrite L1.
      pose proof (activeWaves_bounds ws1) as B1. rewrite L1 in B1.
      split; [reflexivity|]. lia.
    - cbn [fst]. split; [exact L1|]. lia. }
  destruct (activeWaves ws0 <? 1) eqn:E1; zbool.
  - destruct (spawnWave_count ws0 w) as [L1 Hc].
    destruct (spawnWave d ord ws0 w) as [ws1 w1]. cbn [fst] in L1, Hc.
    rewrite L in L1, Hc.
    destruct (activeWaves ws0 <? 4) eqn:E4; zbool; [|lia].
    specialize (Step2 ws1 w1 L1). cbv zeta in Step2.
    destruct Step2 as [-> S2]. split; [reflexivity|]. lia.
  - destruct (activeWaves ws0 <? 4) eqn:E4; zbool.
    + specialize (Step2 ws0 w L). cbv zeta in Step2.
      destruct Step2 as [-> S2]. split; [reflexivity|]. lia.
    + cbn [fst]. split; [exact L|]. lia.
Qed.

Lemma analogFrames_S (n : nat) (ws : list Wave) (w : World) :
  analogFrames (S n) d ord ws w =
  analogFrames n d ord (fst (drawAnalog d ord ws w))
               (snd (drawAnalog d ord ws w)).
Proof.
  cbn [analogFrames]. unfold bind. destruct (drawAnalog d ord ws w).
  reflexivity.
Qed.

(** X15. The analog scene keeps between one and four waves on screen:
    after any number of frames, at least one, the pool still has its
    five slots and at least one active wave, and at most four if it
    started with at most four, whatever the generator produces and in
    whichever order the compiler evaluates the random arguments. *)
Theorem analog_keeps_one_to_four_waves (n : nat) :
  forall (ws : list Wave) (w : World),
    List.length ws = numWaves ->
    let ws' := fst (analogFrames (S n) d ord ws w) in
    List.length ws' = numWaves /\
    1 <= activeWaves ws' /\
    (activeWaves ws <= 4 -> activeWaves ws' <= 4).
Proof.
  induction n as [|n IH]; intros ws w Hlen ws'; subst ws';
    rewrite analogFrames_S;
    pose proof (drawAnalog_count ws w Hlen) as Hc; cbv zeta in Hc;
    destruct Hc as (L1 & Lo1 & Hi1 & _).
  - cbn [analogFrames ret fst]. tauto.
  - specialize (IH (fst (drawAnalog d ord ws w))
                   (snd (drawAnalog d ord ws w)) L1).
    cbv zeta in IH. destruct IH as (L2 & Lo2 & Hi2).
    split; [exact L2|]. split; [exact Lo2|].
    intros H4. apply Hi2, Hi1, H4.
Qed.

Lemma drawWaves_map (ws : list Wave) :
  forall n : Z, fst (drawWaves d ws n) = map (waveTick d) ws.
Proof.
  induction ws as [|w ws IH]; intros n; [reflexivity|].
  cbn [drawWaves map]. unfold waveTick at 1.
  destruct (negb (active w)); cbv zeta.
  - cbn [fst]. rewrite IH. reflexivity.
  - destruct (height d <? _); cbn [fst]; rewrite IH; reflexivity.
Qed.

Lemma waveTick_ok (w : Wave) :
  0 <= height d <= 32767 -> wave_ok d w -> wave_ok d (waveTick d w).
Proof.
  intros Hh Hok. unfold waveTick.
  destruct (active w) eqn:A; cbn [negb]; [|exact Hok].
  destruct (Hok A) as (Hs & Hl & Hr & Hy).
  cbv zeta. unfold drawWaveform.
  cbn [curY length set_curY].
  rewrite add_exact by int_lia. rewrite sub_exact by int_lia.
  destruct (height d <? curY w + speed w - length w) eqn:E; zbool.
  - intros A'. discriminate A'.
  - intros _. cbn [speed length radianOffset curY set_curY]. lia.
Qed.

Lemma spawnWave_ok (ws : list Wave) (w : World) :
  0 <= height d -> Forall (wave_ok d) ws ->
  Forall (wave_ok d) (fst (spawnWave d ord ws w)).
Proof.
  intros Hh Hok. destruct (spawnWave_spec ws w) as [_ Sp].
  destruct (firstInactiveWave ws) as [i|].
  - destruct Sp as (v & -> & Hv & Hy & Hs & Hl & Hr & _).
    apply Forall_store; [exact Hok|]. intros _. lia.
  - rewrite Sp. exact Hok.
Qed.

(** [spawnWave] leaves a wave on screen where it is. *)
Lemma spawnWave_keeps (ws : list Wave) (w : World) (i : nat) (v : Wave) :
  nth_error ws i = Some v -> active v = true ->
  nth_error (fst (spawnWave d ord ws w)) i = Some v.
Proof.
  intros Hn Ha. destruct (spawnWave_spec ws w) as [_ Sp].
  destruct (firstInactiveWave ws) as [j|] eqn:F.
  - destruct Sp as (v' & -> & _).
    destruct (firstInactiveWave_Some _ _ F) as (w0 & Hn0 & H0).
    destruct (Nat.eq_dec j i) as [-> | Hji]; [congruence|].
    rewrite store_nth_ne by exact Hji. exact Hn.
  - rewrite Sp. exact Hn.
Qed.

(** One frame, slot by slot: the loop, then up to two calls of
    [spawnWave], which keep what is on screen. *)
Lemma drawAnalog_slots (ws : list Wave) (w : World) :
  0 <= height d <= 32767 ->
  (Forall (wave_ok d) ws ->
   Forall (wave_ok d) (fst (drawAnalog d ord ws w))) /\
  forall (i : nat) (v : Wave),
    nth_error ws i = Some v -> active (waveTick d v) = true ->
    nth_error (fst (drawAnalog d ord ws w)) i = Some (waveTick d v).
Proof.
  intros Hh. unfold drawAnalog. cbv zeta. rewrite drawWaves_map.
  set (ws0 := map (waveTick d) ws).
  assert (Ok0 : Forall (wave_ok d) ws -> Forall (wave_ok d) ws0).
  { intros H. apply Forall_map. eapply Forall_impl; [|exact H].
    intros a. apply waveTick_ok. exact Hh. }
  assert (Sl0 : forall i v, nth_error ws i = Some v ->
                nth_error ws0 i = Some (waveTick d v)).
  { intros i v Hn. unfold ws0. rewrite nth_error_map, Hn. reflexivity. }
  clearbody ws0.
  unfold bind, random, ret.
  assert (K : forall (b : bool) (l : list Wave) (w0 : World),
    let r := (if b then spawnWave d ord l else fun w1 : World => (l, w1)) w0 in
    (Forall (wave_ok d) l -> Forall (wave_ok d) (fst r)) /\
    forall i v, nth_error l i = Some v -> active v = true ->
                nth_error (fst r) i = Some v).
  { intros b l w0. cbv zeta. destruct b.
    - split; [apply spawnWave_ok; lia | intros i v; apply spawnWave_keeps].
    - cbn [fst]. split; auto. }
  pose proof (K (snd (drawWaves d ws 0) <? 1) ws0 w) as K1. cbv zeta in K1.
  destruct ((if snd (drawWaves d ws 0) <? 1 then spawnWave d ord ws0
             else fun w1 : World => (ws0, w1)) w) as [ws1 w1].
  cbn [fst] in K1. destruct K1 as [Ok1 Sl1].
  destruct (snd (drawWaves d ws 0) <? 4).
  - destruct (random_range 0 120 w1) as [n w2].
    pose proof (K (n =? 0) ws1 w2) as K2. cbv zeta in K2.
    destruct K2 as [Ok2 Sl2].
    split; [auto|]. intros i v Hn Ha. apply Sl2; [|exact Ha].
    apply Sl1; [|exact Ha]. apply Sl0, Hn.
  - cbn [fst]. split; [auto|]. intros i v Hn Ha.
    apply Sl1; [|exact Ha]. apply Sl0, Hn.
Qed.

Lemma wave_outlived (i : nat) :
  0 <= height d <= 32767 ->
  forall (b : nat) (ws : list Wave) (w : World) (v : Wave),
    Forall (wave_ok d) ws -> nth_error ws i = Some v -> active v = true ->
    height d + length v - curY v < Z.of_nat b ->
    exists (n : nat) (v' : Wave),
      (n < b)%nat /\
      nth_error (fst (drawWaves d (fst (analogFrames n d ord ws w)) 0)) i
        = Some v' /\
      active v' = false.
Proof.
  intros Hh. induction b as [|b IH]; intros ws w v Hok Hn Ha Hb.
  - exfalso. rewrite Forall_forall in Hok.
    destruct (Hok v (nth_error_In _ _ Hn) Ha) as (_ & _ & _ & Hy). lia.
  - pose proof Hok as Hok'. rewrite Forall_forall in Hok'.
    destruct (Hok' v (nth_error_In _ _ Hn) Ha) as (Hs & Hl & Hr & Hy).
    destruct (active (waveTick d v)) eqn:A1.
    + destruct (drawAnalog_slots ws w Hh) as [Ok1 Sl1].
      specialize (Ok1 Hok). specialize (Sl1 i v Hn A1).
      assert (Hc : curY (waveTick d v) = curY v + speed v /\
                   length (waveTick d v) = length v).
      { unfold waveTick in *. rewrite Ha in *. cbn [negb] in *.
        cbv zeta in *. unfold drawWaveform in *.
        cbn [curY length set_curY] in *.
        rewrite add_exact in * by int_lia.
        destruct (height d <? _); [discriminate A1|].
        cbn [curY length set_curY]. split; reflexivity. }
      destruct Hc as [Hc1 Hc2].
      destruct (IH (fst (drawAnalog d ord ws w)) (snd (drawAnalog d ord ws w))
                  (waveTick d v) Ok1 Sl1 A1 ltac:(lia))
        as (n & v' & Hlt & Hn' & A').
      exists (S n), v'. split; [lia|]. rewrite analogFrames_S.
      split; assumption.
    + exists O, (waveTick d v). split; [lia|]. split; [|exact A1].
      cbn [analogFrames ret fst]. rewrite drawWaves_map, nth_error_map, Hn.
      reflexivity.
Qed.

(** X16. Every wave of the analog scene scrolls off and is retired. As
    long as the pool only holds waves with the fields [spawnWave]
    gives them (speed 1..5, length from 40 to below the height, leading
    edge not more than [length] past the bottom), a frame leaves such a
    pool behind, and a wave that is on screen is switched off by the
    loop of one of the next [height + length - curY + 1] frames of the
    scene, whatever the generator produces and in whichever order the
    random arguments are evaluated. *)
Theorem every_wave_scrolls_off
        (ws : list Wave) (w : World) (i : nat) (v : Wave) :
  0 <= height d <= 32767 -> Forall (wave_ok d) ws ->
  nth_error ws i = Some v -> active v = true ->
  Forall (wave_ok d) (fst (drawAnalog d ord ws w)) /\
  exists (n : nat) (v' : Wave),
    Z.of_nat n <= height d + length v - curY v /\
    nth_error (fst (drawWaves d (fst (analogFrames n d ord ws w)) 0)) i
      = Some v' /\
    active v' = false.
Proof.
  intros Hh Hok Hn Ha.
  split; [apply drawAnalog_slots; assumption|].
  pose proof Hok as Hok'. rewrite Forall_forall in Hok'.
  destruct (Hok' v (nth_error_In _ _ Hn) Ha) as (_ & _ & _ & Hy).
  destruct (wave_outlived i Hh
              (Z.to_nat (height d + length v - curY v + 1)) ws w v
              Hok Hn Ha ltac:(lia))
    as (n & v' & Hlt & Hn' & A').
  exists n, v'. split; [lia|]. split; assumption.
Qed.

(** X17. [spawnWave] fills the first free slot of the pool with a
    wave that starts at the top of the display ([curY = 0]) and is
    active, with a speed in 1..5, a length from 40 to below the height
    of the display (40 when the display is not higher than that), a
    frequency factor in 2..39 and one of the six wave forms, in
    whichever order the random arguments are evaluated. Every other
    slot keeps its wave, and nothing of the digital scene is touched.
    With no free slot the pool stays as it is and no random number is
    drawn. *)
Theorem spawnWave_fills_first_free_slot (ws : list Wave) (w : World) :
  same_scene w (snd (spawnWave d ord ws w)) /\
  List.length (fst (spawnWave d ord ws w)) = List.length ws /\
  (forall (j : nat) (v : Wave),
     nth_error ws j = Some v -> active v = true ->
     nth_error (fst (spawnWave d ord ws w)) j = Some v) /\
  match firstInactiveWave ws with
  | None => spawnWave d ord ws w = (ws, w)
  | Some i =>
      (exists v0, nth_error ws i = Some v0 /\ active v0 = false) /\
      activeWaves (fst (spawnWave d ord ws w)) = activeWaves ws + 1 /\
      exists v : Wave,
        fst (spawnWave d ord ws w) = store i v ws /\
        active v = true /\ curY v = 0 /\
        1 <= speed v <= 5 /\ 40 <= length v <= Z.max 40 (height d - 1) /\
        2 <= radianOffset v <= 39 /\
        In (waveform v) waveformArray
  end.
Proof.
  destruct (spawnWave_spec ws w) as [Sc Sp].
  split; [exact Sc|]. split; [apply spawnWave_count|].
  split; [intros j v; apply spawnWave_keeps|].
  destruct (firstInactiveWave ws) as [i|] eqn:F; [|exact Sp].
  destruct (firstInactiveWave_Some _ _ F) as (v0 & Hn0 & H0).
  split; [exists v0; split; assumption|].
  destruct Sp as (v & E & Hv & Rest). split.
  - rewrite E. apply (activeWaves_store i v v0 ws Hn0 H0 Hv).
  - exists v. split; [exact E|]. split; [exact Hv | exact Rest].
Qed.

End AnalogFacts.


Lemma analog_keeps_one_to_four_waves_witness :
  1 <= Analog.activeWaves
         (fst (Analog.analogFrames 200 installation LeftToRight
                 Analog.emptyPool (powerOn demoRng))) <= 4.
Proof.
  pose proof (analog_keeps_one_to_four_waves installation LeftToRight 199
                Analog.emptyPool (powerOn demoRng) eq_refl) as H.
  cbv zeta in H. destruct H as (_ & Lo & Hi).
  split; [exact Lo|]. apply Hi. vm_compute. discriminate.
Defined.

Lemma every_wave_scrolls_off_witness :
  let ws := fst (Analog.drawAnalog installation RightToLeft Analog.emptyPool
                                   (powerOn demoRng)) in
  exists (n : nat) (v' : Analog.Wave),
    Z.of_nat n <= height installation
                  + Analog.length (nth 0 ws Analog.zeroWave)
                  - Analog.curY (nth 0 ws Analog.zeroWave) /\
    nth_error (fst (Analog.drawWaves installation
                      (fst (Analog.analogFrames n installation RightToLeft ws
                              (powerOn demoRng))) 0)) 0
      = Some v' /\
    Analog.active v' = false.
Proof.
  intros ws.
  refine (proj2 (every_wave_scrolls_off installation RightToLeft ws
                   (powerOn demoRng) 0 (nth 0 ws Analog.zeroWave) _ _ _ _)).
  - unfold installation. simpl. lia.
  - vm_compute.
    repeat (constructor; [intros Ha; try discriminate Ha;
                          repeat split; discriminate|]).
    constructor.
  - vm_compute. reflexivity.
  - vm_compute. reflexivity.
Defined.

Lemma same_scene_set_rng (w w' : World) :
  same_scene w w' -> w' = set_rng (rng w') w.
Proof.
  destruct w, w'. unfold same_scene. cbn.
  intros (-> & -> & -> & -> & ->). reflexivity.
Qed.

Lemma same_scene_refl (w : World) : same_scene w w.
Proof. unfold same_scene. tauto. Qed.

Lemma same_scene_trans (a b c : World) :
  same_scene a b -> same_scene b c -> same_scene a c.
Proof. unfold same_scene. intuition congruence. Qed.

(** The analog scene takes random numbers and leaves the digital scene
    as it is. *)
Lemma drawAnalog_scene (d : Display) (ord : ArgOrder)
      (ws : list Analog.Wave) (w : World) :
  same_scene w (snd (Analog.drawAnalog d ord ws w)).
Proof.
  unfold Analog.drawAnalog. cbv zeta. unfold bind, random, ret.
  assert (K : forall (b : bool) (l : list Analog.Wave) (w0 : World),
    same_scene w0
      (snd ((if b then Analog.spawnWave d ord l
             else fun w1 : World => (l, w1)) w0))).
  { intros b l w0. destruct b; [|apply same_scene_refl].
    apply (spawnWave_spec d ord l w0). }
  match goal with
  | |- context [(if ?b then Analog.spawnWave d ord ?l else _) w] =>
      pose proof (K b l w) as K1;
      destruct ((if b then Analog.spawnWave d ord l
                 else fun w1 : World => (l, w1)) w) as [ws1 w1]
  end.
  cbn [snd] in K1.
  destruct (snd (Analog.drawWaves d ws 0) <? 4); [|exact K1].
  pose proof (random_range_scene 0 120 w1) as S2.
  destruct (random_range 0 120 w1) as [n w2]. cbn [snd] in S2.
  specialize (K (n =? 0) ws1 w2).
  eapply same_scene_trans; [exact K1|].
  eapply same_scene_trans; [exact S2 | exact K].
Qed.

(** X18. A call of [loop()] runs at most one scene. When less than
    [microsPerFrame] = 16666 microseconds have passed since the last
    frame it changes neither scene nor the frame timer; otherwise it
    restarts the frame timer and runs exactly the scene of the current
    mode: in analog mode the waves change and the digital scene keeps
    everything but the generator, in digital mode the digital scene
    takes one [drawDigital] and the waves are untouched. The mode is
    flipped, before that, exactly when at least 30000 milliseconds
    have passed since the last flip. *)
Theorem loop_runs_at_most_one_scene
        (d : Display) (ord : ArgOrder) (s : Sketch) :
  let s' := loop d ord s in
  let due := microsPerFrame <=?
               elapsed (microsClock s 0%nat) (timeSinceFrame s) in
  let flip := switchInterval <=?
                elapsed (millisClock s 0%nat) (timeSinceSwitch s) in
  microsPerFrame = 16666 /\
  analogMode s' = (if flip then negb (analogMode s) else analogMode s) /\
  (due = false ->
   digital s' = digital s /\ waves s' = waves s /\
   timeSinceFrame s' = timeSinceFrame s) /\
  (due = true -> analogMode s' = true ->
   same_scene (digital s) (digital s') /\
   (waves s', digital s') = Analog.drawAnalog d ord (waves s) (digital s)) /\
  (due = true -> analogMode s' = false ->
   waves s' = waves s /\ digital s' = frame d (digital s)).
Proof.
  intros s' due flip. subst s' due flip. unfold loop. cbv zeta.
  split; [reflexivity|].
  destruct (switchInterval <=? elapsed (millisClock s 0%nat) (timeSinceSwitch s));
    destruct (elapsed (microsClock s 0%nat) (timeSinceFrame s) <? microsPerFrame)
      eqn:E.
  all: assert (Hd : (microsPerFrame <=?
                       elapsed (microsClock s 0%nat) (timeSinceFrame s))
                    = negb true \/
                    (microsPerFrame <=?
                       elapsed (microsClock s 0%nat) (timeSinceFrame s))
                    = negb false)
         by (destruct (microsPerFrame <=? _) eqn:E'; zbool; cbn; auto; lia).
  all: destruct Hd as [Hd | Hd]; zbool; try lia; rewrite Hd; cbn [negb].
  all: try (destruct (analogMode s); cbn [negb]).
  all: cbn [analogMode digital waves timeSinceFrame].
  all: repeat split; try reflexivity; try discriminate; intros;
       try discriminate.
  all: try apply drawAnalog_scene.
  all: try (destruct (Analog.drawAnalog d ord (waves s) (digital s));
            reflexivity).
Qed.


Lemma loop_ok (d : Display) (ord : ArgOrder) (s : Sketch) :
  0 <= height d <= 32767 -> sketch_ok d s -> sketch_ok d (loop d ord s).
Proof.
  intros Hh (Hr & Hl & Hok & H4). unfold sketch_ok, loop. cbv zeta.
  destruct (switchInterval <=? _);
    destruct (elapsed (microsClock s 0%nat) (timeSinceFrame s) <? microsPerFrame);
    try (destruct (analogMode s)); cbn [negb digital waves];
    try (repeat split; assumption).
  all: try (split; [apply reach_frame; exact Hr|];
            repeat split; assumption).
  all: pose proof (drawAnalog_scene d ord (waves s) (digital s)) as Sc;
       apply same_scene_set_rng in Sc;
       pose proof (drawAnalog_count d ord (waves s) (digital s) Hl) as Hc;
       cbv zeta in Hc; destruct Hc as (L1 & _ & Hi & _);
       destruct (drawAnalog_slots d ord (waves s) (digital s) Hh) as [Ok1 _];
       split; [rewrite Sc; apply reach_rng; exact Hr|];
       split; [exact L1|]; split; [apply Ok1; exact Hok | apply Hi; exact H4].
Qed.

(** X19. Whatever the clocks read, the invariants of both scenes
    survive the main loop: starting from a digital scene in a state
    its own frames lead to and a pool of five sound waves with at most
    four on screen, every number of calls of [loop()] leaves the
    sketch in such a state again. In particular the analog scene,
    which shares the random generator with the digital one, never
    takes the digital scene out of the states its invariants are
    proved for. *)
Theorem main_loop_keeps_both_scenes_sound
        (d : Display) (ord : ArgOrder) (n : nat) :
  forall s : Sketch,
    0 <= height d <= 32767 ->
    reachable d (digital s) ->
    length (waves s) = Analog.numWaves ->
    Forall (Analog.wave_ok d) (waves s) ->
    Analog.activeWaves (waves s) <= 4 ->
    let s' := loops n d ord s in
    reachable d (digital s') /\
    length (waves s') = Analog.numWaves /\
    Forall (Analog.wave_ok d) (waves s') /\
    Analog.activeWaves (waves s') <= 4.
Proof.
  induction n as [|n IH]; intros s Hh Hr Hl Hok H4 s'; subst s'.
  - cbn [loops]. tauto.
  - cbn [loops].
    destruct (loop_ok d ord s Hh) as (Hr1 & Hl1 & Hok1 & H41);
      [unfold sketch_ok; tauto|].
    apply IH; assumption.
Qed.

Lemma main_loop_keeps_both_scenes_sound_witness :
  reachable installation (digital (loops 300 installation LeftToRight demoSketch))
  /\ Analog.activeWaves
       (waves (loops 300 installation LeftToRight demoSketch)) <= 4.
Proof.
  pose proof (main_loop_keeps_both_scenes_sound installation LeftToRight 300
                demoSketch) as H.
  cbv zeta in H.
  destruct H as (Hr & _ & _ & H4).
  - unfold installation. simpl. lia.
  - apply reach_boot.
  - reflexivity.
  - vm_compute.
    repeat (constructor; [intros Ha; discriminate Ha|]). constructor.
  - vm_compute. discriminate.
  - split; assumption.
Defined.

(* ------------------------------------------------------------------ *)
(** ** The sensor firmware: notes *)
(* ------------------------------------------------------------------ *)

Lemma to_uint8_fits (z : Z) : 0 <= z <= 255 -> Int.to_uint8 z = z.
Proof. intros H. unfold Int.to_uint8. apply Z.mod_small. lia. Qed.

Lemma same_wiring_refl (s : Sensor) : same_wiring s s.
Proof. unfold same_wiring. tauto. Qed.

Lemma same_wiring_trans (a b c : Sensor) :
  same_wiring a b -> same_wiring b c -> same_wiring a c.
Proof. unfold same_wiring. intuition congruence. Qed.

Lemma script_wiring (s s' : Sensor) (p : bool) (k : nat) :
  same_wiring s s' -> script s' p k = script s p k.
Proof.
  intros (_ & Ho & _ & _ & Hc & _). revert p.
  induction k as [|k IH]; intros p; [reflexivity|].
  cbn [script]. rewrite IH. unfold noteOnCalls, noteOffCalls.
  rewrite Ho, Hc. reflexivity.
Qed.

Lemma noteOn_emits (s : Sensor) :
  sensor_ok s ->
  [SerialPlaying (_midiChannel s);
   digitalWrite (_outPin s) HIGH;
   sendNoteOn (_midiNote s) (_midiVelocity s) (_midiChannel s);
   sendControlChange (_midiCCOn s) 1 (_midiCCChannel s)] = noteOnCalls s.
Proof.
  intros (Hi & Ho & Hc & -> & -> & -> & _ & -> & _).
  unfold noteOnCalls, digitalWrite, sendNoteOn, sendControlChange, HIGH.
  rewrite !to_uint8_fits by lia. reflexivity.
Qed.

Lemma noteOff_emits (s : Sensor) :
  sensor_ok s ->
  [digitalWrite (_outPin s) LOW;
   sendNoteOff (_midiNote s) (_midiVelocity s) (_midiChannel s);
   sendControlChange (_midiCCOff s) 1 (_midiCCChannel s)] = noteOffCalls s.
Proof.
  intros (Hi & Ho & Hc & -> & -> & _ & -> & -> & _).
  unfold noteOffCalls, digitalWrite, sendNoteOff, sendControlChange, LOW.
  rewrite !to_uint8_fits by lia. reflexivity.
Qed.

(** One poll emits the calls of at most one note-on or note-off, the
    one that is due. *)
Lemma check_step (s : Sensor) (env : Env) :
  sensor_ok s ->
  let s' := fst (check s env) in
  let env' := snd (check s env) in
  sensor_ok s' /\ same_wiring s s' /\
  ((_noteOn s' = _noteOn s /\ emitted env' = emitted env) \/
   (_noteOn s' = negb (_noteOn s) /\
    emitted env' =
    emitted env ++ (if _noteOn s then noteOffCalls s else noteOnCalls s))).
Proof.
  intros Hok s' env'. subst s' env'.
  pose proof (noteOn_emits s Hok) as On.
  pose proof (noteOff_emits s Hok) as Off.
  pose proof Hok as (Hi & Ho & Hc & Hn & Hv & Hon & Hoff & Hcc & Hd & Hst).
  unfold check, _checkNote, playNote, digitalRead, millis, emit.
  destruct (_noteOn s) eqn:N; cbn [negb]; cbv beta iota zeta;
    cbn [millisT pinLevel emitted].
  - specialize (Hst eq_refl).
    destruct (_noteDuration s <=? sinceT (millisT env 0%nat) (_noteTimer s)).
    + cbn [_noteOn _inPin _state set_state_noteOn_timer millisT pinLevel
           emitted].
      rewrite Off, Hst.
      destruct (pinLevel env (Int.to_uint8 (_inPin s)) 0%nat =? HIGH).
      * cbn [fst snd emitted]. unfold sensor_ok, same_wiring. cbn.
        split; [repeat split; try tauto; try lia; try discriminate;
               intros; congruence|].
        split; [tauto|]. right. split; reflexivity.
      * cbn [fst snd emitted]. unfold sensor_ok, same_wiring. cbn.
        split; [repeat split; try tauto; try lia; try discriminate;
               intros; congruence|].
        split; [tauto|]. right. split; reflexivity.
    + rewrite N. cbn [fst snd emitted].
      split; [exact Hok|]. split; [apply same_wiring_refl|].
      left. split; [exact N | reflexivity].
  - rewrite ?N. cbv beta iota zeta. cbn [millisT pinLevel emitted].
    destruct (pinLevel env (Int.to_uint8 (_inPin s)) 0%nat =? _state s).
    + cbn [fst snd emitted]. split; [exact Hok|].
      split; [apply same_wiring_refl|]. left. split; [exact N | reflexivity].
    + destruct (pinLevel env (Int.to_uint8 (_inPin s)) 0%nat =? HIGH) eqn:E2.
      * cbv beta iota zeta.
        cbn [millisT pinLevel emitted fst snd _noteOn _noteTimer
             set_state_noteOn_timer].
        rewrite <- app_assoc. cbn [app]. rewrite On.
        apply Z.eqb_eq in E2.
        unfold sensor_ok, same_wiring. cbn.
        split; [repeat split; try tauto; try lia|].
        split; [tauto|]. right. split; reflexivity.
      * cbn [fst snd emitted _noteOn set_state_noteOn_timer].
        unfold sensor_ok, same_wiring. cbn.
        split; [repeat split; try tauto; try lia; try discriminate;
               intros; congruence|].
        split; [tauto|]. left. split; [exact N | reflexivity].
Qed.

Lemma checks_S (n : nat) (s : Sensor) (env : Env) :
  checks (S n) s env = checks n (fst (check s env)) (snd (check s env)).
Proof. cbn [checks]. destruct (check s env). reflexivity. Qed.

(** X20. The notes of a sensor never overlap: over any number of
    polls, whatever the clock and the input do, what a sound sensor
    emits is a sequence of whole note-ons and note-offs in turn, at
    most one per poll. A note-on is the four calls log line, output
    pin HIGH, note 60 at velocity 100 on the sensor's channel, control
    change [2 * channel] on channel 16; a note-off is output pin LOW,
    note-off, control change [2 * channel + 1] on channel 16. The
    sequence begins with a note-off exactly if a note was playing, and
    [_noteOn] afterwards tells whether its last entry was a note-on. *)
Theorem notes_never_overlap (n : nat) :
  forall (s : Sensor) (env : Env),
    sensor_ok s ->
    let s' := fst (checks n s env) in
    let env' := snd (checks n s env) in
    exists k : nat,
      (k <= n)%nat /\
      emitted env' = emitted env ++ script s (_noteOn s) k /\
      _noteOn s' = (if Nat.even k then _noteOn s else negb (_noteOn s)) /\
      sensor_ok s' /\ same_wiring s s'.
Proof.
  induction n as [|n IH]; intros s env Hok s' env'; subst s' env'.
  - exists O. cbn [checks fst snd script Nat.even].
    rewrite app_nil_r. split; [lia|]. split; [reflexivity|].
    split; [reflexivity|]. split; [exact Hok | apply same_wiring_refl].
  - rewrite checks_S.
    destruct (check_step s env Hok) as (Hok1 & W1 & St).
    set (s1 := fst (check s env)) in *. set (env1 := snd (check s env)) in *.
    destruct (IH s1 env1 Hok1) as (k & Hk & He & Hn & Hok2 & W2).
    rewrite (script_wiring s s1 _ k W1) in He.
    destruct St as [[N1 E1] | [N1 E1]].
    + exists k. split; [lia|]. rewrite He, E1, N1, Hn, N1.
      split; [reflexivity|]. split; [reflexivity|].
      split; [exact Hok2 | eapply same_wiring_trans; eassumption].
    + exists (S k). split; [lia|]. rewrite He, E1, N1, Hn, N1.
      cbn [script]. rewrite <- app_assoc.
      split; [reflexivity|]. split.
      * rewrite Nat.even_succ, <- Nat.negb_even.
        destruct (Nat.even k), (_noteOn s); reflexivity.
      * split; [exact Hok2 | eapply same_wiring_trans; eassumption].
Qed.

Lemma notes_never_overlap_witness :
  exists k : nat,
    (k <= 40)%nat /\
    emitted (snd (checks 40 demoSensor demoEnv1)) =
      emitted demoEnv1 ++ script demoSensor (_noteOn demoSensor) k /\
    _noteOn (fst (checks 40 demoSensor demoEnv1)) =
      (if Nat.even k then _noteOn demoSensor else negb (_noteOn demoSensor)) /\
    sensor_ok (fst (checks 40 demoSensor demoEnv1)) /\
    same_wiring demoSensor (fst (checks 40 demoSensor demoEnv1)).
Proof.
  apply (notes_never_overlap 40 demoSensor demoEnv1).
  vm_compute. repeat split; try discriminate; try reflexivity.
Defined.

Lemma newSensor_ok (inPin outPin midiChannel : Z) (env : Env) :
  0 <= inPin <= 255 -> 0 <= outPin <= 255 -> 0 <= midiChannel <= 127 ->
  let s := fst (newSensor inPin outPin midiChannel env) in
  sensor_ok s /\ _noteOn s = false /\ _state s = LOW /\
  _inPin s = inPin /\ _outPin s = outPin /\ _midiChannel s = midiChannel.
Proof.
  intros Hi Ho Hc s. subst s. unfold newSensor, millis.
  cbv beta iota zeta. cbn [fst].
  unfold sensor_ok.
  cbn [_inPin _outPin _midiNote _midiVelocity _midiChannel _midiCCOn
       _midiCCOff _midiCCChannel _state _noteDuration _noteOn _noteTimer].
  rewrite !wrap32_id by int_lia. rewrite add_exact by int_lia.
  repeat split; try lia; try discriminate.
Qed.

Lemma afterMillis_S (k : nat) (env : Env) :
  afterMillis (S k) env = afterMillis k (snd (millis env)).
Proof. unfold afterMillis. apply Nat.iter_succ_r. Qed.

(** While a note is playing and its time is not up, a poll reads the
    clock and does nothing else. *)
Lemma check_waiting (s : Sensor) (env : Env) :
  _noteOn s = true ->
  sinceT (millisT env 0%nat) (_noteTimer s) < _noteDuration s ->
  check s env = (s, snd (millis env)).
Proof.
  intros N Hlt. unfold check, _checkNote. rewrite N. cbn [negb].
  unfold millis. cbv beta iota zeta.
  destruct (_noteDuration s <=? _) eqn:E; zbool; [lia|].
  rewrite N. reflexivity.
Qed.

(** When the time of a note is up, the poll ends it; it cannot start
    the next one, because the input has to be seen LOW first. *)
Lemma check_ending (s : Sensor) (env : Env) :
  sensor_ok s -> _noteOn s = true ->
  _noteDuration s <= sinceT (millisT env 0%nat) (_noteTimer s) ->
  _noteOn (fst (check s env)) = false /\
  emitted (snd (check s env)) = emitted env ++ noteOffCalls s.
Proof.
  intros Hok N Hge.
  pose proof (noteOff_emits s Hok) as Off.
  destruct Hok as (_ & _ & _ & _ & _ & _ & _ & _ & _ & Hst).
  specialize (Hst N).
  unfold check, _checkNote, digitalRead, millis, emit.
  rewrite N. cbn [negb]. cbv beta iota zeta.
  cbn [millisT pinLevel emitted].
  destruct (_noteDuration s <=? _) eqn:E; zbool; [|lia].
  cbn [_noteOn _inPin _state set_state_noteOn_timer millisT pinLevel emitted].
  rewrite Off, Hst.
  destruct (_ =? HIGH) eqn:E1.
  - cbn [fst snd emitted _noteOn set_state_noteOn_timer].
    split; reflexivity.
  - cbn [fst snd emitted _noteOn set_state_noteOn_timer].
    split; reflexivity.
Qed.

(** X21. A note lasts until the first poll that finds at least 5000 ms
    on its timer, and until then the sensor is deaf: while every
    reading of the clock is less than [_noteDuration] after the start
    of the note (in 32-bit unsigned arithmetic, so also across the
    roll-over of [millis()]), the polls change neither the sensor nor
    the input streams and emit nothing; the first poll that finds the
    time up switches the note off, emits the three calls of a
    note-off and no note-on. *)
Theorem note_lasts_its_duration (k : nat) :
  forall (s : Sensor) (env : Env),
    sensor_ok s -> _noteOn s = true ->
    (forall j : nat, (j < k)%nat ->
       sinceT (millisT env j) (_noteTimer s) < 5000) ->
    checks k s env = (s, afterMillis k env) /\
    (5000 <= sinceT (millisT env k) (_noteTimer s) ->
     _noteOn (fst (checks (S k) s env)) = false /\
     emitted (snd (checks (S k) s env)) = emitted env ++ noteOffCalls s).
Proof.
  induction k as [|k IH]; intros s env Hok N Hwait.
  - split; [reflexivity|]. intros Hup.
    rewrite checks_S. cbn [checks].
    apply check_ending; [exact Hok | exact N|].
    destruct Hok as (_ & _ & _ & _ & _ & _ & _ & _ & -> & _). exact Hup.
  - assert (Hd : _noteDuration s = 5000)
      by (destruct Hok as (_ & _ & _ & _ & _ & _ & _ & _ & Hd & _); exact Hd).
    pose proof (check_waiting s env N) as W.
    rewrite Hd in W. specialize (W (Hwait O ltac:(lia))).
    destruct (IH s (snd (millis env)) Hok N) as [I1 I2].
    { intros j Hj. apply (Hwait (S j)). lia. }
    split.
    + rewrite checks_S, W. cbn [fst snd]. rewrite I1, afterMillis_S.
      reflexivity.
    + intros Hup. rewrite checks_S, W. cbn [fst snd].
      apply (I2 Hup).
Qed.

Lemma note_lasts_its_duration_witness :
  let s := fst (check demoSensor demoEnv1) in
  let env := snd (check demoSensor demoEnv1) in
  checks 12 s env = (s, afterMillis 12 env) /\
  (5000 <= sinceT (millisT env 12%nat) (_noteTimer s) ->
   _noteOn (fst (checks 13 s env)) = false /\
   emitted (snd (checks 13 s env)) = emitted env ++ noteOffCalls s).
Proof.
  intros s env.
  apply (note_lasts_its_duration 12 s env).
  - vm_compute. repeat split; try discriminate; try reflexivity.
  - vm_compute. reflexivity.
  - intros j Hj.
    do 12 (destruct j as [|j]; [vm_compute; reflexivity|]). lia.
Defined.

Lemma held_high_millis (s : Sensor) (env : Env) :
  held_high s env -> held_high s (snd (millis env)).
Proof. intros H n. apply H. Qed.

(** A poll of a sensor that has seen its input HIGH, with the input
    still HIGH: it can end a note, never start one. *)
Lemma check_held (s : Sensor) (env : Env) :
  sensor_ok s -> _state s = HIGH -> held_high s env ->
  let s' := fst (check s env) in
  let env' := snd (check s env) in
  sensor_ok s' /\ _state s' = HIGH /\ held_high s' env' /\
  same_wiring s s' /\
  ((_noteOn s' = _noteOn s /\ emitted env' = emitted env) \/
   (_noteOn s = true /\ _noteOn s' = false /\
    emitted env' = emitted env ++ noteOffCalls s)).
Proof.
  intros Hok Hst Hh s' env'. subst s' env'.
  pose proof (noteOff_emits s Hok) as Off.
  pose proof (Hh O) as H0.
  unfold check, _checkNote, digitalRead, millis, emit.
  destruct (_noteOn s) eqn:N; cbn [negb]; cbv beta iota zeta;
    cbn [millisT pinLevel emitted].
  - destruct (_noteDuration s <=? sinceT (millisT env 0%nat) (_noteTimer s)).
    + cbn [_noteOn _inPin _state set_state_noteOn_timer millisT pinLevel
           emitted].
      rewrite Off, Hst, H0, Z.eqb_refl.
      cbn [fst snd emitted].
      split.
      { unfold sensor_ok in *. cbn.
        repeat split; try tauto; try lia; try discriminate. }
      split; [reflexivity|]. split.
      { intros n. cbn [pinLevel _inPin set_state_noteOn_timer].
        rewrite Z.eqb_refl. apply Hh. }
      split; [unfold same_wiring; cbn; tauto|].
      right. repeat split; reflexivity.
    + rewrite N. cbn [fst snd emitted].
      split; [exact Hok|]. split; [exact Hst|].
      split; [intros n; apply Hh|]. split; [apply same_wiring_refl|].
      left. split; [exact N | reflexivity].
  - rewrite ?N. cbv beta iota zeta. cbn [millisT pinLevel emitted].
    rewrite Hst, H0, Z.eqb_refl. cbn [fst snd emitted].
    split; [exact Hok|]. split; [exact Hst|]. split.
    { intros n. cbn [pinLevel]. rewrite Z.eqb_refl. apply Hh. }
    split; [apply same_wiring_refl|].
    left. split; [exact N | reflexivity].
Qed.

Lemma held_after_first (n : nat) :
  forall (s : Sensor) (env : Env),
    sensor_ok s -> _state s = HIGH -> held_high s env ->
    emitted (snd (checks n s env)) = emitted env \/
    (_noteOn s = true /\
     emitted (snd (checks n s env)) = emitted env ++ noteOffCalls s).
Proof.
  induction n as [|n IH]; intros s env Hok Hst Hh.
  - left. reflexivity.
  - rewrite checks_S.
    destruct (check_held s env Hok Hst Hh) as (Hok1 & Hst1 & Hh1 & W & St).
    set (s1 := fst (check s env)) in *. set (env1 := snd (check s env)) in *.
    destruct (IH s1 env1 Hok1 Hst1 Hh1) as [I | [N1 I]];
      destruct St as [[Ns E] | (Ns & Ns1 & E)].
    + left. rewrite I, E. reflexivity.
    + right. split; [exact Ns|]. rewrite I, E. reflexivity.
    + right. split; [congruence|]. rewrite I, E.
      destruct W as (_ & Ho & _ & _ & Hc & _).
      unfold noteOffCalls. rewrite Ho, Hc. reflexivity.
    + congruence.
Qed.

(** X22. An input that is held HIGH fires once: a sensor fresh from
    its constructor ([_state = LOW], no note playing) whose input
    reads HIGH on every poll emits a note-on at the first poll, at
    most the note-off that belongs to it later, and never a second
    note. *)
Theorem held_input_fires_once (n : nat) (s : Sensor) (env : Env) :
  sensor_ok s -> _noteOn s = false -> _state s = LOW -> held_high s env ->
  emitted (snd (checks (S n) s env)) = emitted env ++ noteOnCalls s \/
  emitted (snd (checks (S n) s env)) =
    emitted env ++ noteOnCalls s ++ noteOffCalls s.
Proof.
  intros Hok N Hst Hh. rewrite checks_S.
  destruct (check_step s env Hok) as (Hok1 & W & St).
  assert (First : _noteOn (fst (check s env)) = true /\
                  _state (fst (check s env)) = HIGH /\
                  held_high (fst (check s env)) (snd (check s env)) /\
                  emitted (snd (check s env)) = emitted env ++ noteOnCalls s).
  { pose proof (noteOn_emits s Hok) as On.
    pose proof (Hh O) as H0. clear St Hok1 W.
    unfold held_high.
    unfold check, _checkNote, playNote, digitalRead, millis, emit.
    rewrite N. cbn [negb]. cbv beta iota zeta. rewrite ?N.
    cbv beta iota zeta. cbn [millisT pinLevel emitted].
    rewrite Hst, H0. change (HIGH =? LOW) with false.
    rewrite Z.eqb_refl. cbv beta iota zeta.
    cbn [millisT pinLevel emitted fst snd _noteOn _noteTimer _state _inPin
         set_state_noteOn_timer].
    rewrite <- app_assoc. cbn [app]. rewrite On.
    repeat split; try reflexivity.
    intros k. rewrite Z.eqb_refl. apply Hh. }
  destruct First as (N1 & Hst1 & Hh1 & E1).
  destruct (held_after_first n _ _ Hok1 Hst1 Hh1) as [I | [_ I]];
    rewrite I, E1.
  - left. reflexivity.
  - right. rewrite <- app_assoc.
    destruct W as (_ & Ho & _ & _ & Hc & _).
    unfold noteOffCalls. rewrite Ho, Hc. reflexivity.
Qed.

Lemma held_input_fires_once_witness :
  let s := fst (newSensor 0 6 1 heldEnv) in
  let env := snd (newSensor 0 6 1 heldEnv) in
  emitted (snd (checks 30 s env)) = emitted env ++ noteOnCalls s \/
  emitted (snd (checks 30 s env)) =
    emitted env ++ noteOnCalls s ++ noteOffCalls s.
Proof.
  intros s env.
  apply (held_input_fires_once 29 s env).
  - vm_compute. repeat split; try discriminate; try reflexivity.
  - reflexivity.
  - reflexivity.
  - intros n. reflexivity.
Defined.

(* ------------------------------------------------------------------ *)
(** ** The sensor firmware: five sensors *)
(* ------------------------------------------------------------------ *)

Lemma belongs_own (s : Sensor) :
  filter (belongs s) (noteOnCalls s) = noteOnCalls s /\
  filter (belongs s) (noteOffCalls s) = noteOffCalls s.
Proof.
  unfold noteOnCalls, noteOffCalls. cbn [filter belongs].
  rewrite !Z.eqb_refl. cbn [orb]. rewrite !orb_true_r. split; reflexivity.
Qed.

Lemma belongs_foreign (s a : Sensor) :
  apart s a ->
  filter (belongs s) (noteOnCalls a) = [] /\
  filter (belongs s) (noteOffCalls a) = [].
Proof.
  intros [Hc Ho]. unfold noteOnCalls, noteOffCalls. cbn [filter belongs].
  assert (E1 : (_midiChannel a =? _midiChannel s) = false)
    by (apply Z.eqb_neq; congruence).
  assert (E2 : (_outPin a =? _outPin s) = false)
    by (apply Z.eqb_neq; congruence).
  assert (E3 : (2 * _midiChannel a =? 2 * _midiChannel s) = false)
    by (apply Z.eqb_neq; lia).
  assert (E4 : (2 * _midiChannel a =? 2 * _midiChannel s + 1) = false)
    by (apply Z.eqb_neq; lia).
  assert (E5 : (2 * _midiChannel a + 1 =? 2 * _midiChannel s) = false)
    by (apply Z.eqb_neq; lia).
  assert (E6 : (2 * _midiChannel a + 1 =? 2 * _midiChannel s + 1) = false)
    by (apply Z.eqb_neq; lia).
  rewrite E1, E2, E3, E4, E5, E6. split; reflexivity.
Qed.

Lemma belongs_wiring (s s' : Sensor) (evs : list Event) :
  same_wiring s s' -> filter (belongs s') evs = filter (belongs s) evs.
Proof.
  intros (_ & Ho & _ & _ & Hc & _). apply filter_ext. intros ev.
  unfold belongs. rewrite Ho, Hc. reflexivity.
Qed.

(** One pass over the sensors, seen from one of them: its own poll
    contributes the note-on or note-off that was due, if any, and the
    polls of the others nothing that could be taken for its calls. *)
Lemma checkSensors_spec (ss : list Sensor) :
  forall env : Env,
    Forall sensor_ok ss ->
    let ss' := fst (checkSensors ss env) in
    let env' := snd (checkSensors ss env) in
    Forall2 same_wiring ss ss' /\ Forall sensor_ok ss' /\
    exists evs : list Event,
      emitted env' = emitted env ++ evs /\
      (forall t : Sensor,
         (forall a, In a ss -> apart t a) -> filter (belongs t) evs = []) /\
      (forall (i : nat) (s s' : Sensor),
         nth_error ss i = Some s -> nth_error ss' i = Some s' ->
         (forall (j : nat) (a : Sensor),
            j <> i -> nth_error ss j = Some a -> apart s a) ->
         (_noteOn s' = _noteOn s /\ filter (belongs s) evs = []) \/
         (_noteOn s' = negb (_noteOn s) /\
          filter (belongs s) evs =
          (if _noteOn s then noteOffCalls s else noteOnCalls s))).
Proof.
  induction ss as [|a r IH]; intros env Hok ss' env'; subst ss' env'.
  - cbn [checkSensors fst snd]. split; [constructor|].
    split; [constructor|]. exists []. rewrite app_nil_r.
    split; [reflexivity|]. split; [reflexivity|].
    intros [|i] s s' H; discriminate H.
  - inversion Hok as [|? ? Ha Hr]; subst.
    cbn [checkSensors].
    destruct (check_step a env Ha) as (Ha1 & Wa & Sta).
    destruct (check a env) as [a1 env1]. cbn [fst snd] in Ha1, Wa, Sta.
    specialize (IH env1 Hr). cbv zeta in IH.
    destruct (checkSensors r env1) as [r1 env2]. cbn [fst snd] in IH |- *.
    destruct IH as (Wr & Hr1 & evs & Ee & Efor & Eown).
    split; [constructor; assumption|]. split; [constructor; assumption|].
    assert (Ea : exists evsa,
               emitted env1 = emitted env ++ evsa /\
               ((_noteOn a1 = _noteOn a /\ evsa = []) \/
                (_noteOn a1 = negb (_noteOn a) /\
                 evsa = (if _noteOn a then noteOffCalls a
                         else noteOnCalls a)))).
    { destruct Sta as [[N E] | [N E]].
      - exists []. rewrite app_nil_r. split; [exact E|]. left. tauto.
      - eexists. split; [exact E|]. right. tauto. }
    destruct Ea as (evsa & Eea & Ca).
    exists (evsa ++ evs). rewrite Ee, Eea, <- app_assoc.
    split; [reflexivity|]. split.
    + intros t Ht. rewrite filter_app.
      rewrite (Efor t) by (intros b Hb; apply Ht; right; exact Hb).
      rewrite app_nil_r.
      destruct (belongs_foreign t a (Ht a (or_introl eq_refl))) as [F1 F2].
      destruct Ca as [[_ ->] | [_ ->]]; [reflexivity|].
      destruct (_noteOn a); assumption.
    + intros [|i] s s' Hn Hn' Hap; cbn [nth_error] in Hn, Hn'.
      * injection Hn as <-. injection Hn' as <-.
        rewrite filter_app.
        rewrite (Efor a)
          by (intros b Hb; destruct (In_nth_error _ _ Hb) as [j Hj];
              apply (Hap (S j) b); [lia | exact Hj]).
        rewrite app_nil_r.
        destruct (belongs_own a) as [O1 O2].
        destruct Ca as [[N ->] | [N ->]]; [left; tauto|].
        right. split; [exact N|]. destruct (_noteOn a); assumption.
      * rewrite filter_app.
        destruct (belongs_foreign s a (Hap O a ltac:(lia) eq_refl))
          as [F1 F2].
        assert (Fa : filter (belongs s) evsa = []).
        { destruct Ca as [[_ ->] | [_ ->]]; [reflexivity|].
          destruct (_noteOn a); assumption. }
        rewrite Fa. cbn [app].
        apply (Eown i s s' Hn Hn').
        intros j b Hj Hb. apply (Hap (S j) b); [lia | exact Hb].
Qed.

Lemma wired_apart_wiring (ss ss' : list Sensor) :
  Forall2 same_wiring ss ss' -> wired_apart ss -> wired_apart ss'.
Proof.
  intros W Hap i j a' b' Hij Ha Hb.
  destruct (Forall2_nth_error _ _ _ _ _ W Ha) as (a & Hna & Wa).
  destruct (Forall2_nth_error _ _ _ _ _ W Hb) as (b & Hnb & Wb).
  destruct (Hap i j a b Hij Hna Hnb) as [Hc Ho].
  destruct Wa as (_ & Hoa & _ & _ & Hca & _).
  destruct Wb as (_ & Hob & _ & _ & Hcb & _).
  unfold apart. rewrite Hoa, Hca, Hob, Hcb. tauto.
Qed.

Lemma wired_apart_NoDup (ss : list Sensor) :
  NoDup (map _midiChannel ss) -> NoDup (map _outPin ss) -> wired_apart ss.
Proof.
  intros Nc No i j a b Hij Ha Hb.
  assert (Hi : (i < length ss)%nat) by (apply nth_error_Some; congruence).
  split; intros E; apply Hij.
  - apply (proj1 (NoDup_nth_error (map _midiChannel ss)) Nc i j).
    + rewrite length_map. exact Hi.
    + rewrite !nth_error_map, Ha, Hb. cbn. rewrite E. reflexivity.
  - apply (proj1 (NoDup_nth_error (map _outPin ss)) No i j).
    + rewrite length_map. exact Hi.
    + rewrite !nth_error_map, Ha, Hb. cbn. rewrite E. reflexivity.
Qed.

Lemma teensyLoops_S (n : nat) (ss : list Sensor) (env : Env) :
  teensyLoops (S n) ss env =
  teensyLoops n (fst (checkSensors ss env)) (snd (checkSensors ss env)).
Proof. cbn [teensyLoops]. destruct (checkSensors ss env). reflexivity. Qed.

(** X23. The sensors do not get into each other's way: for sound
    sensors on pairwise different channels and output pins, polled in
    turn by [loop()] any number of times, the calls that belong to one
    sensor (by channel, output pin or control-change number), picked
    out of the common stream, are whole note-ons and note-offs of that
    sensor in turn, at most one per pass, as if it were alone. The
    control-change numbers [2 * channel] and [2 * channel + 1], all on
    channel 16, are what tells the sensors apart there. *)
Theorem sensors_do_not_interfere (n : nat) :
  forall (ss : list Sensor) (env : Env) (i : nat) (s : Sensor),
    Forall sensor_ok ss -> wired_apart ss -> nth_error ss i = Some s ->
    exists (k : nat) (evs : list Event) (s' : Sensor),
      (k <= n)%nat /\
      emitted (snd (teensyLoops n ss env)) = emitted env ++ evs /\
      filter (belongs s) evs = script s (_noteOn s) k /\
      nth_error (fst (teensyLoops n ss env)) i = Some s' /\
      _noteOn s' = (if Nat.even k then _noteOn s else negb (_noteOn s)).
Proof.
  induction n as [|n IH]; intros ss env i s Hok Hap Hn.
  - exists O, [], s. cbn [teensyLoops fst snd script Nat.even filter].
    rewrite app_nil_r. split; [lia|]. split; [reflexivity|].
    split; [reflexivity|]. split; [exact Hn | reflexivity].
  - rewrite teensyLoops_S.
    destruct (checkSensors_spec ss env Hok) as (W & Hok1 & evs1 & E1 & _ & Own).
    set (ss1 := fst (checkSensors ss env)) in *.
    set (env1 := snd (checkSensors ss env)) in *.
    destruct (Forall2_nth_fwd _ _ _ i s W Hn) as (s1 & Hn1 & W1).
    specialize (Own i s s1 Hn Hn1).
    assert (Hap_i : forall (j : nat) (a : Sensor),
               j <> i -> nth_error ss j = Some a -> apart s a).
    { intros j a Hj Ha. apply (Hap i j s a); [congruence | exact Hn | exact Ha]. }
    specialize (Own Hap_i).
    destruct (IH ss1 env1 i s1 Hok1 (wired_apart_wiring _ _ W Hap) Hn1)
      as (k & evs2 & s' & Hk & E2 & F2 & Hn' & N').
    rewrite (belongs_wiring s s1 _ W1), (script_wiring s s1 _ k W1) in F2.
    destruct Own as [[N1 F1] | [N1 F1]].
    + exists k, (evs1 ++ evs2), s'. split; [lia|].
      rewrite E2, E1, <- app_assoc. split; [reflexivity|].
      rewrite filter_app, F1, F2, N1. cbn [app].
      split; [reflexivity|]. split; [exact Hn'|]. rewrite N', N1. reflexivity.
    + exists (S k), (evs1 ++ evs2), s'. split; [lia|].
      rewrite E2, E1, <- app_assoc. split; [reflexivity|].
      rewrite filter_app, F1, F2, N1. cbn [script].
      split; [reflexivity|]. split; [exact Hn'|]. rewrite N', N1.
      rewrite Nat.even_succ, <- Nat.negb_even.
      destruct (Nat.even k), (_noteOn s); reflexivity.
Qed.

Lemma sensors_do_not_interfere_witness :
  let ss := fst (sensors demoEnv) in
  let env := snd (sensors demoEnv) in
  exists (k : nat) (evs : list Event) (s' : Sensor),
    (k <= 20)%nat /\
    emitted (snd (teensyLoops 20 ss env)) = emitted env ++ evs /\
    filter (belongs (nth 2 ss demoSensor)) evs =
      script (nth 2 ss demoSensor) (_noteOn (nth 2 ss demoSensor)) k /\
    nth_error (fst (teensyLoops 20 ss env)) 2 = Some s' /\
    _noteOn s' = (if Nat.even k then _noteOn (nth 2 ss demoSensor)
                  else negb (_noteOn (nth 2 ss demoSensor))).
Proof.
  intros ss env.
  apply (sensors_do_not_interfere 20 ss env 2 (nth 2 ss demoSensor)).
  - vm_compute.
    repeat (constructor;
            [repeat split; try discriminate; try reflexivity|]).
    constructor.
  - apply wired_apart_NoDup; vm_compute;
      repeat (constructor; [cbn; intuition discriminate|]); constructor.
  - reflexivity.
Defined.

(* ------------------------------------------------------------------ *)
(** ** How long a blink takes *)
(* ------------------------------------------------------------------ *)

Lemma updateEyeN_app (n m : nat) :
  forall (e : Eye) (w : World),
    updateEyeN (n + m) e w =
    updateEyeN m (fst (updateEyeN n e w)) (snd (updateEyeN n e w)).
Proof.
  induction n as [|n IH]; intros e w.
  - reflexivity.
  - change (S n + m)%nat with (S (n + m)).
    rewrite !updateEyeN_S. apply IH.
Qed.

(** While the lids are still more than 2 apart, [k] calls of the
    closing animation narrow the eye by [2 * k] and touch nothing
    else, the generator included. *)
Lemma closing_run (k : nat) :
  forall (e : Eye) (w : World),
    state e = EYE_BLINKING_CLOSE \/ state e = EYE_CLOSING ->
    openAmount e <= Int.max_int ->
    0 < openAmount e - 2 * Z.of_nat k ->
    let e' := fst (updateEyeN k e w) in
    snd (updateEyeN k e w) = w /\
    state e' = state e /\
    openAmount e' = openAmount e - 2 * Z.of_nat k /\
    maxOpen e' = maxOpen e /\ blinksLeft e' = blinksLeft e /\
    same_iris e e'.
Proof.
  induction k as [|k IH]; intros e w Hs Hm Hk e'; subst e'.
  - cbn [updateEyeN ret fst snd]. unfold same_iris.
    repeat split; try reflexivity. lia.
  - rewrite updateEyeN_S.
    assert (St : updateEye e w =
                 (set_openAmount (openAmount e - 2) e, w)).
    { destruct Hs as [Hs | Hs].
      - rewrite (updateEye_closing_step e w EYE_BLINKING_OPEN) by tauto.
        unfold EYE_OPEN_SPEED. rewrite sub_exact by int_lia.
        destruct (openAmount e - 2 <=? 0) eqn:E; zbool; [lia | reflexivity].
      - rewrite (updateEye_closing_step e w EYE_INACTIVE) by tauto.
        unfold EYE_OPEN_SPEED. rewrite sub_exact by int_lia.
        destruct (openAmount e - 2 <=? 0) eqn:E; zbool; [lia | reflexivity]. }
    rewrite St. cbn [fst snd].
    destruct (IH (set_openAmount (openAmount e - 2) e) w)
      as (I1 & I2 & I3 & I4 & I5 & I6).
    + exact Hs.
    + cbn [openAmount set_openAmount]. lia.
    + cbn [openAmount set_openAmount]. lia.
    + rewrite I1, I2, I3, I4, I5.
      cbn [state openAmount maxOpen blinksLeft set_openAmount].
      split; [reflexivity|]. split; [reflexivity|]. split; [lia|].
      split; [reflexivity|]. split; [reflexivity|]. exact I6.
Qed.

(** The call that brings the lids together: the eye is clamped at 0
    and moves on, to reopen after a blink or to free its slot. *)
Lemma closing_done (e : Eye) (w : World) (next : EyeState) :
  (state e = EYE_BLINKING_CLOSE /\ next = EYE_BLINKING_OPEN) \/
  (state e = EYE_CLOSING /\ next = EYE_INACTIVE) ->
  Int.min_int + 2 <= openAmount e <= 2 ->
  let e' := fst (updateEye e w) in
  snd (updateEye e w) = w /\ state e' = next /\ openAmount e' = 0 /\
  maxOpen e' = maxOpen e /\ blinksLeft e' = blinksLeft e /\ same_iris e e'.
Proof.
  intros Hs Ho e'. subst e'.
  rewrite (updateEye_closing_step e w next Hs).
  unfold EYE_OPEN_SPEED. rewrite sub_exact by int_lia.
  destruct (openAmount e - 2 <=? 0) eqn:E; zbool; [|lia].
  cbn [fst snd]. unfold same_iris. cbn. tauto.
Qed.


(** X24. A blink takes [maxOpen] frames, one more when [maxOpen] is
    odd: an eye that has just begun to blink ([EYE_BLINKING_CLOSE],
    fully open, [1 <= maxOpen]) narrows by 2 per call for
    [c = (maxOpen + 1) / 2] calls, is [EYE_BLINKING_OPEN] with the
    lids together after exactly [c] calls, widens by 2 per call, and
    is [EYE_OPEN] at [maxOpen] again, with a new hold time of 60..179
    frames, after exactly [2 * c] calls. The blink count is not
    touched on the way, and while the lids close neither the iris nor
    the generator is. *)
Theorem blink_takes_maxOpen_frames (e : Eye) (w : World) :
  state e = EYE_BLINKING_CLOSE -> openAmount e = maxOpen e ->
  1 <= maxOpen e <= Int.max_int - 2 ->
  let c := lidTicks (maxOpen e) in
  (forall k : nat, (k < c)%nat ->
     state (fst (updateEyeN k e w)) = EYE_BLINKING_CLOSE /\
     openAmount (fst (updateEyeN k e w)) = maxOpen e - 2 * Z.of_nat k /\
     snd (updateEyeN k e w) = w /\
     same_iris e (fst (updateEyeN k e w))) /\
  (state (fst (updateEyeN c e w)) = EYE_BLINKING_OPEN /\
   openAmount (fst (updateEyeN c e w)) = 0 /\
   snd (updateEyeN c e w) = w) /\
  (forall k : nat, (k < c)%nat ->
     state (fst (updateEyeN (c + k) e w)) = EYE_BLINKING_OPEN /\
     openAmount (fst (updateEyeN (c + k) e w)) = 2 * Z.of_nat k) /\
  (state (fst (updateEyeN (c + c) e w)) = EYE_OPEN /\
   openAmount (fst (updateEyeN (c + c) e w)) = maxOpen e /\
   60 <= timer (fst (updateEyeN (c + c) e w)) < 180 /\
   blinksLeft (fst (updateEyeN (c + c) e w)) = blinksLeft e).
Proof.
  intros Hs Ho Hm c.
  assert (Hc : 2 * Z.of_nat c - 1 <= maxOpen e <= 2 * Z.of_nat c /\
               (1 <= c)%nat).
  { unfold c, lidTicks.
    pose proof (Z.quot_rem' (maxOpen e + 1) 2) as Q.
    pose proof (Z.rem_bound_pos_pos (maxOpen e + 1) 2 ltac:(lia) ltac:(lia)).
    lia. }
  destruct Hc as [Hc Hc1].
  assert (Closing : forall k : nat, (k < c)%nat ->
     state (fst (updateEyeN k e w)) = EYE_BLINKING_CLOSE /\
     openAmount (fst (updateEyeN k e w)) = maxOpen e - 2 * Z.of_nat k /\
     snd (updateEyeN k e w) = w /\
     same_iris e (fst (updateEyeN k e w)) /\
     maxOpen (fst (updateEyeN k e w)) = maxOpen e /\
     blinksLeft (fst (updateEyeN k e w)) = blinksLeft e).
  { intros k Hk.
    destruct (closing_run k e w (or_introl Hs) ltac:(int_lia) ltac:(lia))
      as (R1 & R2 & R3 & R4 & R5 & R6).
    rewrite R2, R3, Ho. tauto. }
  assert (Closed :
     state (fst (updateEyeN c e w)) = EYE_BLINKING_OPEN /\
     openAmount (fst (updateEyeN c e w)) = 0 /\
     snd (updateEyeN c e w) = w /\
     maxOpen (fst (updateEyeN c e w)) = maxOpen e /\
     blinksLeft (fst (updateEyeN c e w)) = blinksLeft e).
  { destruct c as [|c']; [lia|].
    replace (S c') with (c' + 1)%nat by lia. rewrite updateEyeN_app.
    destruct (Closing c' ltac:(lia)) as (R1 & R2 & R3 & _ & R5 & R6).
    set (e1 := fst (updateEyeN c' e w)) in *. rewrite R3.
    change (updateEyeN 1 e1 w)
      with (let (e2, w2) := updateEye e1 w in (e2, w2)).
    destruct (closing_done e1 w EYE_BLINKING_OPEN
                (or_introl (conj R1 eq_refl)) ltac:(int_lia))
      as (D1 & D2 & D3 & D4 & D5 & _).
    destruct (updateEye e1 w) as [e2 w2]. cbn [fst snd] in *.
    rewrite D2, D3, D4, D5, R5, R6. tauto. }
  destruct Closed as (Z1 & Z2 & Z3 & Z4 & Z5).
  set (e0 := fst (updateEyeN c e w)) in *.
  assert (Opening : forall k : nat, (k < c)%nat ->
     state (fst (updateEyeN (c + k) e w)) = EYE_BLINKING_OPEN /\
     openAmount (fst (updateEyeN (c + k) e w)) = 2 * Z.of_nat k).
  { intros k Hk. rewrite updateEyeN_app. fold e0. rewrite Z3.
    destruct (Nat.eq_dec k O) as [-> | Hk0].
    - cbn [updateEyeN ret fst]. rewrite Z1, Z2. split; [reflexivity | lia].
    - pose proof (opening_run k e0 w (or_intror Z1) ltac:(lia)
                    ltac:(int_lia) ltac:(lia)) as R.
      cbv zeta in R. destruct R as (R1 & R2 & _).
      rewrite R1, R2, Z1, Z2. split; [reflexivity | lia]. }
  split.
  { intros k Hk. destruct (Closing k Hk) as (R1 & R2 & R3 & R4 & _). tauto. }
  split; [tauto|]. split; [exact Opening|].
  rewrite updateEyeN_app. fold e0. rewrite Z3.
  destruct c as [|c']; [lia|].
  pose proof (opening_done c' e0 w (or_intror Z1) ltac:(lia)
                ltac:(int_lia) ltac:(lia)) as R.
  cbv zeta in R. destruct R as (R1 & R2 & _ & R4).
  rewrite R1, R2, Z4. split; [reflexivity|]. split; [reflexivity|].
  split; [exact R4|].
  rewrite <- Z5.
  replace (S c') with (c' + 1)%nat by lia. rewrite updateEyeN_app.
  pose proof (opening_run c' e0 w (or_intror Z1) ltac:(lia)
                ltac:(int_lia) ltac:(lia)) as Rr.
  cbv zeta in Rr. destruct Rr as (Q1 & _ & _ & _ & Q5 & _).
  set (e1 := fst (updateEyeN c' e0 w)) in *.
  change (updateEyeN 1 e1 (snd (updateEyeN c' e0 w)))
    with (let (e2, w2) := updateEye e1 (snd (updateEyeN c' e0 w)) in (e2, w2)).
  pose proof (updateEye_opening_step e1 (snd (updateEyeN c' e0 w))
                (or_intror (eq_trans Q1 Z1))) as St.
  cbv zeta in St. destruct St as (_ & _ & _ & _ & Hb & _).
  destruct (updateEye e1 (snd (updateEyeN c' e0 w))) as [e2 w2].
  cbn [fst] in *. congruence.
Qed.

Lemma blink_takes_maxOpen_frames_witness :
  let e := mkEye 16 300 EYE_BLINKING_CLOSE 14 14 25 0 1 0 0 0 0 30 in
  state (fst (updateEyeN 7 e demoWorld)) = EYE_BLINKING_OPEN /\
  openAmount (fst (updateEyeN 7 e demoWorld)) = 0 /\
  state (fst (updateEyeN 14 e demoWorld)) = EYE_OPEN /\
  openAmount (fst (updateEyeN 14 e demoWorld)) = 14.
Proof.
  intros e.
  pose proof (blink_takes_maxOpen_frames e demoWorld eq_refl eq_refl) as H.
  cbv zeta in H.
  destruct H as (_ & (H1 & H2 & _) & _ & (H3 & H4 & _)).
  - cbn [maxOpen e]. unfold Int.max_int. lia.
  - repeat split; assumption.
Defined.

(** One call on an eye that is open and whose hold time is not up:
    the timer counts down, the iris may move, nothing else happens. *)
Lemma updateEye_holding (e : Eye) (w : World) :
  state e = EYE_OPEN -> 1 < timer e <= Int.max_int ->
  let e' := fst (updateEye e w) in
  state e' = EYE_OPEN /\ timer e' = timer e - 1 /\
  openAmount e' = openAmount e /\ maxOpen e' = maxOpen e /\
  blinksLeft e' = blinksLeft e /\
  same_scene w (snd (updateEye e w)).
Proof.
  intros Hs Ht e'. subst e'.
  rewrite (updateEye_open_step e w Hs). cbv zeta.
  cbn [timer set_timer]. rewrite sub_exact by int_lia.
  destruct (timer e - 1 <=? 0) eqn:E; zbool; [lia|].
  pose proof (updateIris_body (set_timer (timer e - 1) e) w) as B.
  pose proof (updateIris_scene (set_timer (timer e - 1) e) w) as Sc.
  destruct (updateIris (set_timer (timer e - 1) e) w) as [e1 w1].
  cbn [fst snd] in *. unfold same_body in B.
  cbn [x y state openAmount maxOpen halfHeight timer blinksLeft set_timer]
    in B.
  destruct B as (_ & _ & B3 & B4 & B5 & _ & B7 & B8).
  rewrite B3, B4, B5, B7, B8, Hs. tauto.
Qed.

(** X25. An eye stays open for exactly the number of frames on its
    timer: with [timer = t >= 1] on an [EYE_OPEN] eye, the first
    [t - 1] calls of [updateEye] count the timer down and change
    nothing of the lids, the blink count or the rings (only the iris
    and the generator move), and call number [t] starts a blink, which
    takes one off [blinksLeft], when blinks are left, and the final
    closing when none is. *)
Theorem eye_holds_open_for_its_timer (t : nat) :
  forall (e : Eye) (w : World),
    state e = EYE_OPEN -> timer e = Z.of_nat (S t) ->
    timer e <= Int.max_int -> 0 <= blinksLeft e <= Int.max_int ->
    (forall k : nat, (k <= t)%nat ->
       state (fst (updateEyeN k e w)) = EYE_OPEN /\
       timer (fst (updateEyeN k e w)) = timer e - Z.of_nat k /\
       openAmount (fst (updateEyeN k e w)) = openAmount e /\
       blinksLeft (fst (updateEyeN k e w)) = blinksLeft e /\
       same_scene w (snd (updateEyeN k e w))) /\
    state (fst (updateEyeN (S t) e w)) =
      (if 0 <? blinksLeft e then EYE_BLINKING_CLOSE else EYE_CLOSING) /\
    blinksLeft (fst (updateEyeN (S t) e w)) =
      (if 0 <? blinksLeft e then blinksLeft e - 1 else blinksLeft e) /\
    openAmount (fst (updateEyeN (S t) e w)) = openAmount e.
Proof.
  induction t as [|t IH]; intros e w Hs Ht Hm Hb.
  - split.
    + intros k Hk. replace k with O by lia.
      cbn [updateEyeN ret fst snd]. unfold same_scene.
      repeat split; try reflexivity; try assumption. lia.
    + rewrite updateEyeN_S. cbn [updateEyeN ret fst].
      pose proof (updateEye_transition e w) as T. cbv zeta in T.
      rewrite Hs in T.
      rewrite (sub_exact (timer e) 1) in T by (rewrite Ht; int_lia).
      destruct (updateEye_geometry e w) as (_ & _ & _ & _ & Go).
      rewrite (Go Hs).
      destruct T as [(_ & T & _) | [(T1 & _ & T3 & T4) | (T1 & _ & T3 & T4)]].
      * lia.
      * rewrite T1, T4. destruct (0 <? blinksLeft e) eqn:E; zbool; [|lia].
        rewrite sub_exact by int_lia. tauto.
      * rewrite T1, T4. destruct (0 <? blinksLeft e) eqn:E; zbool; [lia|].
        tauto.
  - destruct (updateEye_holding e w Hs ltac:(int_lia))
      as (H1 & H2 & H3 & _ & H5 & H6).
    destruct (IH (fst (updateEye e w)) (snd (updateEye e w)) H1
                ltac:(lia) ltac:(lia) ltac:(lia)) as (I1 & I2 & I3 & I4).
    split.
    + intros [|k] Hk.
      * cbn [updateEyeN ret fst snd]. unfold same_scene.
        repeat split; try reflexivity; try assumption. lia.
      * rewrite updateEyeN_S.
        destruct (I1 k ltac:(lia)) as (J1 & J2 & J3 & J4 & J5).
        rewrite J1, J2, J3, J4, H2, H3, H5.
        split; [reflexivity|]. split; [lia|]. split; [reflexivity|].
        split; [reflexivity|].
        unfold same_scene in *. intuition congruence.
    + rewrite updateEyeN_S, I2, I3, I4, H5, H3. tauto.
Qed.

Lemma eye_holds_open_for_its_timer_witness :
  state (fst (updateEyeN 59 (demoOpenEye 60 1) demoWorld)) = EYE_OPEN /\
  state (fst (updateEyeN 60 (demoOpenEye 60 1) demoWorld))
    = EYE_BLINKING_CLOSE.
Proof.
  pose proof (eye_holds_open_for_its_timer 59 (demoOpenEye 60 1) demoWorld
                eq_refl eq_refl) as H.
  destruct H as (H1 & H2 & _).
  - cbn [timer demoOpenEye]. unfold Int.max_int. lia.
  - cbn [blinksLeft demoOpenEye]. unfold Int.max_int. lia.
  - split; [apply (H1 59%nat); lia | exact H2].
Defined.
